(** * SVGOMG page script: job coordination, result cache and settings fingerprint

    A shallow embedding of the classes of [page.js] that carry the
    request/response protocol with the workers ([WorkerMessenger], [Gzip],
    [Svgo]), the computed artifacts ([SvgFile]), the ring-buffer cache
    ([ResultsCache]), the settings fingerprint ([Settings.getSettings]) and the
    compression cycle of the controller ([MainController._compressSvg]); and
    of the helpers around them: [escapeHTML] and [escapeHtmlTag],
    [Changelog.showLogFrom], [Settings.setSettings] with the saving and
    loading of the settings, and the event emitter [createNanoEvents].

    JavaScript objects with identity (promises, workers, [SvgFile]s, blob
    URLs) are numbered handles into explicit stores; the browser's microtask
    queue is an explicit FIFO list of promise reactions. *)

From Stdlib Require Import NArith ZArith Lia Ascii String.
From stdpp Require Import base option list gmap strings sorting.

(** ** JavaScript values that travel through the modelled code *)

Abbreviation promise := nat.   (* index into the promise store *)
Abbreviation worker := nat.    (* n-th [Worker] object constructed so far *)
Abbreviation ref := nat.       (* index into the store of [SvgFile] objects *)
Abbreviation url := nat.       (* n-th blob URL handed out by [URL.createObjectURL] *)

(** An error object: [name] and [message] are the two properties the code
    reads. *)
Module JsError.
Record t := { name : string; message : string }.
End JsError.
Abbreviation JsError := JsError.t.

(** [new DOMException('AbortError', 'AbortError')]: message first, name second. *)
Definition AbortError : JsError :=
  {| JsError.name := "AbortError"; JsError.message := "AbortError" |}.
(** [new Error(msg)]. *)
Definition Error (msg : string) : JsError :=
  {| JsError.name := "Error"; JsError.message := msg |}.
(** A [TypeError] thrown by the engine (reading a property of [undefined]
    or [null]). *)
Definition TypeError (msg : string) : JsError :=
  {| JsError.name := "TypeError"; JsError.message := msg |}.

Global Instance JsError_eq_dec : EqDecision JsError.
Proof. solve_decision. Defined.

(** Values a promise of this program is settled with. *)
Inductive Value :=
| VUndefined
| VNull
| VProcessed (data : string) (width height : N)  (* [{data, dimensions: {width, height}}] *)
| VDimensions (width height : N)                 (* [{width, height}] *)
| VBytes (byteLength : N)                        (* a byte buffer, of which only [byteLength] is read *)
| VNumber (n : N)
| VFile (f : ref).                               (* an [SvgFile] object *)

Global Instance Value_eq_dec : EqDecision Value.
Proof. solve_decision. Defined.

Inductive Outcome := Fulfilled (v : Value) | Rejected (e : JsError).

Global Instance Outcome_eq_dec : EqDecision Outcome.
Proof. solve_decision. Defined.

(** An option of a settings object: a checkbox yields a boolean, any other
    input its [value] string. *)
Inductive OptionValue := OBool (b : bool) | OString (s : string).

Global Instance OptionValue_eq_dec : EqDecision OptionValue.
Proof. solve_decision. Defined.

(** The object built by [Settings.getSettings]: the options named after the
    global inputs, the nested [plugins] object and the [fingerprint]. *)
Record SettingsObject := {
  options : gmap string OptionValue;
  plugins : gmap string bool;
  fingerprint : string;
}.

(** JavaScript truthiness of [settings[name]]; an absent property is
    [undefined]. *)
Definition truthy (o : option OptionValue) : bool :=
  match o with
  | Some (OBool b) => b
  | Some (OString s) => negb (String.eqb s EmptyString)
  | None => false
  end.

(** The message posted to a worker: [{id, action, settings, data}]. *)
Record Request := {
  req_id : N;
  req_action : option string;
  req_settings : option SettingsObject;
  req_data : string;
}.

(** [event.data] of a message received from a worker:
    [{id, result, error}], each of which may be missing. *)
Record MessageData := {
  msg_id : option N;
  msg_result : Value;
  msg_error : option string;
}.

(** ** Promises, the microtask queue and the workers

    [K] is the type of promise reactions (the continuations registered by
    [then], [catch] and [await]). *)
Section Runtime.
Context {K : Type}.

Inductive PromiseState := Pending (reactions : list K) | Settled (o : Outcome).

Record Browser := {
  promises : list PromiseState;          (* promise store *)
  microtasks : list (K * Outcome);       (* FIFO queue of reaction jobs *)
  spawned : nat;                         (* number of [new Worker(...)] so far *)
  terminated : list worker;              (* workers on which [terminate()] was called *)
  posted : list (worker * Request);      (* [postMessage] calls, oldest first *)
  console : nat;                         (* number of [console.log] calls *)
}.

Definition set_promises (f : list PromiseState → list PromiseState) (b : Browser) : Browser :=
  {| promises := f (promises b); microtasks := microtasks b; spawned := spawned b;
     terminated := terminated b; posted := posted b; console := console b |}.

Definition enqueue (js : list (K * Outcome)) (b : Browser) : Browser :=
  {| promises := promises b; microtasks := microtasks b ++ js; spawned := spawned b;
     terminated := terminated b; posted := posted b; console := console b |}.

Definition set_microtasks (js : list (K * Outcome)) (b : Browser) : Browser :=
  {| promises := promises b; microtasks := js; spawned := spawned b;
     terminated := terminated b; posted := posted b; console := console b |}.

(** [new Promise(...)]: a fresh pending promise. *)
Definition new_promise (b : Browser) : promise * Browser :=
  (length (promises b), set_promises (λ ps, ps ++ [Pending []]) b).

(** Calling a promise's [resolve]/[reject] function: the first call settles
  the promise and queues its reactions, later calls do nothing. *)
Definition settle (p : promise) (o : Outcome) (b : Browser) : Browser :=
  match promises b !! p with
  | Some (Pending ks) =>
      enqueue (map (λ k, (k, o)) ks) (set_promises (λ ps, <[p := Settled o]> ps) b)
  | _ => b
  end.

(** [p.then(k, k)] / [await p]: the reaction runs in a microtask once [p]
  is settled. *)
Definition subscribe (p : promise) (k : K) (b : Browser) : Browser :=
  match promises b !! p with
  | Some (Pending ks) => set_promises (λ ps, <[p := Pending (ks ++ [k])]> ps) b
  | Some (Settled o) => enqueue [(k, o)] b
  | None => b
  end.

(** [new Worker(url)]. *)
Definition new_worker (b : Browser) : worker * Browser :=
  (spawned b,
   {| promises := promises b; microtasks := microtasks b; spawned := S (spawned b);
      terminated := terminated b; posted := posted b; console := console b |}).

(** [w.terminate()]. *)
Definition terminate (w : worker) (b : Browser) : Browser :=
  {| promises := promises b; microtasks := microtasks b; spawned := spawned b;
     terminated := w :: terminated b; posted := posted b; console := console b |}.

(** [w.postMessage(m)]. *)
Definition postMessage (w : worker) (m : Request) (b : Browser) : Browser :=
  {| promises := promises b; microtasks := microtasks b; spawned := spawned b;
     terminated := terminated b; posted := posted b ++ [(w, m)]; console := console b |}.

(** [console.log(...)]. *)
Definition console_log (b : Browser) : Browser :=
  {| promises := promises b; microtasks := microtasks b; spawned := spawned b;
     terminated := terminated b; posted := posted b; console := S (console b) |}.

(** A worker that can still receive messages. *)
Definition alive (w : worker) (b : Browser) : Prop :=
  w < spawned b ∧ w ∉ terminated b.
End Runtime.

Arguments PromiseState : clear implicits.
Arguments Browser : clear implicits.

(** ** class WorkerMessenger *)
Module WorkerMessenger.
Record t := {
  _requestId : N;
  (* worker jobs awaiting response { [requestId]: [ resolve, reject ] };
     the pair is identified with the promise it settles *)
  _pending : gmap N promise;
  _worker : option worker;
}.

(** [constructor(url)]; the url only selects the worker script. *)
Definition constructor : t :=
  {| _requestId := 0; _pending := ∅; _worker := None |}.

(** [Object.keys(this._pending)]: integer keys come in ascending order. *)
Definition keys (pending : gmap N promise) : list N :=
  merge_sort N.le (map fst (map_to_list pending)).

Section Methods.
Context {K : Type}.
Local Abbreviation Browser := (Browser K).
Local Abbreviation state := (t * Browser)%type.

Definition _fulfillPending (id : N) (result : Value) (error : option JsError)
    (s : state) : state :=
  let '(this, b) := s in
  match _pending this !! id with
  | None => (this, console_log b)
  | Some resolver =>
      let this' := {| _requestId := _requestId this;
                      _pending := delete id (_pending this);
                      _worker := _worker this |} in
      match error with
      | Some e => (this', settle resolver (Rejected e) b)
      | None => (this', settle resolver (Fulfilled result) b)
      end
  end.

(** The body of the loop of [_abortPending]. *)
Definition abort_one (s : state) (key : N) : state :=
  _fulfillPending key VNull (Some AbortError) s.

Definition _abortPending (s : state) : state :=
  foldl abort_one s (keys (_pending (fst s))).

Definition _startWorker (s : state) : state :=
  let '(this, b) := s in
  let '(w, b) := new_worker b in
  ({| _requestId := _requestId this; _pending := _pending this; _worker := Some w |}, b).

Definition release (s : state) : state :=
  let '(this, b) := _abortPending s in
  match _worker this with
  | Some w =>
      ({| _requestId := _requestId this; _pending := _pending this; _worker := None |},
       terminate w b)
  | None => (this, b)
  end.

(** [requestResponse(message)]: the caller's message without its [id];
    returns the new promise. *)
Definition requestResponse (action : option string) (settings : option SettingsObject)
    (data : string) (s : state) : promise * state :=
  let '(this, b) := s in
  let '(p, b) := new_promise b in
  let id := (_requestId this + 1)%N in
  let this := {| _requestId := id; _pending := <[id := p]> (_pending this);
                 _worker := _worker this |} in
  let '(this, b) := match _worker this with
                    | None => _startWorker (this, b)
                    | Some _ => (this, b)
                    end in
  let m := {| req_id := id; req_action := action; req_settings := settings;
              req_data := data |} in
  match _worker this with
  | Some w => (p, (this, postMessage w m b))
  | None => (p, (this, b))
  end.

Definition abort (s : state) : state :=
  if decide (keys (_pending (fst s)) = []) then s
  else
    let '(this, b) := _abortPending s in
    let b := match _worker this with Some w => terminate w b | None => b end in
    _startWorker (this, b).

(** [event.data.error && new Error(event.data.error)]: a missing or empty
    error string is falsy and stays so. *)
Definition error_of (data : MessageData) : option JsError :=
  match msg_error data with
  | Some e => if decide (e = EmptyString) then None else Some (Error e)
  | None => None
  end.

Definition _onMessage (data : MessageData) (s : state) : state :=
  match msg_id data with
  | None | Some 0%N => (fst s, console_log (snd s))
  | Some id => _fulfillPending id (msg_result data) (error_of data) s
  end.
End Methods.
End WorkerMessenger.


(** ** class Gzip extends WorkerMessenger

    [compress(data)] is [requestResponse({ data })]. *)
Module Gzip.
Definition compress {K : Type} (data : string)
    (s : WorkerMessenger.t * Browser K) : promise * (WorkerMessenger.t * Browser K) :=
  WorkerMessenger.requestResponse None None data s.
End Gzip.

(** ** class SvgFile and the store of its instances *)
Module SvgFile.
Record t := {
  text : string;                      (* the bytes of the text in UTF-8 *)
  _compressedSize : option promise;   (* [null] or the memoized promise *)
  _url : option url;                  (* [null] or the blob URL *)
  width : N;
  height : N;
}.

Definition constructor (text : string) (width height : N) : t :=
  {| text := text; _compressedSize := None; _url := None;
     width := width; height := height |}.
End SvgFile.

Record Heap := {
  files : list SvgFile.t;   (* the [SvgFile] objects, indexed by [ref] *)
  blobs : nat;              (* number of [URL.createObjectURL] calls so far *)
  revoked : list url;       (* arguments of the [URL.revokeObjectURL] calls, oldest first *)
  released : list ref;      (* receivers of the [release()] calls, oldest first *)
}.

(** [new SvgFile(text, width, height)]. *)
Definition new_SvgFile (text : string) (width height : N) (h : Heap) : ref * Heap :=
  (length (files h),
   {| files := files h ++ [SvgFile.constructor text width height]; blobs := blobs h;
      revoked := revoked h; released := released h |}).

(** The getter [get url()]: the blob URL is created on first access. *)
Definition get_url (f : ref) (h : Heap) : option url * Heap :=
  match files h !! f with
  | None => (None, h)
  | Some file =>
      match SvgFile._url file with
      | Some u => (Some u, h)
      | None =>
          let u := blobs h in
          (Some u,
           {| files := <[f := {| SvgFile.text := SvgFile.text file;
                                 SvgFile._compressedSize := SvgFile._compressedSize file;
                                 SvgFile._url := Some u;
                                 SvgFile.width := SvgFile.width file;
                                 SvgFile.height := SvgFile.height file |}]> (files h);
              blobs := S (blobs h); revoked := revoked h; released := released h |})
      end
  end.

(** [release()]: revokes the URL if there is one; [_url] is left as it is.
    The call itself is recorded in [released]. *)
Definition release (f : ref) (h : Heap) : Heap :=
  let revoked' :=
    match files h !! f with
    | Some file =>
        match SvgFile._url file with
        | None => revoked h
        | Some u => revoked h ++ [u]
        end
    | None => revoked h
    end in
  {| files := files h; blobs := blobs h; revoked := revoked';
     released := released h ++ [f] |}.

(** ** class ResultsCache

    The two arrays are JavaScript arrays: reading outside the array (or a
    hole) yields [undefined], writing past the end extends the array with
    holes. *)
Definition array_get {A} (l : list (option A)) (i : nat) : option A :=
  mjoin (l !! i).

Definition array_set {A} (i : nat) (x : A) (l : list (option A)) : list (option A) :=
  if decide (i < length l) then <[i := Some x]> l
  else l ++ replicate (i - length l) None ++ [Some x].

(** [l.indexOf(x)]; [None] stands for [-1]. *)
Fixpoint indexOf (x : string) (l : list (option string)) : option nat :=
  match l with
  | [] => None
  | y :: l' => if decide (y = Some x) then Some 0 else S <$> indexOf x l'
  end.

Module ResultsCache.
Record t := {
  _size : nat;
  _fingerprints : list (option string);
  _items : list (option ref);
  _index : nat;
}.

Definition purge (this : t) : t :=
  {| _size := _size this; _fingerprints := []; _items := []; _index := 0 |}.

Definition constructor (size : nat) : t :=
  purge {| _size := size; _fingerprints := []; _items := []; _index := 0 |}.

(** [add(fingerprint, svgFile)].  [% this._size] is [Nat.modulo]; the two
    agree for a positive size (for size 0 JavaScript yields [NaN]). *)
Definition add (fingerprint : string) (svgFile : ref) (s : t * Heap) : t * Heap :=
  let '(this, h) := s in
  let h := match array_get (_items this) (_index this) with
           | Some oldItem => release oldItem h     (* gc blob url *)
           | None => h
           end in
  ({| _size := _size this;
      _fingerprints := array_set (_index this) fingerprint (_fingerprints this);
      _items := array_set (_index this) svgFile (_items this);
      _index := (_index this + 1) mod _size this |}, h).

(** [match(fingerprint)]; [None] is [undefined]. *)
Definition match_ (fingerprint : string) (this : t) : option ref :=
  match indexOf fingerprint (_fingerprints this) with
  | Some i => array_get (_items this) i
  | None => None
  end.

(** Successive calls of [add], first pair first. *)
Definition add_all (l : list (string * ref)) (s : t * Heap) : t * Heap :=
  foldl (λ s x, add (fst x) (snd x) s) s l.
End ResultsCache.

(** ** class Settings: [getSettings] *)
Module InputEl.
(** The properties of an [<input>] element that [getSettings] reads. *)
Record t := { name : string; type : string; checked : bool; value : string }.
End InputEl.

Module Settings.
Record t := {
  _globalInputs : list InputEl.t;
  _pluginInputs : list InputEl.t;
}.

(** [Number(inputEl.checked)], as [join] prints it. *)
Definition Number (b : bool) : string := if b then "1" else "0".

Definition is_checkbox (el : InputEl.t) : bool := String.eqb (InputEl.type el) "checkbox".

(** [name !== 'gzip' && name !== 'original']. *)
Definition in_fingerprint (el : InputEl.t) : bool :=
  negb (String.eqb (InputEl.name el) "gzip") && negb (String.eqb (InputEl.name el) "original").

(** The accumulators of [getSettings]: the [fingerprint] array and the
    [output] object under construction. *)
Record acc := {
  acc_fingerprint : list string;
  acc_options : gmap string OptionValue;
  acc_plugins : gmap string bool;
}.

(** Body of the loop over [this._globalInputs]. *)
Definition global_step (a : acc) (inputEl : InputEl.t) : acc :=
  {| acc_fingerprint :=
       if in_fingerprint inputEl then
         acc_fingerprint a ++
           [if is_checkbox inputEl then Number (InputEl.checked inputEl)
            else ("|" ++ InputEl.value inputEl ++ "|")%string]
       else acc_fingerprint a;
     acc_options :=
       <[InputEl.name inputEl :=
           if is_checkbox inputEl then OBool (InputEl.checked inputEl)
           else OString (InputEl.value inputEl)]> (acc_options a);
     acc_plugins := acc_plugins a |}.

(** Body of the loop over [this._pluginInputs]. *)
Definition plugin_step (a : acc) (inputEl : InputEl.t) : acc :=
  {| acc_fingerprint := acc_fingerprint a ++ [Number (InputEl.checked inputEl)];
     acc_options := acc_options a;
     acc_plugins := <[InputEl.name inputEl := InputEl.checked inputEl]> (acc_plugins a) |}.

Definition getSettings (this : t) : SettingsObject :=
  let a := {| acc_fingerprint := []; acc_options := ∅; acc_plugins := ∅ |} in
  let a := foldl global_step a (_globalInputs this) in
  let a := foldl plugin_step a (_pluginInputs this) in
  {| options := acc_options a; plugins := acc_plugins a;
     fingerprint := String.concat "," (acc_fingerprint a) |}.

(** Two states of the same form: the same inputs (names and types) in the
    same order, whatever their [checked] and [value]. *)
Definition same_inputs (l1 l2 : list InputEl.t) : Prop :=
  Forall2 (λ a b, InputEl.name a = InputEl.name b ∧ InputEl.type a = InputEl.type b) l1 l2.

Definition same_form (s1 s2 : t) : Prop :=
  same_inputs (_globalInputs s1) (_globalInputs s2) ∧
  same_inputs (_pluginInputs s1) (_pluginInputs s2).

(** A string without a comma. *)
Fixpoint comma_free (s : string) : bool :=
  match s with
  | EmptyString => true
  | String c s' => negb (Ascii.eqb c ","%char) && comma_free s'
  end.

(** The values that enter the fingerprint contain no comma (the numeric
    values of range inputs never do). *)
Definition comma_free_values (this : t) : Prop :=
  Forall (λ el, in_fingerprint el = true → is_checkbox el = false →
                comma_free (InputEl.value el) = true) (_globalInputs this).

(** The two states differ at most in the inputs named [gzip] and [original]. *)
Definition presentation_only (s1 s2 : t) : Prop :=
  Forall2 (λ a b, InputEl.name a = InputEl.name b ∧ (in_fingerprint a = false ∨ a = b))
          (_globalInputs s1) (_globalInputs s2) ∧
  _pluginInputs s1 = _pluginInputs s2.
End Settings.

(** ** The page: the singletons [gzip] and [svgo] and the [MainController] *)

(** The two text clean-up passes of [unusual-code-clean.js] work on a DOM
    parse of the text; they are taken as functions of the text that return the
    serialized [<svg>] element or throw (no [<svg>] element in the parse). *)
Class Cleanup := {
  removeUnusedTextCode : string → string + JsError;
  removeUnusualAttributes : string → string + JsError;
}.

(** Promise reactions of the page: what runs when an awaited or chained
    promise settles.  [cycle] is the serial number of the [_compressSvg] call
    a continuation belongs to; no branch reads it. *)
Inductive Kont :=
(* Svgo.process *)
| KCatch (next : promise)                        (* [.catch(() => {})] *)
| KThenProcess (svgText : string) (settings : SettingsObject) (job : promise)
                                                 (* [.then(async () => {...})] *)
| KProcessed (job : promise)                     (* after [await this.requestResponse(...)] *)
(* SvgFile.size *)
| KByteLength (memo : promise)                   (* [.then((response) => response.byteLength)] *)
| KReturn (result : promise)                     (* [return this._compressedSize] *)
(* MainController._compressSvg *)
| KCompressResume (cycle : nat) (thisJobId : N) (settings : SettingsObject)
                                                 (* after [await svgo.abort()] *)
| KCompressPass1 (cycle : nat) (thisJobId : N) (settings : SettingsObject)
                                                 (* after the first [await svgo.process(...)] *)
| KCompressPass2 (cycle : nat) (thisJobId : N) (settings : SettingsObject)
                                                 (* after the second [await svgo.process(...)] *)
(* MainController._updateForFile *)
| KUpdateSize (svgFile : option ref) (compress : bool)
                                                 (* after [await compareToFile.size({ compress })] *)
| KUpdateResults.                                (* after [await svgFile.size({ compress })] *)

(** A call [_updateForFile(svgFile, { compareToFile, compress })], with the
    cycle that made it and the number of cycles started by then. *)
Record Update := {
  upd_cycle : nat;
  upd_latest : nat;
  upd_svgFile : option ref;
  upd_compareToFile : option ref;
  upd_compress : bool;
}.

(** A call [this._cache.add(fingerprint, resultFile)], likewise. *)
Record CacheAdd := {
  add_cycle : nat;
  add_latest : nat;
  add_fingerprint : string;
  add_file : ref;
}.

Record Page := {
  browser : Browser Kont;
  heap : Heap;
  gzip : WorkerMessenger.t;                (* [const gzip = new Gzip()] *)
  svgo : WorkerMessenger.t;                (* [const svgo = new Svgo()], the messenger part *)
  _currentJob : promise;                   (* [svgo._currentJob] *)
  _inputItem : option ref;                 (* MainController *)
  _cache : ResultsCache.t;                 (* MainController *)
  _latestCompressJobId : N;                (* MainController; the random number by its rank *)
  updates : list Update;                   (* calls of [_updateForFile], oldest first *)
  cached : list CacheAdd;                  (* calls of [_cache.add], oldest first *)
  toasts : list string;                    (* messages passed to [_handleError], oldest first *)
  cycles : nat;                            (* number of [_compressSvg] calls so far *)
  gzipped : list ref;                      (* files whose text [size] passed to [gzip.compress],
                                              oldest first *)
}.

Definition with_browser (f : Browser Kont → Browser Kont) (pg : Page) : Page :=
  {| browser := f (browser pg); heap := heap pg; gzip := gzip pg; svgo := svgo pg;
     _currentJob := _currentJob pg; _inputItem := _inputItem pg; _cache := _cache pg;
     _latestCompressJobId := _latestCompressJobId pg; updates := updates pg;
     cached := cached pg; toasts := toasts pg; cycles := cycles pg; gzipped := gzipped pg |}.

Definition with_heap (f : Heap → Heap) (pg : Page) : Page :=
  {| browser := browser pg; heap := f (heap pg); gzip := gzip pg; svgo := svgo pg;
     _currentJob := _currentJob pg; _inputItem := _inputItem pg; _cache := _cache pg;
     _latestCompressJobId := _latestCompressJobId pg; updates := updates pg;
     cached := cached pg; toasts := toasts pg; cycles := cycles pg; gzipped := gzipped pg |}.

Definition with_gzip (s : WorkerMessenger.t * Browser Kont) (pg : Page) : Page :=
  {| browser := snd s; heap := heap pg; gzip := fst s; svgo := svgo pg;
     _currentJob := _currentJob pg; _inputItem := _inputItem pg; _cache := _cache pg;
     _latestCompressJobId := _latestCompressJobId pg; updates := updates pg;
     cached := cached pg; toasts := toasts pg; cycles := cycles pg; gzipped := gzipped pg |}.

Definition with_svgo (s : WorkerMessenger.t * Browser Kont) (pg : Page) : Page :=
  {| browser := snd s; heap := heap pg; gzip := gzip pg; svgo := fst s;
     _currentJob := _currentJob pg; _inputItem := _inputItem pg; _cache := _cache pg;
     _latestCompressJobId := _latestCompressJobId pg; updates := updates pg;
     cached := cached pg; toasts := toasts pg; cycles := cycles pg; gzipped := gzipped pg |}.

Definition with_currentJob (j : promise) (pg : Page) : Page :=
  {| browser := browser pg; heap := heap pg; gzip := gzip pg; svgo := svgo pg;
     _currentJob := j; _inputItem := _inputItem pg; _cache := _cache pg;
     _latestCompressJobId := _latestCompressJobId pg; updates := updates pg;
     cached := cached pg; toasts := toasts pg; cycles := cycles pg; gzipped := gzipped pg |}.

Definition log_gzip (f : ref) (pg : Page) : Page :=
  {| browser := browser pg; heap := heap pg; gzip := gzip pg; svgo := svgo pg;
     _currentJob := _currentJob pg; _inputItem := _inputItem pg; _cache := _cache pg;
     _latestCompressJobId := _latestCompressJobId pg; updates := updates pg;
     cached := cached pg; toasts := toasts pg; cycles := cycles pg;
     gzipped := gzipped pg ++ [f] |}.

(** ** SvgFile.size

    [size] is an async function: [result] is the promise it returns.  The
    step in which a promise returned from an async function is adopted by the
    function's own promise is folded into one reaction ([KReturn]). *)
Definition set_compressedSize (f : ref) (file : SvgFile.t) (m : promise) (h : Heap) : Heap :=
  {| files := <[f := {| SvgFile.text := SvgFile.text file;
                        SvgFile._compressedSize := Some m;
                        SvgFile._url := SvgFile._url file;
                        SvgFile.width := SvgFile.width file;
                        SvgFile.height := SvgFile.height file |}]> (files h);
     blobs := blobs h; revoked := revoked h; released := released h |}.

(** [this.text.length]: the length of a JavaScript string is the number of
    its UTF-16 code units.  The text is held as the bytes of its UTF-8
    encoding: the byte that starts a character stands for one code unit, or
    for two (a surrogate pair) when it starts a sequence of four bytes, and a
    continuation byte stands for none. *)
Definition code_units (c : ascii) : N :=
  let b := N_of_ascii c in
  if (b <? 128)%N then 1%N         (* 0xxxxxxx: a character of one byte *)
  else if (b <? 192)%N then 0%N    (* 10xxxxxx: a continuation byte *)
  else if (b <? 240)%N then 1%N    (* 110xxxxx, 1110xxxx: two or three bytes *)
  else 2%N.                        (* 11110xxx: four bytes, outside the basic plane *)

Fixpoint utf16_length (s : string) : N :=
  match s with
  | EmptyString => 0%N
  | String c s => (code_units c + utf16_length s)%N
  end.

Definition text_length (file : SvgFile.t) : N := utf16_length (SvgFile.text file).

Definition size (f : ref) (compress : bool) (pg : Page) : promise * Page :=
  let '(result, b) := new_promise (browser pg) in
  let pg := with_browser (λ _, b) pg in
  match files (heap pg) !! f with
  | None => (result, pg)
  | Some file =>
      if negb compress then
        (result, with_browser (settle result (Fulfilled (VNumber (text_length file)))) pg)
      else
        let '(m, pg) :=
          match SvgFile._compressedSize file with
          | Some m => (m, pg)
          | None =>
              let '(q, s) := Gzip.compress (SvgFile.text file) (gzip pg, browser pg) in
              let pg := with_gzip s pg in
              let '(m, b) := new_promise (browser pg) in
              let b := subscribe q (KByteLength m) b in
              (m, log_gzip f (with_heap (set_compressedSize f file m)
                                    (with_browser (λ _, b) pg)))
          end in
        (result, with_browser (subscribe m (KReturn result)) pg)
  end.

(** [(response) => response.byteLength]. *)
Definition byteLength (response : Value) : Outcome :=
  match response with
  | VBytes n => Fulfilled (VNumber n)
  | VUndefined | VNull => Rejected (TypeError "Cannot read properties of undefined")
  | _ => Fulfilled VUndefined
  end.

(** ** class Svgo extends WorkerMessenger *)
Module Svgo.
Definition abort (pg : Page) : Page :=
  with_svgo (WorkerMessenger.abort (svgo pg, browser pg)) pg.

(** [process(svgText, settings)]: returns the new [_currentJob]. *)
Definition process (svgText : string) (settings : SettingsObject) (pg : Page)
    : promise * Page :=
  let pg := abort pg in
  let '(c, b) := new_promise (browser pg) in
  let b := subscribe (_currentJob pg) (KCatch c) b in
  let '(j, b) := new_promise b in
  let b := subscribe c (KThenProcess svgText settings j) b in
  (j, with_currentJob j (with_browser (λ _, b) pg)).

(** The async function chained by [process], up to its [await]. *)
Definition process_request (svgText : string) (settings : SettingsObject) (job : promise)
    (pg : Page) : Page :=
  let '(q, s) := WorkerMessenger.requestResponse (Some "process"%string) (Some settings)
                   svgText (svgo pg, browser pg) in
  with_browser (subscribe q (KProcessed job)) (with_svgo s pg).

(** The rest of that function, [const { data, dimensions } = ...; return new
    SvgFile(data, dimensions.width, dimensions.height)]: how it settles, given
    how the request did. *)
Definition process_outcome (o : Outcome) (h : Heap) : Outcome * Heap :=
  match o with
  | Fulfilled (VProcessed data width height) =>
      let '(f, h) := new_SvgFile data width height h in (Fulfilled (VFile f), h)
  | Fulfilled _ => (Rejected (TypeError "Cannot destructure the response"), h)
  | Rejected e => (Rejected e, h)
  end.

Definition process_result (job : promise) (o : Outcome) (pg : Page) : Page :=
  let '(o', h) := process_outcome o (heap pg) in
  with_browser (settle job o') (with_heap (λ _, h) pg).
End Svgo.

(** ** class MainController: the compression cycle *)
Module MainController.
Section Cycle.
Context `{!Cleanup}.

(** [_handleError(error)]. *)
Definition _handleError (error : JsError) (pg : Page) : Page :=
  {| browser := browser pg; heap := heap pg; gzip := gzip pg; svgo := svgo pg;
     _currentJob := _currentJob pg; _inputItem := _inputItem pg; _cache := _cache pg;
     _latestCompressJobId := _latestCompressJobId pg; updates := updates pg;
     cached := cached pg; toasts := toasts pg ++ [JsError.message error];
     cycles := cycles pg; gzipped := gzipped pg |}.

(** [size: await svgFile.size({ compress })], the second property of the
    object passed to [_resultsUi.update]; on a missing [svgFile] the call
    throws and the function ends. *)
Definition update_size (svgFile : option ref) (compress : bool) (pg : Page) : Page :=
  match svgFile with
  | Some f =>
      let '(p, pg) := size f compress pg in
      with_browser (subscribe p KUpdateResults) pg
  | None => pg
  end.

(** [_updateForFile(svgFile, { compareToFile, compress })] up to its first
    [await]: the output, download and copy widgets are handed the file
    ([setDownload] reads [svgFile.url]), then the sizes for the results widget
    are asked for, [compareToFile]'s first when there is one. *)
Definition _updateForFile (cycle : nat) (svgFile compareToFile : option ref)
    (compress : bool) (pg : Page) : Page :=
  let h := match svgFile with
           | Some f => snd (get_url f (heap pg))
           | None => heap pg
           end in
  let pg :=
    {| browser := browser pg; heap := h; gzip := gzip pg; svgo := svgo pg;
       _currentJob := _currentJob pg; _inputItem := _inputItem pg; _cache := _cache pg;
       _latestCompressJobId := _latestCompressJobId pg;
       updates := updates pg ++ [{| upd_cycle := cycle; upd_latest := cycles pg;
                                    upd_svgFile := svgFile;
                                    upd_compareToFile := compareToFile;
                                    upd_compress := compress |}];
       cached := cached pg; toasts := toasts pg; cycles := cycles pg;
       gzipped := gzipped pg |} in
  match compareToFile with
  | Some g =>
      let '(p, pg) := size g compress pg in
      with_browser (subscribe p (KUpdateSize svgFile compress)) pg
  | None => update_size svgFile compress pg
  end.

(** [this._cache.add(settings.fingerprint, resultFile)]. *)
Definition cache_add (cycle : nat) (fingerprint : string) (resultFile : ref) (pg : Page) : Page :=
  let '(c, h) := ResultsCache.add fingerprint resultFile (_cache pg, heap pg) in
  {| browser := browser pg; heap := h; gzip := gzip pg; svgo := svgo pg;
     _currentJob := _currentJob pg; _inputItem := _inputItem pg; _cache := c;
     _latestCompressJobId := _latestCompressJobId pg; updates := updates pg;
     cached := cached pg ++ [{| add_cycle := cycle; add_latest := cycles pg;
                                add_fingerprint := fingerprint; add_file := resultFile |}];
     toasts := toasts pg; cycles := cycles pg; gzipped := gzipped pg |}.

Definition remUnusedTextCode (settings : SettingsObject) : bool :=
  truthy (options settings !! "remUnusedTextCode"%string).
Definition remUnusualAttributes (settings : SettingsObject) : bool :=
  truthy (options settings !! "remUnusualAttributes"%string).
Definition original (settings : SettingsObject) : bool :=
  truthy (options settings !! "original"%string).
Definition compress_option (settings : SettingsObject) : bool :=
  truthy (options settings !! "gzip"%string).

(** The text handed to a pass: both clean-ups are applied to [text] when
    their setting is on. *)
Definition cleanup (settings : SettingsObject) (text : string) : string + JsError :=
  match (if remUnusedTextCode settings then removeUnusedTextCode text else inl text) with
  | inr e => inr e
  | inl svgText =>
      if remUnusualAttributes settings then removeUnusualAttributes svgText else inl svgText
  end.

(** [file.text], which throws on a missing file. *)
Definition text_of (file : option ref) (pg : Page) : string + JsError :=
  match file with
  | None => inr (TypeError "Cannot read properties of null (reading 'text')")
  | Some f =>
      match files (heap pg) !! f with
      | Some file => inl (SvgFile.text file)
      | None => inr (TypeError "Cannot read properties of undefined (reading 'text')")
      end
  end.

(** The [catch] clause of [_compressSvg]. *)
Definition compress_catch (error : JsError) (pg : Page) : Page :=
  if decide (JsError.name error = "AbortError"%string) then pg
  else _handleError {| JsError.name := JsError.name error;
                       JsError.message := ("Minifying error: " ++ JsError.message error)%string |}
                    pg.

(** [_compressSvg(settings)] up to [await svgo.abort()]; [random] is what
    [Math.random()] returns. *)
Definition _compressSvg (settings : SettingsObject) (random : N) (pg : Page) : Page :=
  let thisJobId := random in
  let cycle := S (cycles pg) in
  let pg := {| browser := browser pg; heap := heap pg; gzip := gzip pg; svgo := svgo pg;
               _currentJob := _currentJob pg; _inputItem := _inputItem pg;
               _cache := _cache pg; _latestCompressJobId := thisJobId;
               updates := updates pg; cached := cached pg; toasts := toasts pg;
               cycles := cycle; gzipped := gzipped pg |} in
  let pg := Svgo.abort pg in
  with_browser (enqueue [(KCompressResume cycle thisJobId settings, Fulfilled VUndefined)]) pg.

(** A pass: [await svgo.process(svgText, settings)] with the continuation
    that follows it; an exception thrown while the text is prepared goes to
    the [catch] clause. *)
Definition start_pass (svgText : string + JsError) (settings : SettingsObject)
    (next : Kont) (pg : Page) : Page :=
  match svgText with
  | inr e => compress_catch e pg
  | inl svgText =>
      let '(job, pg) := Svgo.process svgText settings pg in
      with_browser (subscribe job next) pg
  end.

(** From the token check to the first [await svgo.process(...)]. *)
Definition compress_resume (cycle : nat) (thisJobId : N) (settings : SettingsObject)
    (pg : Page) : Page :=
  if decide (thisJobId ≠ _latestCompressJobId pg) then
    (* while we've been waiting, there's been a newer call to _compressSvg *)
    pg
  else if original settings then
    _updateForFile cycle (_inputItem pg) None (compress_option settings) pg
  else
    match ResultsCache.match_ (fingerprint settings) (_cache pg) with
    | Some cacheMatch =>
        _updateForFile cycle (Some cacheMatch) (_inputItem pg) (compress_option settings) pg
    | None =>
        let svgText :=
          match text_of (_inputItem pg) pg with
          | inl text => cleanup settings text
          | inr e => inr e
          end in
        start_pass svgText settings (KCompressPass1 cycle thisJobId settings) pg
    end.

(** The end of the [try] block: the result is shown and cached. *)
Definition compress_finish (cycle : nat) (settings : SettingsObject) (resultFile : ref)
    (pg : Page) : Page :=
  let pg := _updateForFile cycle (Some resultFile) (_inputItem pg)
              (compress_option settings) pg in
  cache_add cycle (fingerprint settings) resultFile pg.

(** After the first pass. *)
Definition compress_pass1 (cycle : nat) (thisJobId : N) (settings : SettingsObject)
    (o : Outcome) (pg : Page) : Page :=
  match o with
  | Rejected e => compress_catch e pg
  | Fulfilled (VFile resultFile0) =>
      if remUnusedTextCode settings || remUnusualAttributes settings then
        let svgText :=
          match text_of (Some resultFile0) pg with
          | inl text => cleanup settings text
          | inr e => inr e
          end in
        start_pass svgText settings (KCompressPass2 cycle thisJobId settings) pg
      else compress_finish cycle settings resultFile0 pg
  | Fulfilled _ => compress_catch (TypeError "Cannot read properties of undefined") pg
  end.

(** After the second pass. *)
Definition compress_pass2 (cycle : nat) (thisJobId : N) (settings : SettingsObject)
    (o : Outcome) (pg : Page) : Page :=
  match o with
  | Rejected e => compress_catch e pg
  | Fulfilled (VFile resultFile) => compress_finish cycle settings resultFile pg
  | Fulfilled _ => compress_catch (TypeError "Cannot read properties of undefined") pg
  end.
End Cycle.
End MainController.

(** ** The event loop *)
Section EventLoop.
Context `{!Cleanup}.

(** One microtask: the reaction [k] runs on the outcome [o] of the promise it
    was registered on. *)
Definition run_reaction (k : Kont) (o : Outcome) (pg : Page) : Page :=
  match k with
  | KCatch next =>
      with_browser (settle next (match o with
                                 | Fulfilled v => Fulfilled v
                                 | Rejected _ => Fulfilled VUndefined
                                 end)) pg
  | KThenProcess svgText settings job =>
      match o with
      | Fulfilled _ => Svgo.process_request svgText settings job pg
      | Rejected e => with_browser (settle job (Rejected e)) pg
      end
  | KProcessed job => Svgo.process_result job o pg
  | KByteLength memo =>
      with_browser (settle memo (match o with
                                 | Fulfilled response => byteLength response
                                 | Rejected e => Rejected e
                                 end)) pg
  | KReturn result => with_browser (settle result o) pg
  | KCompressResume cycle thisJobId settings =>
      MainController.compress_resume cycle thisJobId settings pg
  | KCompressPass1 cycle thisJobId settings =>
      MainController.compress_pass1 cycle thisJobId settings o pg
  | KCompressPass2 cycle thisJobId settings =>
      MainController.compress_pass2 cycle thisJobId settings o pg
  | KUpdateSize svgFile compress =>
      match o with
      | Fulfilled _ => MainController.update_size svgFile compress pg
      | Rejected _ => pg
      end
  | KUpdateResults => pg
  end.

Definition pop_microtask (b : Browser Kont) : Browser Kont :=
  set_microtasks (tail (microtasks b)) b.

(** The microtask checkpoint: reactions run in FIFO order until the queue is
    empty; [fuel] bounds their number. *)
Fixpoint drain (fuel : nat) (pg : Page) : Page :=
  match fuel with
  | 0 => pg
  | S fuel =>
      match microtasks (browser pg) with
      | [] => pg
      | (k, o) :: _ => drain fuel (run_reaction k o (with_browser pop_microtask pg))
      end
  end.

Definition quiescent (pg : Page) : Prop := microtasks (browser pg) = [].

(** A bound on the number of reactions a reaction leads to within a
    checkpoint, itself included: it runs, and so may each reaction it
    registers. *)
Definition weight (k : Kont) : nat :=
  match k with
  | KCatch _ | KProcessed _ | KByteLength _ | KReturn _ | KUpdateResults => 1
  | KThenProcess _ _ _ => 2
  | KUpdateSize _ _ => 4
  | KCompressPass2 _ _ _ => 7
  | KCompressPass1 _ _ _ => 11
  | KCompressResume _ _ _ => 15
  end.

Definition waiting (st : PromiseState Kont) : nat :=
  match st with
  | Pending ks => sum_list_with weight ks
  | Settled _ => 0
  end.

(** The weight of the reactions in the queue and on the pending promises:
    no checkpoint runs more reactions than that. *)
Definition load (b : Browser Kont) : nat :=
  sum_list_with (λ j, weight j.1) (microtasks b) + sum_list_with waiting (promises b).

(** A task of the page followed by its microtask checkpoint, which runs
    until the queue is empty: the load of the page is fuel enough. *)
Inductive Event :=
| CompressSvg (settings : SettingsObject) (random : N)   (* a call of [_compressSvg] *)
| SvgoMessage (data : MessageData)                       (* [onmessage] of svgo's worker *)
| GzipMessage (data : MessageData)                       (* [onmessage] of gzip's worker *)
| Size (f : ref) (compress : bool).                      (* a call of [f.size({ compress })] *)

Definition handle (ev : Event) (pg : Page) : Page :=
  match ev with
  | CompressSvg settings random => MainController._compressSvg settings random pg
  | SvgoMessage data => with_svgo (WorkerMessenger._onMessage data (svgo pg, browser pg)) pg
  | GzipMessage data => with_gzip (WorkerMessenger._onMessage data (gzip pg, browser pg)) pg
  | Size f compress => snd (size f compress pg)
  end.

Definition task (ev : Event) (pg : Page) : Page :=
  let pg := handle ev pg in
  drain (load (browser pg)) pg.

Definition run (evs : list Event) (pg : Page) : Page := foldl (λ pg ev, task ev pg) pg evs.

(** *** States of the job chain between two tasks *)

(** No request of [svgo] is in flight and the last job has settled. *)
Definition idle (pg : Page) : Prop :=
  quiescent pg ∧
  WorkerMessenger._pending (svgo pg) = ∅ ∧
  ∃ o, promises (browser pg) !! _currentJob pg = Some (Settled o).

(** Request [id] of [svgo] is in flight for the current job, on which the
    continuation [next] of a cycle waits. *)
Definition busy (next : Kont) (id : N) (pg : Page) : Prop :=
  quiescent pg ∧
  ∃ q, WorkerMessenger._pending (svgo pg) = {[ id := q ]} ∧
       promises (browser pg) !! q = Some (Pending [KProcessed (_currentJob pg)]) ∧
       promises (browser pg) !! _currentJob pg = Some (Pending [next]).

(** Every call so far was made by the cycle that was the latest one. *)
Definition latest_only (pg : Page) : Prop :=
  Forall (λ u, upd_cycle u = upd_latest u) (updates pg) ∧
  Forall (λ a, add_cycle a = add_latest a) (cached pg).

(** Between two tasks the chain is idle, or busy for the latest cycle. *)
Definition settled_page (pg : Page) : Prop :=
  latest_only pg ∧
  (idle pg ∨
   ∃ id thisJobId settings,
     busy (KCompressPass1 (cycles pg) thisJobId settings) id pg ∨
     busy (KCompressPass2 (cycles pg) thisJobId settings) id pg).

(** The continuations with which a cycle waits for a pass. *)
Definition is_pass (k : Kont) : Prop :=
  ∃ cycle thisJobId settings,
    k = KCompressPass1 cycle thisJobId settings ∨ k = KCompressPass2 cycle thisJobId settings.

(** Between two tasks the chain is idle, or busy with the pass of a cycle. *)
Definition between_tasks (pg : Page) : Prop :=
  idle pg ∨ ∃ k id, is_pass k ∧ busy k id pg.

(** A queued reaction that changes nothing when it runs. *)
Definition noop (job : Kont * Outcome) : Prop :=
  ∀ pg, run_reaction (fst job) (snd job) pg = pg.

(** Nothing of [svgo] is in flight, the last job has settled, and only
    reactions that change nothing are queued. *)
Definition ready (pg : Page) : Prop :=
  WorkerMessenger._pending (svgo pg) = ∅ ∧
  (∃ o, promises (browser pg) !! _currentJob pg = Some (Settled o)) ∧
  Forall noop (microtasks (browser pg)).

(** The page with an emptied microtask queue. *)
Definition flushed (pg : Page) : Page := with_browser (set_microtasks []) pg.

(** The request that [Svgo.process] posts. *)
Definition process_message (id : N) (settings : SettingsObject) (svgText : string) : Request :=
  {| req_id := id; req_action := Some "process"%string; req_settings := Some settings;
     req_data := svgText |}.

(** The requests posted by [Svgo.process]. *)
Definition process_requests (pg : Page) : list (worker * Request) :=
  filter (λ x, req_action x.2 = Some "process"%string) (posted (browser pg)).

(** What the size report of [_updateForFile] leaves alone: the job chain,
    the controller and the logs; settled promises stay as they are. *)
Definition steady (pg pg' : Page) : Prop :=
  svgo pg' = svgo pg ∧ _currentJob pg' = _currentJob pg ∧
  _inputItem pg' = _inputItem pg ∧ _cache pg' = _cache pg ∧
  _latestCompressJobId pg' = _latestCompressJobId pg ∧
  updates pg' = updates pg ∧ cached pg' = cached pg ∧ toasts pg' = toasts pg ∧
  cycles pg' = cycles pg ∧ process_requests pg' = process_requests pg ∧
  ∀ p o, promises (browser pg) !! p = Some (Settled o) →
         promises (browser pg') !! p = Some (Settled o).

(** The reactions of the size report. *)
Definition is_report (k : Kont) : Prop :=
  k = KUpdateResults ∨ ∃ svgFile compress, k = KUpdateSize svgFile compress.

(** What the size report has queued: nothing, its next reaction, or the
    return of a [size] call on which its next reaction waits. *)
Definition report_tail (pg : Page) (E : list (Kont * Outcome)) : Prop :=
  E = [] ∨
  (∃ k o, is_report k ∧ E = [(k, o)]) ∨
  (∃ r k o, is_report k ∧ E = [(KReturn r, o)] ∧
            promises (browser pg) !! r = Some (Pending [k])).

(** Nothing of [svgo] is in flight, the last job has settled, and the queue
    holds reactions that change nothing followed by what a size report has
    queued. *)
Definition resting (pg : Page) : Prop :=
  WorkerMessenger._pending (svgo pg) = ∅ ∧
  (∃ o, promises (browser pg) !! _currentJob pg = Some (Settled o)) ∧
  ∃ Q E, microtasks (browser pg) = Q ++ E ∧ Forall noop Q ∧ report_tail pg E.

(** What a step made on behalf of cycle [c] adds to the two logs. *)
Definition cycle_step (c : nat) (pg pg' : Page) : Prop :=
  cycles pg' = cycles pg ∧
  (∃ us, updates pg' = updates pg ++ us ∧
         Forall (λ u, upd_cycle u = c ∧ upd_latest u = cycles pg) us) ∧
  (∃ cs, cached pg' = cached pg ++ cs ∧
         Forall (λ a, add_cycle a = c ∧ add_latest a = cycles pg) cs).

(** A step that ends cycle [c]: the page is resting, at most one reaction
    was queued, and nothing was posted to [svgo]. *)
Definition ends (c : nat) (pg pg' : Page) : Prop :=
  resting pg' ∧
  length (microtasks (browser pg')) ≤ S (length (microtasks (browser pg))) ∧
  process_requests pg' = process_requests pg ∧
  cycle_step c pg pg'.

(** Request [id] is in flight on worker [w] for the continuation [next]. *)
Definition in_flight (next : Kont) (id : N) (w : worker) (pg : Page) : Prop :=
  busy next id pg ∧
  WorkerMessenger._requestId (svgo pg) = id ∧
  WorkerMessenger._worker (svgo pg) = Some w.

(** The tasks of the compression cycle. *)
Definition cycle_event (ev : Event) : Prop :=
  match ev with
  | CompressSvg _ _ | SvgoMessage _ => True
  | _ => False
  end.
End EventLoop.

(** *** The lifetime of an artifact's compressed size *)

(** [f._compressedSize], when [f] is a live object and the field is set. *)
Definition memo (f : ref) (h : Heap) : option promise :=
  files h !! f ≫= SvgFile._compressedSize.

(** Settled promises stay as they are. *)
Definition promises_grow {K} (b b' : Browser K) : Prop :=
  ∀ p o, promises b !! p = Some (Settled o) → promises b' !! p = Some (Settled o).

(** Memoized sizes stay as they are. *)
Definition memos_grow (h h' : Heap) : Prop :=
  ∀ f m, memo f h = Some m → memo f h' = Some m.

(** The number of times [f.size] has passed the text of [f] to
    [gzip.compress]. *)
Definition gzip_requests (f : ref) (pg : Page) : nat :=
  length (filter (λ g, g = f) (gzipped pg)).

(** A file gets at most one more request, none when its size is memoized,
    and its size is memoized once it got one. *)
Definition requests_grow (pg pg' : Page) : Prop :=
  ∀ f, gzip_requests f pg ≤ gzip_requests f pg' ∧
       gzip_requests f pg' ≤ S (gzip_requests f pg) ∧
       (is_Some (memo f (heap pg)) → gzip_requests f pg' = gzip_requests f pg) ∧
       (gzip_requests f pg' ≠ gzip_requests f pg → is_Some (memo f (heap pg'))).

Definition grows (pg pg' : Page) : Prop :=
  promises_grow (browser pg) (browser pg') ∧ memos_grow (heap pg) (heap pg') ∧
  requests_grow pg pg'.

(** The page once the script has run: [new Gzip()], [new Svgo()] (whose
    [_currentJob] is [Promise.resolve()]) and the initial state of the
    controller. *)
Definition initial_page : Page :=
  {| browser := {| promises := [Settled (Fulfilled VUndefined)]; microtasks := [];
                   spawned := 0; terminated := []; posted := []; console := 0 |};
     heap := {| files := []; blobs := 0; revoked := []; released := [] |};
     gzip := WorkerMessenger.constructor; svgo := WorkerMessenger.constructor;
     _currentJob := 0; _inputItem := None; _cache := ResultsCache.constructor 10;
     _latestCompressJobId := 0; updates := []; cached := []; toasts := [];
     cycles := 0; gzipped := [] |}.

(** That page with [svgText] as its input item. *)
Definition page_with_input (svgText : string) (width height : N) : Page :=
  {| browser := browser initial_page;
     heap := {| files := [SvgFile.constructor svgText width height]; blobs := 0;
                revoked := []; released := [] |};
     gzip := gzip initial_page; svgo := svgo initial_page;
     _currentJob := 0; _inputItem := Some 0; _cache := ResultsCache.constructor 10;
     _latestCompressJobId := 0; updates := []; cached := []; toasts := [];
     cycles := 0; gzipped := [] |}.

(** While the document is loading both clean-ups return their argument. *)
Definition loading_cleanup : Cleanup :=
  {| removeUnusedTextCode := inl; removeUnusualAttributes := inl |}.

(** Once the document is loaded a clean-up returns the [<svg>] element of
    the parse and throws when there is none.  For examples: a text that
    starts with [<svg] is returned as it is, any other makes the function
    throw. *)
Definition parsing_cleanup : Cleanup :=
  let clean := λ text : string,
    if String.prefix "<svg" text then inl text
    else inr (TypeError "Cannot read properties of undefined (reading 'outerHTML')") in
  {| removeUnusedTextCode := clean; removeUnusualAttributes := clean |}.

(** Settings objects for examples: the checkboxes [ticked] are on. *)
Definition example_settings (ticked : list string) (fp : string) : SettingsObject :=
  {| options := list_to_map ((λ n, (n, OBool true)) <$> ticked);
     plugins := ∅; fingerprint := fp |}.


(** ** Text helpers of the page: [escapeHTML] and the template tag
    [escapeHtmlTag] *)

(** [entityMap[s]]; [None] for a character that is no key of the map. *)
Definition entityMap (s : ascii) : option string :=
  if decide (s = "&"%char) then Some "&amp;"%string
  else if decide (s = "<"%char) then Some "&lt;"%string
  else if decide (s = ">"%char) then Some "&gt;"%string
  else if decide (s = "034"%char) then Some "&quot;"%string
  else if decide (s = "'"%char) then Some "&#39;"%string
  else if decide (s = "/"%char) then Some "&#x2F;"%string
  else None.

(** [String(str).replace(re, (s) => entityMap[s])], where the global regular
    expression [re] is the class of the six keys of [entityMap]: each of them
    is replaced by its entity, any other character is kept. *)
Fixpoint escapeHTML (str : string) : string :=
  match str with
  | EmptyString => EmptyString
  | String c str =>
      (match entityMap c with
       | Some entity => entity
       | None => String c EmptyString
       end ++ escapeHTML str)%string
  end.

(** [escapeHtmlTag(strings, ...values)]: the literal parts interleaved with
    the escaped values; a missing or empty value adds nothing. *)
Definition escapeHtmlTag (strings values : list string) : string :=
  let values := escapeHTML <$> values in
  foldl (λ str iv, (str ++ iv.2 ++ default EmptyString (values !! iv.1))%string) EmptyString
        (zip (seq 0 (length strings)) strings).

(** The characters that [escapeHTML] replaces. *)
Definition special (c : ascii) : bool :=
  bool_decide (c ∈ ["&"; "<"; ">"; "034"; "'"; "/"]%char).

(** How often the character [c] occurs in [s]. *)
Definition occurrences (c : ascii) (s : string) : nat :=
  length (filter (λ x, x = c) (list_ascii_of_string s)).

(** ** class Changelog *)
Module Changelog.
(** An entry of [changelog.json]. *)
Record entry := { version : string; changes : list string }.

(** The values that [startIndex] and [endIndex] take: the number [0] they
    start with, or a string built from a key of [Object.entries]. *)
Inductive index := INum (n : nat) | IStr (s : string).

(** The key of the array index [i]: its decimal digits. *)
Definition digit (n : nat) : ascii := ascii_of_nat (48 + n).

Fixpoint digits (fuel n : nat) : string :=
  match fuel with
  | 0 => EmptyString
  | S fuel =>
      ((if decide (n < 10) then EmptyString else digits fuel (n / 10))
       ++ String (digit (n mod 10)) EmptyString)%string
  end.

Definition key (i : nat) : string := digits (S i) i.

(** [Object.entries(changelog)]: the keys are strings. *)
Fixpoint entries_from (i : nat) (changelog : list entry) : list (string * entry) :=
  match changelog with
  | [] => []
  | e :: changelog => (key i, e) :: entries_from (S i) changelog
  end.

Definition Object_entries (changelog : list entry) : list (string * entry) :=
  entries_from 0 changelog.

(** The number that a string of decimal digits converts to. *)
Definition ToNumber (s : string) : nat :=
  foldl (λ n c, 10 * n + (nat_of_ascii c - 48)) 0 (list_ascii_of_string s).

(** The conversion that [slice] applies to its arguments. *)
Definition ToIntegerOrInfinity (i : index) : nat :=
  match i with
  | INum n => n
  | IStr s => ToNumber s
  end.

(** The loop of [showLogFrom]; [i + 1] on the string [i] appends the
    character [1]. *)
Fixpoint scan (_loadedVersion lastLoadedVersion : string) (entries : list (string * entry))
    (startIndex endIndex : index) : index * index :=
  match entries with
  | [] => (startIndex, endIndex)
  | (i, entry) :: entries =>
      if decide (version entry = _loadedVersion) then
        scan _loadedVersion lastLoadedVersion entries (IStr i) (IStr (i ++ "1"))
      else if decide (version entry = lastLoadedVersion) then
        (startIndex, endIndex)                                      (* break *)
      else
        scan _loadedVersion lastLoadedVersion entries startIndex (IStr (i ++ "1"))
  end.

(** [array.slice(start, end)] for bounds that are not negative. *)
Definition slice {A} (start end_ : nat) (l : list A) : list A :=
  take (end_ - start) (drop start l).

(** [changelog.slice(startIndex, endIndex)] after the loop. *)
Definition listed (_loadedVersion lastLoadedVersion : string) (changelog : list entry)
    : list entry :=
  let '(startIndex, endIndex) :=
    scan _loadedVersion lastLoadedVersion (Object_entries changelog) (INum 0) (INum 0) in
  slice (ToIntegerOrInfinity startIndex) (ToIntegerOrInfinity endIndex) changelog.

(** [showLogFrom(lastLoadedVersion)] on the fetched [changelog]: the markup of
    the list that is appended to the container, [None] when the method
    returns at once. *)
Definition showLogFrom (_loadedVersion lastLoadedVersion : string) (changelog : list entry)
    : option string :=
  if decide (lastLoadedVersion = _loadedVersion) then None
  else
    let changeList :=
      (λ change, escapeHtmlTag ["<li>"; "</li>"]%string [change])
        <$> concat (changes <$> listed _loadedVersion lastLoadedVersion changelog) in
    Some ("<ul>" ++ String.concat EmptyString changeList ++ "</ul>")%string.
End Changelog.
(** ** The public interface of a [WorkerMessenger], call by call *)
Module Session.
Import WorkerMessenger.
Section Session.
Context {K : Type}.

(** A call made on a messenger by the page or by its worker. *)
Inductive Call :=
| Request (action : option string) (settings : option SettingsObject) (data : string)
                                           (* [requestResponse(message)] *)
| Abort                                    (* [abort()] *)
| Release                                  (* [release()] *)
| Message (data : MessageData).            (* [onmessage] of the worker *)

Definition call (c : Call) (s : t * Browser K) : t * Browser K :=
  match c with
  | Request action settings data => snd (requestResponse action settings data s)
  | Abort => abort s
  | Release => release s
  | Message data => _onMessage data s
  end.

Definition calls (cs : list Call) (s : t * Browser K) : t * Browser K :=
  foldl (λ s c, call c s) s cs.

(** A browser in which nothing has happened yet. *)
Definition fresh : Browser K :=
  {| promises := []; microtasks := []; spawned := 0; terminated := []; posted := [];
     console := 0 |}.

(** The ids of the messages posted so far, oldest first. *)
Definition posted_ids (b : Browser K) : list N := (λ x, req_id x.2) <$> posted b.

(** Ids are handed out in order, and the pending ones are among them. *)
Definition numbered (s : t * Browser K) : Prop :=
  posted_ids (snd s) = (λ n, N.of_nat n) <$> seq 1 (N.to_nat (_requestId (fst s))) ∧
  ∀ id, is_Some (_pending (fst s) !! id) → (0 < id ≤ _requestId (fst s))%N.

(** The current worker can receive messages, and every worker that was
    terminated had been constructed. *)
Definition staffed (s : t * Browser K) : Prop :=
  (∀ w, w ∈ terminated (snd s) → w < spawned (snd s)) ∧
  (∀ w, _worker (fst s) = Some w → alive w (snd s)).
End Session.
End Session.

(** ** class Settings: [setSettings], and how the controller saves and
    restores the settings *)
Module Restore.
Import Settings.
Section Restore.
(** The value a range input takes when [value] is assigned to its [value]
    property (the value sanitization of the browser, which depends on the
    [min], [max] and [step] of the input). *)
Variable sanitize : InputEl.t → string → string.
(** The properties that every object inherits ([toString], ...), with the
    text they convert to. *)
Variable prototype : string → option string.

(** What [settings[name]] can be. *)
Inductive Property :=
| POption (v : OptionValue)      (* an option, or the [fingerprint] string *)
| PPlugins                       (* the nested [plugins] object *)
| PInherited (text : string).    (* a function of [Object.prototype] *)

(** [settings[name]] when [name in settings].  A settings object keeps its
    options apart from [plugins] and [fingerprint], which are properties of
    every settings object; any other name is an option or is inherited. *)
Definition property (name : string) (settings : SettingsObject) : option Property :=
  if decide (name = "fingerprint"%string) then
    Some (POption (OString (fingerprint settings)))
  else if decide (name = "plugins"%string) then Some PPlugins
  else
    match options settings !! name with
    | Some v => Some (POption v)
    | None => PInherited <$> prototype name
    end.

(** The conversion to a boolean that assigning to [checked] makes. *)
Definition ToBoolean (p : Property) : bool :=
  match p with
  | POption v => truthy (Some v)
  | PPlugins | PInherited _ => true
  end.

(** The conversion to a string that assigning to [value] makes. *)
Definition ToString (p : Property) : string :=
  match p with
  | POption (OBool true) => "true"
  | POption (OBool false) => "false"
  | POption (OString s) => s
  | PPlugins => "[object Object]"
  | PInherited text => text
  end.

Definition is_range (el : InputEl.t) : bool := String.eqb (InputEl.type el) "range".

(** Body of the loop of [setSettings] over [this._globalInputs]. *)
Definition set_global (settings : SettingsObject) (inputEl : InputEl.t) : InputEl.t :=
  match property (InputEl.name inputEl) settings with
  | None => inputEl                                            (* continue *)
  | Some p =>
      if is_checkbox inputEl then
        {| InputEl.name := InputEl.name inputEl; InputEl.type := InputEl.type inputEl;
           InputEl.checked := ToBoolean p; InputEl.value := InputEl.value inputEl |}
      else if is_range inputEl then
        {| InputEl.name := InputEl.name inputEl; InputEl.type := InputEl.type inputEl;
           InputEl.checked := InputEl.checked inputEl;
           InputEl.value := sanitize inputEl (ToString p) |}
      else inputEl
  end.

(** [settings.plugins[name]] converted to a boolean, when
    [name in settings.plugins]. *)
Definition plugin_property (name : string) (settings : SettingsObject) : option bool :=
  match plugins settings !! name with
  | Some b => Some b
  | None => if prototype name is Some _ then Some true else None
  end.

(** Body of the loop over [this._pluginInputs]. *)
Definition set_plugin (settings : SettingsObject) (inputEl : InputEl.t) : InputEl.t :=
  match plugin_property (InputEl.name inputEl) settings with
  | None => inputEl                                            (* continue *)
  | Some b =>
      {| InputEl.name := InputEl.name inputEl; InputEl.type := InputEl.type inputEl;
         InputEl.checked := b; InputEl.value := InputEl.value inputEl |}
  end.

Definition setSettings (settings : SettingsObject) (this : Settings.t) : Settings.t :=
  {| _globalInputs := set_global settings <$> _globalInputs this;
     _pluginInputs := set_plugin settings <$> _pluginInputs this |}.

(** [MainController._saveSettings(settings)]: the object stored under the
    key [settings], which is [settings] without [original]. *)
Definition _saveSettings (settings : SettingsObject) : SettingsObject :=
  {| options := delete "original"%string (options settings); plugins := plugins settings;
     fingerprint := fingerprint settings |}.

(** [MainController._loadSettings()], given what the store holds under the
    key [settings]. *)
Definition _loadSettings (stored : option SettingsObject) (this : Settings.t) : Settings.t :=
  match stored with
  | Some settings => setSettings settings this
  | None => this
  end.

(** A form whose inputs have pairwise distinct names, none of which is
    [plugins] or [fingerprint]. *)
Definition well_named (this : Settings.t) : Prop :=
  NoDup (InputEl.name <$> _globalInputs this) ∧
  NoDup (InputEl.name <$> _pluginInputs this) ∧
  Forall (λ el, InputEl.name el ≠ "plugins"%string ∧ InputEl.name el ≠ "fingerprint"%string)
         (_globalInputs this).

(** Every global input of [s1] is a checkbox, or a range input whose value
    the same input of [s2] takes as it is. *)
Definition restorable (s1 s2 : Settings.t) : Prop :=
  Forall2 (λ a b, is_checkbox a = true ∨
                  (is_range a = true ∧ sanitize b (InputEl.value a) = InputEl.value a))
          (_globalInputs s1) (_globalInputs s2).
End Restore.
End Restore.

(** ** The settings form of the page

    The global inputs of the page are checkboxes and range inputs, the two
    kinds that [_onReset] and [setSettings] handle.  The value of a range
    input is a number as the browser writes it: digits, a sign, a decimal
    point, the mark of an exponent. *)
Definition numeric_char (c : ascii) : bool :=
  existsb (Ascii.eqb c) (list_ascii_of_string "0123456789+-.eE").

Fixpoint numeric (s : string) : bool :=
  match s with
  | EmptyString => true
  | String c s' => numeric_char c && numeric s'
  end.

Definition page_form (this : Settings.t) : Prop :=
  Forall (λ el, Settings.is_checkbox el = true ∨
                (Restore.is_range el = true ∧ numeric (InputEl.value el) = true))
         (Settings._globalInputs this).

(** A form for examples: three global inputs and one plugin input. *)
Definition example_form (original pretty : bool) (floatPrecision : string)
    (removeDoctype : bool) : Settings.t :=
  {| Settings._globalInputs :=
       [ {| InputEl.name := "original"; InputEl.type := "checkbox";
            InputEl.checked := original; InputEl.value := "on" |};
         {| InputEl.name := "pretty"; InputEl.type := "checkbox";
            InputEl.checked := pretty; InputEl.value := "on" |};
         {| InputEl.name := "floatPrecision"; InputEl.type := "range";
            InputEl.checked := false; InputEl.value := floatPrecision |} ];
     Settings._pluginInputs :=
       [ {| InputEl.name := "removeDoctype"; InputEl.type := "checkbox";
            InputEl.checked := removeDoctype; InputEl.value := "on" |} ] |}.

(** ** The controller between two tasks *)

(** The page on which the cycle started by [_compressSvg] resumes, when the
    call was made on an idle page. *)
Definition resumed (r : N) (pg : Page) : Page :=
  {| browser := set_microtasks [] (browser pg); heap := heap pg; gzip := gzip pg;
     svgo := svgo pg; _currentJob := _currentJob pg; _inputItem := _inputItem pg;
     _cache := _cache pg; _latestCompressJobId := r; updates := updates pg;
     cached := cached pg; toasts := toasts pg; cycles := S (cycles pg); gzipped := gzipped pg |}.

(** A page with an input and a cached result for the fingerprint [a]. *)
Definition page_with_result : Page :=
  {| browser := browser initial_page;
     heap := {| files := [SvgFile.constructor "<svg> </svg>" 1 1;
                          SvgFile.constructor "<svg/>" 1 1];
                blobs := 0; revoked := []; released := [] |};
     gzip := gzip initial_page; svgo := svgo initial_page;
     _currentJob := 0; _inputItem := Some 0;
     _cache := {| ResultsCache._size := 10; ResultsCache._fingerprints := [Some "a"%string];
                  ResultsCache._items := [Some 1]; ResultsCache._index := 1 |};
     _latestCompressJobId := 0; updates := []; cached := []; toasts := [];
     cycles := 0; gzipped := [] |}.

(** ** createNanoEvents

    The [events] object maps an event name to an array of callbacks.  Arrays
    are objects: [emit] keeps a reference to the array it iterates over while
    the callbacks it calls may [push] to that array ([on]) or store another
    array under the name (the function returned by [on]).  So the arrays live
    in a store and [events] holds their addresses.  A callback is known by
    its identity (a number); what it does when called is a parameter. *)
Module NanoEvents.
Record t := {
  events : gmap string nat;       (* [this.events]: event name to address of its array *)
  arrays : list (list nat);       (* the arrays created so far, by address *)
}.

(** [createNanoEvents()]. *)
Definition create : t := {| events := ∅; arrays := [] |}.

(** [this.events[event] || []], read as a list. *)
Definition listeners (event : string) (this : t) : list nat :=
  match events this !! event with
  | Some r => default [] (arrays this !! r)
  | None => []
  end.

(** [on(event, cb)]: [push] on the array when there is one (the new length
    it returns is truthy), a new array otherwise. *)
Definition on (event : string) (cb : nat) (this : t) : t :=
  match events this !! event with
  | Some r => {| events := events this; arrays := alter (λ l, l ++ [cb]) r (arrays this) |}
  | None =>
      {| events := <[event := length (arrays this)]> (events this);
         arrays := arrays this ++ [[cb]] |}
  end.

(** The function returned by [on(event, cb)]: the array is replaced by a
    filtered copy. *)
Definition unbind (event : string) (cb : nat) (this : t) : t :=
  match events this !! event with
  | Some r =>
      {| events := <[event := length (arrays this)]> (events this);
         arrays := arrays this ++ [filter (λ i, cb ≠ i) (default [] (arrays this !! r))] |}
  | None => this
  end.

(** An emitter as the interface builds it: every event has an array of its
    own. *)
Definition wf (this : t) : Prop :=
  (∀ e r, events this !! e = Some r → r < length (arrays this)) ∧
  (∀ e1 e2 r, events this !! e1 = Some r → events this !! e2 = Some r → e1 = e2).

Section Emit.
(** The state outside the emitter that callbacks work on, and the arguments
    passed to them. *)
Context {State Args : Type}.

(** How a call ends. *)
Inductive Completion := Returned (st : t * State) | Threw (st : t * State).

Definition state (c : Completion) : t * State :=
  match c with Returned st | Threw st => st end.

(** What calling the callback [cb] does. *)
Variable call : nat → Args → t * State → Completion.

(** The loop of [emit]: [i] is the index, [count] is [length - i] for the
    [length] read before the loop; [callbacks[i]] is read from the array at
    address [r] as it is then, and calling [undefined] throws. *)
Fixpoint emit_loop (r : nat) (i count : nat) (args : Args) (st : t * State) : Completion :=
  match count with
  | 0 => Returned st
  | S count =>
      match arrays (fst st) !! r ≫= (λ callbacks, callbacks !! i) with
      | None => Threw st
      | Some cb =>
          match call cb args st with
          | Returned st => emit_loop r (S i) count args st
          | Threw st => Threw st
          end
      end
  end.

(** [emit(event, ...args)]. *)
Definition emit (event : string) (args : Args) (st : t * State) : Completion :=
  match events (fst st) !! event with
  | None => Returned st                                 (* the empty array literal *)
  | Some r => emit_loop r 0 (length (default [] (arrays (fst st) !! r))) args st
  end.

(** Calling the callbacks of a list one after the other, up to the first
    that throws. *)
Fixpoint call_each (cbs : list nat) (args : Args) (st : t * State) : Completion :=
  match cbs with
  | [] => Returned st
  | cb :: cbs =>
      match call cb args st with
      | Returned st => call_each cbs args st
      | Threw st => Threw st
      end
  end.

(** Callbacks that leave the arrays they find as they are, but for elements
    added at the end: so do callbacks that use the emitter through [on], the
    functions it returns and [emit]. *)
Definition extended (this this' : t) : Prop :=
  ∀ r l, arrays this !! r = Some l → ∃ l', arrays this' !! r = Some (l ++ l').

Definition polite : Prop :=
  ∀ cb args st, extended (fst st) (fst (state (call cb args st))).
End Emit.

(** A callback for examples: it removes itself from the event [change] and
    adds its identity to a log. *)
Definition once (cb : nat) (_ : unit) (st : t * list nat) : Completion :=
  Returned (unbind "change" cb (fst st), snd st ++ [cb]).
End NanoEvents.

(** ** The promises of the job chain and those of the size reports

    The promises of the page are of two kinds.  Those of [svgo]'s job chain
    are the promise of a request of [svgo] and the promises made by
    [process]; those of the size reports are the promises made by [size] and
    the promise of a request of [gzip].  The reactions of one kind settle
    promises of that kind only, and a promise of a size report carries
    reactions of the size reports only: so the size reports and the replies
    of [gzip]'s worker leave the job chain as it is. *)
Inductive Kind := ChainPromise | SizePromise.

(** The reactions registered by [size] and by [_updateForFile]. *)
Definition is_size (k : Kont) : Prop :=
  match k with
  | KByteLength _ | KReturn _ | KUpdateSize _ _ | KUpdateResults => True
  | _ => False
  end.

(** The promise that a reaction settles is of the reaction's kind. *)
Definition aimed (kinds : list Kind) (k : Kont) : Prop :=
  match k with
  | KCatch p | KThenProcess _ _ p | KProcessed p => kinds !! p = Some ChainPromise
  | KByteLength p | KReturn p => kinds !! p = Some SizePromise
  | _ => True
  end.

(** [kinds] gives a kind to each promise of the store. *)
Definition kinded (kinds : list Kind) (b : Browser Kont) : Prop :=
  length kinds = length (promises b) ∧
  (∀ p ks, promises b !! p = Some (Pending ks) →
     Forall (λ k, aimed kinds k ∧ (kinds !! p = Some SizePromise → is_size k)) ks) ∧
  Forall (λ j, aimed kinds j.1) (microtasks b).

(** The promises held by the objects of the page have the kind of their
    holder. *)
Definition owned (kinds : list Kind) (pg : Page) : Prop :=
  map_Forall (λ _ p, kinds !! p = Some SizePromise) (WorkerMessenger._pending (gzip pg)) ∧
  map_Forall (λ _ p, kinds !! p = Some ChainPromise) (WorkerMessenger._pending (svgo pg)) ∧
  kinds !! _currentJob pg = Some ChainPromise ∧
  (∀ f m, memo f (heap pg) = Some m → kinds !! m = Some SizePromise).

Definition separated (kinds : list Kind) (pg : Page) : Prop :=
  kinded kinds (browser pg) ∧ owned kinds pg.

(** A step keeps the kinds of the promises there were and gives one to each
    promise it made. *)
Definition kept (kinds : list Kind) (pg' : Page) : Prop :=
  ∃ kinds', kinds `prefix_of` kinds' ∧ separated kinds' pg'.


(** What a step of a size report leaves alone: the promises of the job
    chain; and it queues reactions of the size reports only. *)
Definition undisturbed (kinds : list Kind) (b b' : Browser Kont) : Prop :=
  (∀ p, kinds !! p = Some ChainPromise → promises b' !! p = promises b !! p) ∧
  (Forall (λ j, is_size j.1) (microtasks b) → Forall (λ j, is_size j.1) (microtasks b')).

Definition quiet (kinds : list Kind) (pg pg' : Page) : Prop :=
  svgo pg' = svgo pg ∧ _currentJob pg' = _currentJob pg ∧
  updates pg' = updates pg ∧ cached pg' = cached pg ∧ cycles pg' = cycles pg ∧
  undisturbed kinds (browser pg) (browser pg').


(** ** Tasks

    A task of the page is one of the events above, or a row of calls of
    [_compressSvg] made one after the other before any of them resumes from
    its [await svgo.abort()]: every call runs up to that [await], and the
    calls resume in the checkpoint of the task, in their order. *)
Section Tasks.
Context `{!Cleanup}.







End Tasks.
(** * Properties *)

(** ** Promise store *)
Section RuntimeFacts.
Context {K : Type}.
Implicit Types (b : Browser K) (p q : promise) (o : Outcome).

Lemma settle_pending b p o ks :
  promises b !! p = Some (Pending ks) →
  promises (settle p o b) !! p = Some (Settled o).
Proof.
  intros Hp. unfold settle. rewrite Hp. simpl.
  apply list_lookup_insert_eq. by eapply lookup_lt_Some.
Qed.

Lemma settle_other b p q o :
  p ≠ q → promises (settle p o b) !! q = promises b !! q.
Proof.
  intros Hne. unfold settle.
  destruct (promises b !! p) as [[ks|o']|] eqn:Hp; simpl; try done.
  by apply list_lookup_insert_ne.
Qed.

Lemma settle_settled b p q o o' :
  promises b !! q = Some (Settled o') →
  promises (settle p o b) !! q = Some (Settled o').
Proof.
  intros Hq. destruct (decide (p = q)) as [->|Hne].
  - unfold settle. by rewrite Hq.
  - by rewrite settle_other.
Qed.

Lemma settle_already b p o o' :
  promises b !! p = Some (Settled o') → settle p o b = b.
Proof. intros Hp. unfold settle. by rewrite Hp. Qed.

Lemma settle_workers b p o :
  spawned (settle p o b) = spawned b ∧ terminated (settle p o b) = terminated b ∧
  posted (settle p o b) = posted b ∧ console (settle p o b) = console b.
Proof. unfold settle. by destruct (promises b !! p) as [[ks|o']|]. Qed.

Lemma settle_length b p o :
  length (promises (settle p o b)) = length (promises b).
Proof.
  unfold settle. destruct (promises b !! p) as [[ks|o']|]; simpl; try done.
  apply length_insert.
Qed.
End RuntimeFacts.

(** ** WorkerMessenger *)
Module WorkerMessengerFacts.
Import WorkerMessenger.

Section Facts.
Context {K : Type}.
Implicit Types (this : t) (b : Browser K) (s : t * Browser K) (id : N).

Lemma keys_elem pending id : id ∈ keys pending ↔ is_Some (pending !! id).
Proof.
  unfold keys. rewrite merge_sort_Permutation, list_elem_of_fmap. split.
  - intros [[i p] [-> Hin]]. apply elem_of_map_to_list in Hin. by exists p.
  - intros [p Hp]. exists (id, p). split; [done|]. by apply elem_of_map_to_list.
Qed.

Lemma keys_nil pending : keys pending = [] ↔ pending = ∅.
Proof.
  split.
  - intros Hk. apply map_empty. intros id.
    destruct (pending !! id) as [p|] eqn:Hp; [|done].
    assert (id ∈ keys pending) as Hin by (apply keys_elem; eauto).
    rewrite Hk in Hin. by apply elem_of_nil in Hin.
  - intros ->. unfold keys. by rewrite map_to_list_empty.
Qed.

Lemma abort_one_fields s id :
  _pending (fst (abort_one s id)) = delete id (_pending (fst s)) ∧
  _requestId (fst (abort_one s id)) = _requestId (fst s) ∧
  _worker (fst (abort_one s id)) = _worker (fst s) ∧
  spawned (snd (abort_one s id)) = spawned (snd s) ∧
  terminated (snd (abort_one s id)) = terminated (snd s) ∧
  posted (snd (abort_one s id)) = posted (snd s).
Proof.
  destruct s as [this b]. unfold abort_one, _fulfillPending. simpl.
  destruct (_pending this !! id) as [p|] eqn:Hp; simpl.
  - pose proof (settle_workers b p (Rejected AbortError)). naive_solver.
  - by rewrite delete_id.
Qed.

Lemma abort_one_settled s id q o :
  promises (snd s) !! q = Some (Settled o) →
  promises (snd (abort_one s id)) !! q = Some (Settled o).
Proof.
  destruct s as [this b]. unfold abort_one, _fulfillPending. simpl.
  destruct (_pending this !! id) as [p|]; simpl; [|done].
  apply settle_settled.
Qed.

Lemma abort_one_hit s id p ks :
  _pending (fst s) !! id = Some p →
  promises (snd s) !! p = Some (Pending ks) →
  promises (snd (abort_one s id)) !! p = Some (Settled (Rejected AbortError)).
Proof.
  destruct s as [this b]. unfold abort_one, _fulfillPending. simpl.
  intros -> Hp. simpl. by eapply settle_pending.
Qed.

Lemma abort_one_miss s id q ks :
  promises (snd s) !! q = Some (Pending ks) →
  promises (snd (abort_one s id)) !! q = Some (Pending ks) ∨
  promises (snd (abort_one s id)) !! q = Some (Settled (Rejected AbortError)).
Proof.
  destruct s as [this b]. unfold abort_one, _fulfillPending. simpl. intros Hq.
  destruct (_pending this !! id) as [p|]; simpl; [|by left].
  destruct (decide (p = q)) as [->|Hne].
  - right. by eapply settle_pending.
  - left. by rewrite settle_other.
Qed.

Lemma sweep_fields l s :
  _pending (fst (foldl abort_one s l)) = foldl (λ m id, delete id m) (_pending (fst s)) l ∧
  _requestId (fst (foldl abort_one s l)) = _requestId (fst s) ∧
  _worker (fst (foldl abort_one s l)) = _worker (fst s) ∧
  spawned (snd (foldl abort_one s l)) = spawned (snd s) ∧
  terminated (snd (foldl abort_one s l)) = terminated (snd s) ∧
  posted (snd (foldl abort_one s l)) = posted (snd s).
Proof.
  revert s. induction l as [|id l IH]; intros s; simpl; [done|].
  destruct (IH (abort_one s id)) as (-> & -> & -> & -> & -> & ->).
  destruct (abort_one_fields s id) as (-> & -> & -> & -> & -> & ->). done.
Qed.

Lemma sweep_settled l s q o :
  promises (snd s) !! q = Some (Settled o) →
  promises (snd (foldl abort_one s l)) !! q = Some (Settled o).
Proof.
  revert s. induction l as [|id l IH]; intros s Hq; simpl; [done|].
  apply IH. by apply abort_one_settled.
Qed.

Lemma sweep_rejects l s id p ks :
  id ∈ l →
  _pending (fst s) !! id = Some p →
  promises (snd s) !! p = Some (Pending ks) →
  promises (snd (foldl abort_one s l)) !! p = Some (Settled (Rejected AbortError)).
Proof.
  revert s. induction l as [|k l IH]; intros s Hin Hid Hp; simpl.
  - by apply elem_of_nil in Hin.
  - destruct (decide (k = id)) as [->|Hne].
    + apply sweep_settled. by eapply abort_one_hit.
    + apply elem_of_cons in Hin as [->|Hin]; [done|].
      destruct (abort_one_miss s k p ks Hp) as [Hp'|Hp'].
      * apply IH; [done| |done].
        destruct (abort_one_fields s k) as (-> & _). by rewrite lookup_delete_ne.
      * by apply sweep_settled.
Qed.

Lemma sweep_deletes l (m : gmap N promise) id :
  foldl (λ m id, delete id m) m l !! id = if decide (id ∈ l) then None else m !! id.
Proof.
  revert m. induction l as [|k l IH]; intros m; simpl; [done|].
  rewrite IH. destruct (decide (id ∈ l)) as [Hin|Hnin].
  - rewrite decide_True; [done|]. by apply elem_of_cons; right.
  - destruct (decide (k = id)) as [->|Hne].
    + rewrite decide_True by (apply elem_of_cons; by left). apply lookup_delete_eq.
    + rewrite decide_False by (rewrite elem_of_cons; naive_solver).
      by apply lookup_delete_ne.
Qed.

Lemma _abortPending_spec this b :
  let s' := _abortPending (this, b) in
  _pending (fst s') = ∅ ∧
  _requestId (fst s') = _requestId this ∧
  _worker (fst s') = _worker this ∧
  spawned (snd s') = spawned b ∧
  terminated (snd s') = terminated b ∧
  posted (snd s') = posted b ∧
  (∀ id p ks, _pending this !! id = Some p → promises b !! p = Some (Pending ks) →
     promises (snd s') !! p = Some (Settled (Rejected AbortError))) ∧
  (∀ q o, promises b !! q = Some (Settled o) → promises (snd s') !! q = Some (Settled o)).
Proof.
  unfold _abortPending. simpl.
  destruct (sweep_fields (keys (_pending this)) (this, b)) as (Hp & -> & -> & -> & -> & ->).
  simpl in *. repeat split; try done.
  - rewrite Hp. apply map_empty. intros id. rewrite sweep_deletes.
    case_decide as Hin; [done|].
    destruct (_pending this !! id) eqn:E; [|done].
    exfalso. apply Hin. apply keys_elem. eauto.
  - intros id p ks Hid Hpp. eapply sweep_rejects; eauto.
    apply keys_elem. eauto.
  - intros q o Hq. by apply (sweep_settled _ (this, b)).
Qed.

Lemma requestResponse_spec action settings data this b :
  let id := (_requestId this + 1)%N in
  let p := length (promises b) in
  let w := default (spawned b) (_worker this) in
  requestResponse action settings data (this, b) =
    (p, ({| _requestId := id; _pending := <[id := p]> (_pending this); _worker := Some w |},
         {| promises := promises b ++ [Pending []];
            microtasks := microtasks b;
            spawned := if _worker this is Some _ then spawned b else S (spawned b);
            terminated := terminated b;
            posted := posted b ++ [(w, {| req_id := id; req_action := action;
                                          req_settings := settings; req_data := data |})];
            console := console b |})).
Proof. unfold requestResponse. by destruct (_worker this). Qed.

Lemma keys_singleton id (p : promise) : keys {[ id := p ]} = [id].
Proof. unfold keys. by rewrite map_to_list_singleton. Qed.

Lemma abort_empty this b : _pending this = ∅ → abort (this, b) = (this, b).
Proof.
  intros Hempty. unfold abort. simpl.
  rewrite decide_True; [done|]. by apply keys_nil.
Qed.

(** [abort()] with exactly one request in flight, in full. *)
Lemma abort_singleton this b id q ks :
  _pending this = {[ id := q ]} →
  promises b !! q = Some (Pending ks) →
  abort (this, b) =
    ({| _requestId := _requestId this; _pending := ∅; _worker := Some (spawned b) |},
     {| promises := <[q := Settled (Rejected AbortError)]> (promises b);
        microtasks := microtasks b ++ map (λ k, (k, Rejected AbortError)) ks;
        spawned := S (spawned b);
        terminated := option_list (_worker this) ++ terminated b;
        posted := posted b; console := console b |}).
Proof.
  intros Hpend Hq. unfold abort, _abortPending. simpl.
  rewrite Hpend, keys_singleton. rewrite decide_False by done. simpl.
  unfold abort_one, _fulfillPending. rewrite Hpend, lookup_singleton_eq.
  rewrite delete_singleton_eq. unfold settle. rewrite Hq. simpl.
  by destruct (_worker this).
Qed.

(** A message without an id, or whose id has no entry, is logged and dropped. *)
Lemma _onMessage_dropped this b data :
  (msg_id data = None ∨ msg_id data = Some 0%N ∨
   ∃ id, msg_id data = Some id ∧ _pending this !! id = None) →
  _onMessage data (this, b) = (this, console_log b).
Proof.
  unfold _onMessage. intros [->|[->|(id & -> & Hid)]]; try done.
  destruct id; [done|]. unfold _fulfillPending. by rewrite Hid.
Qed.

(** A message for the one request in flight, in full. *)
Lemma _onMessage_singleton this b data id q ks :
  msg_id data = Some id → id ≠ 0%N →
  _pending this = {[ id := q ]} →
  promises b !! q = Some (Pending ks) →
  let o := match error_of data with
           | Some e => Rejected e
           | None => Fulfilled (msg_result data)
           end in
  _onMessage data (this, b) =
    ({| _requestId := _requestId this; _pending := ∅; _worker := _worker this |},
     {| promises := <[q := Settled o]> (promises b);
        microtasks := microtasks b ++ map (λ k, (k, o)) ks;
        spawned := spawned b; terminated := terminated b;
        posted := posted b; console := console b |}).
Proof.
  intros Hid Hnz Hpend Hq. unfold _onMessage. rewrite Hid.
  destruct id as [|i]; [done|]. unfold _fulfillPending.
  rewrite Hpend, lookup_singleton_eq, delete_singleton_eq.
  unfold settle. rewrite Hq. by destruct (error_of data).
Qed.

(** [abort()] rejects every request that is in flight. *)
Lemma abort_rejects this b id q ks :
  _pending this !! id = Some q → promises b !! q = Some (Pending ks) →
  promises (snd (abort (this, b))) !! q = Some (Settled (Rejected AbortError)).
Proof.
  intros Hid Hq. unfold abort. simpl.
  rewrite decide_False.
  - pose proof (_abortPending_spec this b) as Hspec. simpl in Hspec.
    destruct (_abortPending (this, b)) as [this1 b1]. simpl in Hspec.
    destruct Hspec as (_ & _ & _ & _ & _ & _ & Hrej & _).
    unfold _startWorker, new_worker. simpl.
    destruct (_worker this1); simpl; eauto.
  - rewrite keys_nil. intros Hempty. rewrite Hempty in Hid. by rewrite lookup_empty in Hid.
Qed.

(** C2. [abort()] with nothing pending changes nothing: no worker is
    terminated or started and no promise is touched.  Otherwise every pending
    entry is removed from the map and its promise is rejected with
    [AbortError], the current worker (if there is one) is terminated, a new
    worker is constructed and becomes the current one, and a following
    [requestResponse] registers its entry and posts its message to that new,
    live worker without constructing another one. *)
Theorem abort_contract this b :
  (_pending this = ∅ → abort (this, b) = (this, b)) ∧
  (_pending this ≠ ∅ →
     let s' := abort (this, b) in
     _pending (fst s') = ∅ ∧
     (∀ id p ks, _pending this !! id = Some p → promises b !! p = Some (Pending ks) →
        promises (snd s') !! p = Some (Settled (Rejected AbortError))) ∧
     terminated (snd s') = option_list (_worker this) ++ terminated b ∧
     _worker (fst s') = Some (spawned b) ∧
     spawned (snd s') = S (spawned b) ∧
     ((∀ w, w ∈ option_list (_worker this) ++ terminated b → w < spawned b) →
        alive (spawned b) (snd s')) ∧
     ∀ action settings data,
       let r := requestResponse action settings data s' in
       let id := (_requestId this + 1)%N in
       _pending (fst (snd r)) = {[ id := fst r ]} ∧
       promises (snd (snd r)) !! fst r = Some (Pending []) ∧
       _worker (fst (snd r)) = Some (spawned b) ∧
       spawned (snd (snd r)) = S (spawned b) ∧
       terminated (snd (snd r)) = terminated (snd s') ∧
       posted (snd (snd r)) =
         posted b ++ [(spawned b, {| req_id := id; req_action := action;
                                     req_settings := settings; req_data := data |})]).
Proof.
  split.
  - intros Hempty. unfold abort. simpl.
    rewrite decide_True; [done|]. by apply keys_nil.
  - intros Hne. unfold abort. simpl.
    rewrite decide_False by (by rewrite keys_nil).
    pose proof (_abortPending_spec this b) as Hspec. simpl in Hspec.
    destruct (_abortPending (this, b)) as [this1 b1]. simpl in Hspec.
    destruct Hspec as (Hpend & Hrid & Hw & Hsp & Hterm & Hpost & Hrej & _).
    assert (terminated (match _worker this1 with
                        | Some w => terminate w b1 | None => b1 end)
            = option_list (_worker this) ++ terminated b) as Hterm'.
    { rewrite Hw. destruct (_worker this); simpl; by rewrite Hterm. }
    assert (∀ q, promises (match _worker this1 with
                           | Some w => terminate w b1 | None => b1 end) !! q
                 = promises b1 !! q) as Hprom.
    { intros q. by destruct (_worker this1). }
    assert (spawned (match _worker this1 with
                     | Some w => terminate w b1 | None => b1 end) = spawned b) as Hsp'.
    { rewrite <- Hsp. by destruct (_worker this1). }
    assert (posted (match _worker this1 with
                    | Some w => terminate w b1 | None => b1 end) = posted b) as Hpost'.
    { rewrite <- Hpost. by destruct (_worker this1). }
    set (b2 := match _worker this1 with Some w => terminate w b1 | None => b1 end) in *.
    unfold _startWorker, new_worker. simpl.
    split_and!; try done.
    + intros id p ks Hid Hp. rewrite Hprom. eauto.
    + by rewrite Hsp'.
    + by rewrite Hsp'.
    + intros Hwf. split; simpl; [rewrite Hsp'; lia|].
      rewrite Hterm'. intros Hin. apply Hwf in Hin. lia.
    + intros action settings data. try rewrite requestResponse_spec; simpl.
      rewrite Hpend, Hrid, Hsp', Hpost'. split_and!; try done.
      apply list_lookup_middle. done.
Qed.

(** Amended C4. An inbound message whose id matches a pending entry and whose
    [error] is a non-empty string rejects exactly that entry's promise with
    [new Error(error)], whatever [result] the message carries as well; the
    entry is removed, every other entry stays in the map and no other promise
    changes state.  (Request ids start at 1, so a pending id is never 0.) *)
Theorem worker_error_correlation this b data id p ks e :
  msg_id data = Some id → id ≠ 0%N →
  msg_error data = Some e → e ≠ EmptyString →
  _pending this !! id = Some p → promises b !! p = Some (Pending ks) →
  let s' := _onMessage data (this, b) in
  promises (snd s') !! p = Some (Settled (Rejected (Error e))) ∧
  _pending (fst s') = delete id (_pending this) ∧
  (∀ id', id' ≠ id → _pending (fst s') !! id' = _pending this !! id') ∧
  (∀ q, q ≠ p → promises (snd s') !! q = promises b !! q) ∧
  microtasks (snd s') = microtasks b ++ map (λ k, (k, Rejected (Error e))) ks.
Proof.
  intros Hid Hnz He Hne Hpend Hp. unfold _onMessage. rewrite Hid.
  destruct id as [|i]; [done|]. unfold _fulfillPending, error_of. simpl.
  rewrite Hpend, He. rewrite decide_False by done. simpl.
  split_and!.
  - by eapply settle_pending.
  - done.
  - intros id' Hne'. by apply lookup_delete_ne.
  - intros q Hq. by apply settle_other.
  - unfold settle. by rewrite Hp.
Qed.

(** Amended C5. [release()] removes every pending entry and rejects its
    promise with [AbortError], terminates the current worker (if any) and
    leaves the messenger without a worker, constructing none.  The instance
    stays usable: the next [requestResponse] constructs a new worker and posts
    its message to it. *)
Theorem release_then_send this b :
  let s' := release (this, b) in
  _pending (fst s') = ∅ ∧
  (∀ id p ks, _pending this !! id = Some p → promises b !! p = Some (Pending ks) →
     promises (snd s') !! p = Some (Settled (Rejected AbortError))) ∧
  terminated (snd s') = option_list (_worker this) ++ terminated b ∧
  _worker (fst s') = None ∧
  spawned (snd s') = spawned b ∧
  ∀ action settings data,
    let r := requestResponse action settings data s' in
    let id := (_requestId this + 1)%N in
    _pending (fst (snd r)) = {[ id := fst r ]} ∧
    promises (snd (snd r)) !! fst r = Some (Pending []) ∧
    _worker (fst (snd r)) = Some (spawned b) ∧
    spawned (snd (snd r)) = S (spawned b) ∧
    terminated (snd (snd r)) = terminated (snd s') ∧
    posted (snd (snd r)) =
      posted b ++ [(spawned b, {| req_id := id; req_action := action;
                                  req_settings := settings; req_data := data |})].
Proof.
  unfold release.
  pose proof (_abortPending_spec this b) as Hspec. simpl in Hspec.
  destruct (_abortPending (this, b)) as [this1 b1]. simpl in Hspec.
  destruct Hspec as (Hpend & Hrid & Hw & Hsp & Hterm & Hpost & Hrej & _).
  rewrite Hw. destruct (_worker this) as [w|] eqn:Hwk; simpl.
  - split_and!; try done.
    + by rewrite Hterm.
    + intros action settings data. try rewrite requestResponse_spec; simpl.
      rewrite Hpend, Hrid, Hsp, Hpost. split_and!; try done.
      by apply list_lookup_middle.
  - split_and!; try done.
    intros action settings data. try rewrite requestResponse_spec; simpl.
    rewrite Hpend, Hrid, Hw, Hsp, Hpost. split_and!; try done.
    by apply list_lookup_middle.
Qed.

End Facts.

(** Witness of C2 on a messenger with two requests in flight on worker 0. *)
Lemma abort_contract_witness :
  let this := {| _requestId := 2; _pending := {[ 1%N := 0; 2%N := 1 ]};
                 _worker := Some 0 |} in
  let b : Browser unit :=
    {| promises := [Pending []; Pending []]; microtasks := []; spawned := 1;
       terminated := []; posted := []; console := 0 |} in
  let s' := abort (this, b) in
  _pending this ≠ ∅ ∧
  _pending (fst s') = ∅ ∧
  promises (snd s') !! 0 = Some (Settled (Rejected AbortError)) ∧
  promises (snd s') !! 1 = Some (Settled (Rejected AbortError)) ∧
  terminated (snd s') = [0] ∧
  _worker (fst s') = Some 1 ∧
  alive 1 (snd s').
Proof.
  intros this b s'.
  assert (_pending this ≠ ∅) as Hne.
  { intros H. apply (f_equal (λ m : gmap N promise, m !! 1%N)) in H. by vm_compute in H. }
  destruct (abort_contract this b) as [_ H].
  destruct (H Hne) as (H1 & H2 & H3 & H4 & _ & H5 & _).
  split_and!.
  - exact Hne.
  - exact H1.
  - apply (H2 1%N 0 []); reflexivity.
  - apply (H2 2%N 1 []); reflexivity.
  - exact H3.
  - exact H4.
  - apply H5. simpl. intros w Hw. apply list_elem_of_singleton in Hw. subst w. lia.
Defined.

(** Witness of the amended C4: the reply [{id: 7, result, error: "bad input"}]
    with requests 6 and 7 in flight. *)
Lemma worker_error_correlation_witness :
  let this := {| _requestId := 7; _pending := {[ 6%N := 0; 7%N := 1 ]};
                 _worker := Some 0 |} in
  let b : Browser unit :=
    {| promises := [Pending []; Pending [tt]]; microtasks := []; spawned := 1;
       terminated := []; posted := []; console := 0 |} in
  let data := {| msg_id := Some 7%N; msg_result := VBytes 3;
                 msg_error := Some "bad input"%string |} in
  let s' := _onMessage data (this, b) in
  promises (snd s') !! 1 = Some (Settled (Rejected (Error "bad input"))) ∧
  _pending (fst s') !! 6%N = Some 0 ∧
  promises (snd s') !! 0 = Some (Pending []).
Proof.
  intros this b data s'.
  assert (7%N ≠ 0%N) as Hid by done.
  assert ("bad input"%string ≠ EmptyString) as Hmsg by done.
  destruct (worker_error_correlation this b data 7%N 1 [tt] "bad input"%string
              eq_refl Hid eq_refl Hmsg eq_refl eq_refl) as (H1 & _ & H3 & H4 & _).
  split_and!.
  - exact H1.
  - rewrite H3; done.
  - rewrite H4; done.
Defined.

(** C4 as stated fails on a reply whose error string is empty: the test
    [event.data.error && ...] takes it for no error, and the pending promise is
    resolved with the (missing) result instead of being rejected. *)
Lemma empty_error_resolves :
  let this := {| _requestId := 7; _pending := {[ 7%N := 0 ]}; _worker := Some 0 |} in
  let b : Browser unit :=
    {| promises := [Pending []]; microtasks := []; spawned := 1;
       terminated := []; posted := []; console := 0 |} in
  let data := {| msg_id := Some 7%N; msg_result := VUndefined;
                 msg_error := Some EmptyString |} in
  promises (snd (_onMessage data (this, b))) !! 0 = Some (Settled (Fulfilled VUndefined)).
Proof. reflexivity. Qed.

(** C5 as stated fails: after [release()] a send goes through.  The request
    is posted to a newly constructed live worker, and that worker's reply
    resolves the returned promise. *)
Lemma send_after_release_succeeds :
  let this := {| _requestId := 2; _pending := {[ 2%N := 0 ]}; _worker := Some 0 |} in
  let b : Browser unit :=
    {| promises := [Pending []]; microtasks := []; spawned := 1;
       terminated := []; posted := []; console := 0 |} in
  let r := requestResponse None None "<svg/>" (release (this, b)) in
  let reply := {| msg_id := Some 3%N; msg_result := VBytes 20; msg_error := None |} in
  _worker (fst (snd r)) = Some 1 ∧
  terminated (snd (snd r)) = [0] ∧
  posted (snd (snd r)) =
    [(1, {| req_id := 3; req_action := None; req_settings := None;
            req_data := "<svg/>" |})] ∧
  promises (snd (_onMessage reply (snd r))) !! fst r = Some (Settled (Fulfilled (VBytes 20))).
Proof. vm_compute. done. Qed.
End WorkerMessengerFacts.

(** ** SvgFile.release and ResultsCache *)
Module ResultsCacheFacts.
Import ResultsCache.

Lemma array_get_fmap {A} (l : list A) i : array_get (Some <$> l) i = l !! i.
Proof. unfold array_get. rewrite list_lookup_fmap. by destruct (l !! i). Qed.

Lemma array_set_end {A} (l : list A) (x : A) :
  array_set (length l) x (Some <$> l) = Some <$> (l ++ [x]).
Proof.
  unfold array_set. rewrite length_fmap, decide_False by lia.
  rewrite Nat.sub_diag. simpl. by rewrite fmap_app.
Qed.

Lemma indexOf_None x (l : list (option string)) :
  Some x ∉ l → indexOf x l = None.
Proof.
  induction l as [|y l IH]; intros Hnin; simpl; [done|].
  rewrite not_elem_of_cons in Hnin. destruct Hnin as [Hne Hnin].
  rewrite decide_False by congruence. by rewrite IH.
Qed.

Lemma release_released f h : released (release f h) = released h ++ [f].
Proof. done. Qed.

(** While the ring is not full, [add] appends and releases nothing. *)
Lemma add_all_fill (l : list (string * ref)) (fps : list string) (its : list ref) n h :
  length its = length fps →
  length fps + length l ≤ n →
  add_all l ({| _size := n; _fingerprints := Some <$> fps; _items := Some <$> its;
                _index := length fps mod n |}, h)
  = ({| _size := n; _fingerprints := Some <$> (fps ++ l.*1);
        _items := Some <$> (its ++ l.*2);
        _index := (length fps + length l) mod n |}, h).
Proof.
  revert fps its. induction l as [|[fp f] l IH]; intros fps its Hlen Hn.
  - simpl. by rewrite !app_nil_r, Nat.add_0_r.
  - simpl in Hn. unfold add_all in *. simpl foldl.
    rewrite (Nat.mod_small (length fps)) by lia.
    rewrite array_get_fmap, <- Hlen, lookup_ge_None_2 by lia.
    rewrite array_set_end. rewrite Hlen, array_set_end.
    replace (length fps + 1) with (length (fps ++ [fp])) by (rewrite length_app; done).
    rewrite IH.
    + rewrite <- !(assoc_L (++)). simpl. f_equal. f_equal.
      rewrite length_app. simpl. f_equal. lia.
    + rewrite !length_app. simpl. lia.
    + rewrite length_app. simpl. lia.
Qed.

Lemma add_all_fresh (l : list (string * ref)) n h :
  length l ≤ n →
  add_all l (constructor n, h)
  = ({| _size := n; _fingerprints := Some <$> l.*1; _items := Some <$> l.*2;
        _index := length l mod n |}, h).
Proof.
  intros Hn. pose proof (add_all_fill l [] [] n h eq_refl Hn) as Hfill.
  simpl in Hfill. rewrite Nat.Div0.mod_0_l in Hfill. exact Hfill.
Qed.

Lemma add_all_app (l1 l2 : list (string * ref)) s :
  add_all (l1 ++ l2) s = add_all l2 (add_all l1 s).
Proof. unfold add_all. apply foldl_app. Qed.

(** C3. Starting from an empty cache of capacity [n], [n + 1] calls of [add]
    with pairwise distinct fingerprints call [release()] exactly once, on the
    artifact added first, and [match] on the first fingerprint then returns
    [undefined]. *)
Theorem eviction (n : nat) (l : list (string * ref)) (fp0 : string) (f0 : ref) (h : Heap) :
  0 < n → length l = S n → NoDup (l.*1) → head l = Some (fp0, f0) →
  let s' := add_all l (constructor n, h) in
  released (snd s') = released h ++ [f0] ∧
  match_ fp0 (fst s') = None.
Proof.
  intros Hn Hlen Hnd Hhead.
  destruct l as [|[fp f] l]; [done|]. simpl in Hhead. simplify_eq.
  simpl in Hlen. apply Nat.succ_inj in Hlen.
  induction l as [|[fpn fn] l' _] using rev_ind; [simpl in Hlen; lia|].
  rewrite length_app in Hlen. simpl in Hlen.
  assert (length ((fp0, f0) :: l') = n) as Hl1 by (simpl; lia).
  change ((fp0, f0) :: l' ++ [(fpn, fn)]) with (((fp0, f0) :: l') ++ [(fpn, fn)]) in *.
  intros s'. subst s'. rewrite add_all_app, add_all_fresh by lia.
  rewrite Hl1, Nat.Div0.mod_same. unfold add_all. simpl foldl.
  rewrite fmap_app in Hnd. simpl in Hnd.
  apply NoDup_cons in Hnd as [Hnin Hnd].
  unfold array_set. rewrite !decide_True by (simpl; lia). simpl.
  split; [done|].
  unfold match_. simpl.
  rewrite decide_False.
  - rewrite indexOf_None; [done|].
    intros Hin. apply list_elem_of_fmap in Hin as (x & [= <-] & Hin).
    apply Hnin. apply elem_of_app. by left.
  - intros [= ->]. apply Hnin. apply elem_of_app. right. by apply list_elem_of_singleton.
Qed.

(** Witness of C3: capacity 2, three additions. *)
Lemma eviction_witness :
  let h := {| files := [SvgFile.constructor "a" 1 1; SvgFile.constructor "b" 1 1;
                        SvgFile.constructor "c" 1 1];
              blobs := 0; revoked := []; released := [] |} in
  let s' := add_all [("0,1"%string, 0); ("1,0"%string, 1); ("1,1"%string, 2)]
                    (constructor 2, h) in
  released (snd s') = [0] ∧ match_ "0,1" (fst s') = None.
Proof.
  intros h s'.
  assert (NoDup ["0,1"%string; "1,0"%string; "1,1"%string]) as Hnd.
  { repeat (apply NoDup_cons; split; [set_solver|]). apply NoDup_nil_2. }
  assert (0 < 2) as Hn by lia.
  exact (eviction 2 [("0,1"%string, 0); ("1,0"%string, 1); ("1,1"%string, 2)]
           "0,1"%string 0 h Hn eq_refl Hnd eq_refl).
Defined.

(** Amended C9. [release()] revokes the artifact's blob URL when one was
    created and revokes nothing otherwise; it neither clears [_url] nor keeps
    a flag, so a second call revokes the same URL a second time.  [add] calls
    [release()] once, on the artifact it overwrites, and not at all on a free
    slot; [purge] empties the cache and calls nothing; the getter creates the
    URL once. *)
Theorem release_paths (f : ref) (h : Heap) :
  files (release f h) = files h ∧
  released (release f h) = released h ++ [f] ∧
  (∀ file, files h !! f = Some file → SvgFile._url file = None →
     revoked (release f h) = revoked h) ∧
  (∀ file u, files h !! f = Some file → SvgFile._url file = Some u →
     revoked (release f h) = revoked h ++ [u] ∧
     revoked (release f (release f h)) = revoked h ++ [u; u]) ∧
  (∀ file u, files h !! f = Some file → SvgFile._url file = Some u →
     get_url f h = (Some u, h)) ∧
  (∀ c fp g, array_get (_items c) (_index c) = Some f →
     snd (add fp g (c, h)) = release f h) ∧
  (∀ c fp g, array_get (_items c) (_index c) = None → snd (add fp g (c, h)) = h) ∧
  (∀ c fp, _items (purge c) = [] ∧ match_ fp (purge c) = None).
Proof.
  split_and!; try done.
  - intros file Hf Hu. unfold release. simpl. by rewrite Hf, Hu.
  - intros file u Hf Hu. unfold release. simpl. rewrite Hf, Hu.
    by rewrite <- (assoc_L (++)).
  - intros file u Hf Hu. unfold get_url. by rewrite Hf, Hu.
  - intros c fp g Hold. unfold add. by rewrite Hold.
  - intros c fp g Hold. unfold add. by rewrite Hold.
Qed.

(** Witness of the amended C9: an artifact whose URL was created, held by the
    slot under the cursor of a full cache of capacity 1. *)
Lemma release_paths_witness :
  let file := {| SvgFile.text := "<svg/>"; SvgFile._compressedSize := None;
                 SvgFile._url := Some 0; SvgFile.width := 1; SvgFile.height := 1 |} in
  let h := {| files := [file]; blobs := 1; revoked := []; released := [] |} in
  let c := {| _size := 1; _fingerprints := [Some "1"%string]; _items := [Some 0];
              _index := 0 |} in
  revoked (release 0 h) = [0] ∧
  revoked (release 0 (release 0 h)) = [0; 0] ∧
  get_url 0 h = (Some 0, h) ∧
  snd (add "0" 0 (c, h)) = release 0 h.
Proof.
  intros file h c.
  destruct (release_paths 0 h) as (_ & _ & _ & H2 & H3 & H4 & _ & _).
  destruct (H2 file 0 eq_refl eq_refl) as [H2a H2b].
  split_and!.
  - exact H2a.
  - exact H2b.
  - exact (H3 file 0 eq_refl eq_refl).
  - exact (H4 c "0"%string 0 eq_refl).
Defined.

(** C9 as stated fails: no flag guards [release()].  On an artifact whose
    URL has been created, two calls revoke that URL twice; and [purge] drops
    the artifact from its slot without a call of [release()]. *)
Lemma release_twice_revokes_twice :
  let h0 := {| files := []; blobs := 0; revoked := []; released := [] |} in
  let '(f, h1) := new_SvgFile "<svg/>" 1 1 h0 in
  let '(u, h2) := get_url f h1 in
  let '(c, h3) := add "a" f (constructor 10, h2) in
  u = Some 0 ∧ revoked (release f (release f h2)) = [0; 0] ∧
  match_ "a" c = Some f ∧ match_ "a" (purge c) = None ∧ released h3 = [].
Proof. done. Qed.
End ResultsCacheFacts.

(** ** Settings.getSettings: the fingerprint *)
Module SettingsFacts.
Import Settings.

(** What an input contributes to the [fingerprint] array. *)
Local Abbreviation global_pieces := (λ el : InputEl.t,
  if in_fingerprint el then
    [if is_checkbox el then Number (InputEl.checked el)
     else ("|" ++ InputEl.value el ++ "|")%string]
  else []).

Local Abbreviation global_option := (λ el : InputEl.t,
  if is_checkbox el then OBool (InputEl.checked el) else OString (InputEl.value el)).

Lemma foldl_global_step a l :
  acc_fingerprint (foldl global_step a l) = acc_fingerprint a ++ (l ≫= global_pieces) ∧
  acc_options (foldl global_step a l) =
    foldl (λ m el, <[InputEl.name el := global_option el]> m) (acc_options a) l ∧
  acc_plugins (foldl global_step a l) = acc_plugins a.
Proof.
  revert a. induction l as [|el l IH]; intros a; simpl.
  - by rewrite app_nil_r.
  - destruct (IH (global_step a el)) as (-> & -> & ->). simpl.
    split_and!; try done.
    destruct (in_fingerprint el); simpl; [by rewrite <- (assoc_L (++))|done].
Qed.

Lemma foldl_plugin_step a l :
  acc_fingerprint (foldl plugin_step a l) =
    acc_fingerprint a ++ ((λ el, Number (InputEl.checked el)) <$> l) ∧
  acc_options (foldl plugin_step a l) = acc_options a ∧
  acc_plugins (foldl plugin_step a l) =
    foldl (λ m el, <[InputEl.name el := InputEl.checked el]> m) (acc_plugins a) l.
Proof.
  revert a. induction l as [|el l IH]; intros a; simpl.
  - by rewrite app_nil_r.
  - destruct (IH (plugin_step a el)) as (-> & -> & ->). simpl.
    by rewrite <- (assoc_L (++)).
Qed.

Lemma getSettings_unfold this :
  fingerprint (getSettings this) =
    String.concat "," ((_globalInputs this ≫= global_pieces) ++
                       ((λ el, Number (InputEl.checked el)) <$> _pluginInputs this)) ∧
  options (getSettings this) =
    foldl (λ m el, <[InputEl.name el := global_option el]> m) ∅ (_globalInputs this) ∧
  plugins (getSettings this) =
    foldl (λ m el, <[InputEl.name el := InputEl.checked el]> m) ∅ (_pluginInputs this).
Proof.
  unfold getSettings. simpl.
  destruct (foldl_plugin_step
              (foldl global_step {| acc_fingerprint := []; acc_options := ∅;
                                    acc_plugins := ∅ |} (_globalInputs this))
              (_pluginInputs this)) as (-> & -> & ->).
  destruct (foldl_global_step {| acc_fingerprint := []; acc_options := ∅;
                                 acc_plugins := ∅ |} (_globalInputs this))
    as (-> & -> & ->).
  done.
Qed.

(** *** Strings without a comma and [join(',')] *)
Lemma comma_free_app s1 s2 :
  comma_free (s1 ++ s2) = comma_free s1 && comma_free s2.
Proof.
  induction s1 as [|c s1 IH]; simpl; [done|].
  rewrite IH. by rewrite andb_assoc.
Qed.

Lemma split_at_comma x1 x2 r1 r2 :
  comma_free x1 = true → comma_free x2 = true →
  (x1 ++ String "," r1 = x2 ++ String "," r2)%string →
  x1 = x2 ∧ r1 = r2.
Proof.
  revert x2. induction x1 as [|c x1 IH]; intros [|c2 x2] H1 H2 Heq; simpl in *.
  - by injection Heq as ->.
  - injection Heq as <- _. by rewrite Ascii.eqb_refl in H2.
  - injection Heq as -> _. by rewrite Ascii.eqb_refl in H1.
  - injection Heq as -> Heq.
    apply andb_true_iff in H1 as [_ H1]. apply andb_true_iff in H2 as [_ H2].
    by destruct (IH x2 H1 H2 Heq) as [-> ->].
Qed.

Lemma concat_comma_inj (l1 l2 : list string) :
  length l1 = length l2 →
  Forall (λ s, comma_free s = true) l1 → Forall (λ s, comma_free s = true) l2 →
  String.concat "," l1 = String.concat "," l2 → l1 = l2.
Proof.
  revert l2. induction l1 as [|x1 l1 IH]; intros [|x2 l2] Hlen H1 H2 Heq;
    simpl in Hlen; try done.
  apply Forall_cons in H1 as [Hx1 H1]. apply Forall_cons in H2 as [Hx2 H2].
  destruct l1 as [|y1 l1], l2 as [|y2 l2]; simpl in Hlen; try done.
  - simpl in Heq. by subst.
  - change (x1 ++ String "," (String.concat "," (y1 :: l1)) =
            x2 ++ String "," (String.concat "," (y2 :: l2)))%string in Heq.
    destruct (split_at_comma _ _ _ _ Hx1 Hx2 Heq) as [-> Hrest].
    f_equal. apply IH; try done. simpl; lia.
Qed.

Lemma Number_inj b1 b2 : Number b1 = Number b2 → b1 = b2.
Proof. by destruct b1, b2. Qed.

Lemma Number_comma_free b : comma_free (Number b) = true.
Proof. by destruct b. Qed.

Lemma bar_inj v1 v2 : ("|" ++ v1 ++ "|" = "|" ++ v2 ++ "|")%string → v1 = v2.
Proof.
  simpl. intros [= H]. revert v2 H.
  induction v1 as [|c v1 IH]; intros [|c2 v2] H; simpl in *; try done.
  - simplify_eq. by destruct v2.
  - simplify_eq. by destruct v1.
  - simplify_eq. f_equal. by apply IH.
Qed.

Lemma same_inputs_flags l1 l2 :
  same_inputs l1 l2 →
  Forall2 (λ a b, InputEl.name a = InputEl.name b ∧
                  in_fingerprint a = in_fingerprint b ∧ is_checkbox a = is_checkbox b) l1 l2.
Proof.
  unfold same_inputs. intros H. eapply Forall2_impl; [exact H|]. intros a b [Hn Ht].
  unfold in_fingerprint, is_checkbox. by rewrite Hn, Ht.
Qed.

Lemma global_pieces_length l1 l2 :
  same_inputs l1 l2 → length (l1 ≫= global_pieces) = length (l2 ≫= global_pieces).
Proof.
  intros H%same_inputs_flags. induction H as [|a b l1 l2 (_ & Hf & _) _ IH]; [done|].
  rewrite !bind_cons, !length_app, IH, <- Hf. by destruct (in_fingerprint a).
Qed.

Lemma global_pieces_comma_free l :
  Forall (λ el, in_fingerprint el = true → is_checkbox el = false →
                comma_free (InputEl.value el) = true) l →
  Forall (λ s, comma_free s = true) (l ≫= global_pieces).
Proof.
  induction 1 as [|el l Hel _ IH]; [constructor|].
  rewrite bind_cons. apply Forall_app. split; [|done].
  destruct (in_fingerprint el) eqn:Hin; [|constructor].
  repeat constructor. destruct (is_checkbox el) eqn:Hc.
  - apply Number_comma_free.
  - rewrite !comma_free_app, Hel by done. done.
Qed.

(** Equal contributions mean equal options, input by input. *)
Lemma global_pieces_agree l1 l2 :
  same_inputs l1 l2 →
  l1 ≫= global_pieces = l2 ≫= global_pieces →
  Forall2 (λ a b, InputEl.name a = InputEl.name b ∧
                  (in_fingerprint a = true → global_option a = global_option b)) l1 l2.
Proof.
  intros H%same_inputs_flags. induction H as [|a b l1 l2 (Hn & Hf & Hc) _ IH]; [constructor|].
  rewrite !bind_cons, <- Hf, <- Hc. intros Heq.
  destruct (in_fingerprint a) eqn:Hin; simpl in Heq.
  - injection Heq as Hpiece Hrest. constructor; [|by apply IH].
    split; [done|]. intros _. rewrite <- Hc. destruct (is_checkbox a).
    + by rewrite (Number_inj _ _ Hpiece).
    + by rewrite (bar_inj _ _ Hpiece).
  - constructor; [|by apply IH]. split; [done|]. intros Hin'. congruence.
Qed.

Lemma options_agree l1 l2 (m1 m2 : gmap string OptionValue) n :
  Forall2 (λ a b, InputEl.name a = InputEl.name b ∧
                  (in_fingerprint a = true → global_option a = global_option b)) l1 l2 →
  n ≠ "gzip"%string → n ≠ "original"%string →
  m1 !! n = m2 !! n →
  foldl (λ m el, <[InputEl.name el := global_option el]> m) m1 l1 !! n =
  foldl (λ m el, <[InputEl.name el := global_option el]> m) m2 l2 !! n.
Proof.
  intros H Hg Ho. revert m1 m2.
  induction H as [|a b l1 l2 [Hn Hv] _ IH]; intros m1 m2 Hm; simpl; [done|].
  apply IH. rewrite <- Hn.
  destruct (decide (InputEl.name a = n)) as [Hna|Hna].
  - rewrite Hna, !lookup_insert_eq. rewrite Hv; [done|].
    unfold in_fingerprint. rewrite Hna.
    apply andb_true_iff. split; apply negb_true_iff, String.eqb_neq; done.
  - by rewrite !lookup_insert_ne.
Qed.

Lemma plugins_agree l1 l2 (m : gmap string bool) :
  same_inputs l1 l2 →
  (λ el, Number (InputEl.checked el)) <$> l1 = (λ el, Number (InputEl.checked el)) <$> l2 →
  foldl (λ m el, <[InputEl.name el := InputEl.checked el]> m) m l1 =
  foldl (λ m el, <[InputEl.name el := InputEl.checked el]> m) m l2.
Proof.
  intros H. revert m. induction H as [|a b l1 l2 [Hn _] _ IH]; intros m Heq; simpl; [done|].
  simpl in Heq. injection Heq as Hc Hrest. apply Number_inj in Hc.
  rewrite Hn, Hc. by apply IH.
Qed.

(** The values of the page's form hold no comma. *)
Lemma numeric_comma_free s : numeric s = true → comma_free s = true.
Proof.
  induction s as [|c s IH]; [done|]. cbn [numeric comma_free].
  intros [Hc Hs]%andb_true_iff. rewrite IH by done.
  destruct (Ascii.eqb_spec c ","%char) as [->|]; [|done]. by vm_compute in Hc.
Qed.

Lemma page_form_comma_free this : page_form this → comma_free_values this.
Proof.
  unfold page_form, comma_free_values. intros Hform.
  eapply Forall_impl; [exact Hform|].
  intros el [Hc|[_ Hn]] _ Hnc; [congruence|]. by apply numeric_comma_free.
Qed.

(** C7. Equal fingerprints imply that the two settings objects have the same
    [plugins] and the same value for every global option other than [gzip]
    and [original], the two that do not affect the compression.  The two
    objects are read from the settings form in two of its states; the values
    that enter the fingerprint hold no comma, as the numbers of the form's
    range inputs do not. *)
Theorem fingerprint_injective (s1 s2 : Settings.t) :
  same_form s1 s2 → comma_free_values s1 → comma_free_values s2 →
  fingerprint (getSettings s1) = fingerprint (getSettings s2) →
  plugins (getSettings s1) = plugins (getSettings s2) ∧
  ∀ n, n ≠ "gzip"%string → n ≠ "original"%string →
       options (getSettings s1) !! n = options (getSettings s2) !! n.
Proof.
  intros [Hg Hp] Hc1 Hc2.
  destruct (getSettings_unfold s1) as (-> & -> & ->).
  destruct (getSettings_unfold s2) as (-> & -> & ->).
  intros Heq. apply concat_comma_inj in Heq.
  - apply app_inj_1 in Heq as [Hgl Hpl]; [|by apply global_pieces_length].
    split.
    + by apply plugins_agree.
    + intros n Hn1 Hn2. apply options_agree; try done.
      by apply global_pieces_agree.
  - rewrite !length_app, !length_fmap.
    rewrite (global_pieces_length _ _ Hg). f_equal. by eapply Forall2_length.
  - apply Forall_app. split; [by apply global_pieces_comma_free|].
    apply Forall_fmap, Forall_forall. intros el _. apply Number_comma_free.
  - apply Forall_app. split; [by apply global_pieces_comma_free|].
    apply Forall_fmap, Forall_forall. intros el _. apply Number_comma_free.
Qed.

(** C8. The fingerprint is a function of the state of the inputs, and two
    states that differ only in the inputs named [gzip] and [original] have the
    same fingerprint. *)
Theorem fingerprint_presentation (s1 s2 : Settings.t) :
  (s1 = s2 → fingerprint (getSettings s1) = fingerprint (getSettings s2)) ∧
  (presentation_only s1 s2 → fingerprint (getSettings s1) = fingerprint (getSettings s2)).
Proof.
  split; [by intros ->|]. intros [Hg Hp].
  destruct (getSettings_unfold s1) as (-> & _).
  destruct (getSettings_unfold s2) as (-> & _).
  rewrite Hp. f_equal. f_equal.
  induction Hg as [|a b l1 l2 [Hn Hab] _ IH]; [done|].
  rewrite !bind_cons, IH. f_equal.
  destruct Hab as [Hout| ->]; [|done].
  assert (in_fingerprint b = false) as ->.
  { unfold in_fingerprint in *. by rewrite <- Hn. }
  by rewrite Hout.
Qed.

(** Witness of C7: two states of the page's form with equal fingerprints,
    differing in "show original" only. *)
Lemma fingerprint_injective_witness :
  let inputs := λ original : bool,
    {| _globalInputs :=
         [ {| InputEl.name := "original"; InputEl.type := "checkbox";
              InputEl.checked := original; InputEl.value := "on" |};
           {| InputEl.name := "pretty"; InputEl.type := "checkbox";
              InputEl.checked := false; InputEl.value := "on" |};
           {| InputEl.name := "floatPrecision"; InputEl.type := "range";
              InputEl.checked := false; InputEl.value := "3" |} ];
       _pluginInputs :=
         [ {| InputEl.name := "removeDoctype"; InputEl.type := "checkbox";
              InputEl.checked := true; InputEl.value := "on" |} ] |} in
  fingerprint (getSettings (inputs true)) = "0,|3|,1"%string ∧
  plugins (getSettings (inputs true)) = plugins (getSettings (inputs false)) ∧
  options (getSettings (inputs true)) !! "floatPrecision"%string =
    options (getSettings (inputs false)) !! "floatPrecision"%string.
Proof.
  intros inputs.
  assert (same_form (inputs true) (inputs false)) as Hform.
  { split; repeat constructor. }
  assert (∀ o, comma_free_values (inputs o)) as Hcf.
  { intros o. apply page_form_comma_free. repeat constructor; (by left) || (by right). }
  destruct (fingerprint_injective (inputs true) (inputs false) Hform (Hcf true) (Hcf false)
              eq_refl) as [Hp Ho].
  split_and!.
  - reflexivity.
  - exact Hp.
  - apply Ho; done.
Defined.

(** The hypothesis on the values cannot be dropped.  Were two global inputs
    free-text fields, which the page's form does not have, values split
    differently around the separator would give one fingerprint to two
    different settings. *)
Lemma fingerprint_collision :
  let inputs := λ v1 v2 : string,
    {| _globalInputs :=
         [ {| InputEl.name := "prefix"; InputEl.type := "text";
              InputEl.checked := false; InputEl.value := v1 |};
           {| InputEl.name := "suffix"; InputEl.type := "text";
              InputEl.checked := false; InputEl.value := v2 |} ];
       _pluginInputs := [] |} in
  let s1 := inputs "x|,|y"%string "z"%string in
  let s2 := inputs "x"%string "y|,|z"%string in
  same_form s1 s2 ∧
  fingerprint (getSettings s1) = fingerprint (getSettings s2) ∧
  options (getSettings s1) !! "prefix"%string ≠ options (getSettings s2) !! "prefix"%string.
Proof.
  intros inputs s1 s2. split_and!.
  - split; repeat constructor.
  - reflexivity.
  - vm_compute. discriminate.
Qed.

(** Witness of C8: toggling "show original" and "gzip" on the page's form. *)
Lemma fingerprint_presentation_witness :
  let inputs := λ original gzip : bool,
    {| _globalInputs :=
         [ {| InputEl.name := "original"; InputEl.type := "checkbox";
              InputEl.checked := original; InputEl.value := "on" |};
           {| InputEl.name := "gzip"; InputEl.type := "checkbox";
              InputEl.checked := gzip; InputEl.value := "on" |};
           {| InputEl.name := "floatPrecision"; InputEl.type := "range";
              InputEl.checked := false; InputEl.value := "3" |} ];
       _pluginInputs :=
         [ {| InputEl.name := "removeDoctype"; InputEl.type := "checkbox";
              InputEl.checked := true; InputEl.value := "on" |} ] |} in
  fingerprint (getSettings (inputs true false)) = fingerprint (getSettings (inputs false true)).
Proof.
  intros inputs.
  apply (fingerprint_presentation (inputs true false) (inputs false true)).
  split; [|done].
  repeat constructor; (by left) || (by right).
Defined.
End SettingsFacts.
(** ** Pages: promises, memoized sizes and the microtask checkpoint *)
Module PageFacts.
Import WorkerMessengerFacts MainController.

Lemma length_snoc {A} (l : list A) x : length (l ++ [x]) = S (length l).
Proof. rewrite length_app. simpl. lia. Qed.

Lemma lookup_snoc_eq {A} (l : list A) x i : i = length l → (l ++ [x]) !! i = Some x.
Proof. intros ->. by apply list_lookup_middle. Qed.

Lemma lookup_snoc_lt {A} (l : list A) x i : i < length l → (l ++ [x]) !! i = l !! i.
Proof. intros Hi. by apply lookup_app_l. Qed.

Lemma insert_snoc_eq {A} (l : list A) x y i :
  i = length l → <[i := y]> (l ++ [x]) = l ++ [y].
Proof.
  intros ->. rewrite insert_app_r_alt by lia. by rewrite Nat.sub_diag.
Qed.

Lemma subscribe_settled {K} (b : Browser K) p k o :
  promises b !! p = Some (Settled o) → subscribe p k b = enqueue [(k, o)] b.
Proof. intros Hp. unfold subscribe. by rewrite Hp. Qed.

Lemma subscribe_pending {K} (b : Browser K) p k ks :
  promises b !! p = Some (Pending ks) →
  subscribe p k b = set_promises (λ ps, <[p := Pending (ks ++ [k])]> ps) b.
Proof. intros Hp. unfold subscribe. by rewrite Hp. Qed.

Lemma settle_pending_eq {K} (b : Browser K) p o ks :
  promises b !! p = Some (Pending ks) →
  settle p o b = enqueue (map (λ k, (k, o)) ks) (set_promises (λ ps, <[p := Settled o]> ps) b).
Proof. intros Hp. unfold settle. by rewrite Hp. Qed.

(** Lookups in a promise store built by appending and updating. *)
Ltac len := rewrite ?length_snoc, ?length_insert.
Ltac side := len; simpl; lia.
Ltac look :=
  first [ rewrite lookup_snoc_eq by side
        | rewrite lookup_snoc_lt by side
        | rewrite list_lookup_insert_eq by side
        | rewrite list_lookup_insert_ne by side ].

Ltac ins := repeat first [rewrite insert_snoc_eq by side | rewrite insert_app_l by side].

(** Projections of an updated page. *)
Ltac pnorm :=
  unfold flushed, log_gzip, with_browser, with_heap, with_svgo, with_gzip, with_currentJob,
    pop_microtask, set_promises, set_microtasks, enqueue, new_promise, postMessage,
    new_worker, terminate, console_log;
  cbn [browser heap gzip svgo _currentJob _inputItem _cache _latestCompressJobId
       updates cached toasts cycles gzipped promises microtasks spawned terminated posted console
       files blobs revoked released fst snd WorkerMessenger._requestId
       WorkerMessenger._pending WorkerMessenger._worker].

Ltac pnorm_in H :=
  unfold flushed, log_gzip, with_browser, with_heap, with_svgo, with_gzip, with_currentJob,
    pop_microtask, set_promises, set_microtasks, enqueue, new_promise, postMessage,
    new_worker, terminate, console_log in H;
  cbn [browser heap gzip svgo _currentJob _inputItem _cache _latestCompressJobId
       updates cached toasts cycles gzipped promises microtasks spawned terminated posted console
       files blobs revoked released fst snd WorkerMessenger._requestId
       WorkerMessenger._pending WorkerMessenger._worker] in H.

#[local] Arguments drain {_} _ _ : simpl never.
#[local] Arguments load _ : simpl never.

Section Growth.
(** *** Settled promises stay settled *)
Lemma promises_grow_refl {K} (b : Browser K) : promises_grow b b.
Proof. by intros p o. Qed.

Lemma promises_grow_trans {K} (b1 b2 b3 : Browser K) :
  promises_grow b1 b2 → promises_grow b2 b3 → promises_grow b1 b3.
Proof. intros H12 H23 p o Hp. by apply H23, H12. Qed.

Lemma promises_grow_same {K} (b b' : Browser K) :
  promises b' = promises b → promises_grow b b'.
Proof. intros Heq p o. by rewrite Heq. Qed.

Lemma settle_grows {K} (b : Browser K) p o : promises_grow b (settle p o b).
Proof. intros q o'. apply settle_settled. Qed.

Lemma subscribe_grows {K} (b : Browser K) p k : promises_grow b (subscribe p k b).
Proof.
  intros q o Hq. unfold subscribe.
  destruct (promises b !! p) as [[ks|o']|] eqn:Hp; simpl; try done.
  rewrite list_lookup_insert_ne; [done|]. intros ->. congruence.
Qed.

Lemma new_promise_grows {K} (b : Browser K) : promises_grow b (new_promise b).2.
Proof. intros q o Hq. simpl. by apply lookup_app_l_Some. Qed.

Lemma abort_grows {K} this (b : Browser K) : promises_grow b (WorkerMessenger.abort (this, b)).2.
Proof.
  intros q o Hq. unfold WorkerMessenger.abort. simpl. case_decide; [done|].
  pose proof (_abortPending_spec this b) as Hspec. simpl in Hspec.
  destruct (WorkerMessenger._abortPending (this, b)) as [this1 b1]. simpl in Hspec.
  destruct Hspec as (_ & _ & _ & _ & _ & _ & _ & Hkeep).
  unfold WorkerMessenger._startWorker, new_worker. simpl.
  destruct (WorkerMessenger._worker this1); simpl; eauto.
Qed.

Lemma _onMessage_grows {K} data this (b : Browser K) :
  promises_grow b (WorkerMessenger._onMessage data (this, b)).2.
Proof.
  intros q o Hq. unfold WorkerMessenger._onMessage.
  destruct (msg_id data) as [[|id]|]; simpl; try done.
  unfold WorkerMessenger._fulfillPending. destruct (WorkerMessenger._pending this !! _); simpl; [|done].
  destruct (WorkerMessenger.error_of data); simpl; by apply settle_settled.
Qed.

Lemma requestResponse_grows {K} action settings data this (b : Browser K) :
  promises_grow b (WorkerMessenger.requestResponse action settings data (this, b)).2.2.
Proof.
  intros q o Hq. rewrite requestResponse_spec. simpl. by apply lookup_app_l_Some.
Qed.

(** *** Memoized sizes stay memoized *)
Lemma memos_grow_refl h : memos_grow h h.
Proof. by intros f m. Qed.

Lemma memos_grow_trans h1 h2 h3 : memos_grow h1 h2 → memos_grow h2 h3 → memos_grow h1 h3.
Proof. intros H12 H23 f m Hm. by apply H23, H12. Qed.

Lemma new_SvgFile_grows text w ht h : memos_grow h (new_SvgFile text w ht h).2.
Proof.
  intros f m. unfold memo. simpl. intros Hm.
  destruct (files h !! f) as [file|] eqn:Hf; [|done].
  by rewrite (lookup_app_l_Some _ _ _ _ Hf).
Qed.

Lemma get_url_grows f h : memos_grow h (get_url f h).2.
Proof.
  intros g m. unfold get_url.
  destruct (files h !! f) as [file|] eqn:Hf; [|done].
  destruct (SvgFile._url file); [done|]. unfold memo. simpl.
  destruct (decide (f = g)) as [->|Hne].
  - rewrite Hf, list_lookup_insert_eq by (by eapply lookup_lt_Some). done.
  - by rewrite list_lookup_insert_ne.
Qed.

Lemma release_grows f h : memos_grow h (release f h).
Proof. by intros g m. Qed.

Lemma add_grows fp f c h : memos_grow h (ResultsCache.add fp f (c, h)).2.
Proof.
  unfold ResultsCache.add. destruct (array_get _ _); simpl;
    [apply release_grows|apply memos_grow_refl].
Qed.

Lemma set_compressedSize_grows f file m h :
  files h !! f = Some file → SvgFile._compressedSize file = None →
  memos_grow h (set_compressedSize f file m h).
Proof.
  intros Hf Hnone g m'. unfold memo, set_compressedSize. simpl.
  destruct (decide (f = g)) as [->|Hne].
  - by rewrite Hf; simpl; rewrite Hnone.
  - by rewrite list_lookup_insert_ne.
Qed.

(** *** Requests to gzip are made once per file *)
Lemma requests_same pg pg' : gzipped pg' = gzipped pg → requests_grow pg pg'.
Proof. intros Heq f. unfold gzip_requests. rewrite Heq. split_and!; [lia|lia|done|done]. Qed.

Lemma requests_one f pg pg' :
  gzipped pg' = gzipped pg ++ [f] → memo f (heap pg) = None → is_Some (memo f (heap pg')) →
  requests_grow pg pg'.
Proof.
  intros Heq Hnone Hsome g. unfold gzip_requests. rewrite Heq, filter_app, length_app.
  destruct (decide (f = g)) as [->|Hne].
  - rewrite filter_cons_True by done. simpl. split_and!; [lia|lia| |done].
    intros [m Hm]. congruence.
  - rewrite filter_cons_False by done. simpl. split_and!; [lia|lia|intros; lia|lia].
Qed.

Lemma requests_grow_trans pg1 pg2 pg3 :
  memos_grow (heap pg1) (heap pg2) → memos_grow (heap pg2) (heap pg3) →
  requests_grow pg1 pg2 → requests_grow pg2 pg3 → requests_grow pg1 pg3.
Proof.
  intros Hm12 Hm23 H12 H23 f.
  destruct (H12 f) as (Ha & Hb & Hc & Hd), (H23 f) as (Ha' & Hb' & Hc' & Hd').
  assert (∀ pg pg', memos_grow (heap pg) (heap pg') →
                    is_Some (memo f (heap pg)) → is_Some (memo f (heap pg'))) as Hkeep.
  { intros pg pg' Hm [m Hf]. exists m. by apply Hm. }
  destruct (decide (gzip_requests f pg2 = gzip_requests f pg1)) as [Heq|Hne].
  - split_and!; [lia|lia| |].
    + intros Hs. rewrite Hc' by eauto. by apply Hc.
    + intros Hne. apply Hd'. lia.
  - specialize (Hd Hne). specialize (Hc' Hd). split_and!; [lia|lia| |].
    + intros Hs. specialize (Hc Hs). lia.
    + intros _. eauto.
Qed.

(** *** Every step of the page preserves the three *)
Lemma grows_refl pg : grows pg pg.
Proof. split_and!; [apply promises_grow_refl|apply memos_grow_refl|by apply requests_same]. Qed.

Lemma grows_trans pg1 pg2 pg3 : grows pg1 pg2 → grows pg2 pg3 → grows pg1 pg3.
Proof.
  intros (? & ? & ?) (? & ? & ?).
  split_and!; [by eapply promises_grow_trans|by eapply memos_grow_trans|
               by eapply requests_grow_trans].
Qed.

Lemma grows_parts pg pg' :
  promises_grow (browser pg) (browser pg') → memos_grow (heap pg) (heap pg') →
  gzipped pg' = gzipped pg → grows pg pg'.
Proof. intros. split_and!; [done|done|by apply requests_same]. Qed.

Lemma grows_browser pg pg' :
  promises_grow (browser pg) (browser pg') → heap pg' = heap pg →
  gzipped pg' = gzipped pg → grows pg pg'.
Proof. intros Hb Hh Hg. apply grows_parts; [done| |done]. rewrite Hh. apply memos_grow_refl. Qed.
End Growth.

(** Goals [promises_grow b b'] where [b'] is built from [b] by the
    operations of the promise store. *)
Ltac pgrow :=
  first
    [ assumption
    | apply promises_grow_refl
    | lazymatch goal with
      | |- promises_grow _ (settle _ _ _) =>
          eapply promises_grow_trans; [|apply settle_grows]; pgrow
      | |- promises_grow _ (subscribe _ _ _) =>
          eapply promises_grow_trans; [|apply subscribe_grows]; pgrow
      | |- promises_grow _ (enqueue _ ?b) =>
          apply promises_grow_trans with b; [pgrow|apply promises_grow_same; reflexivity]
      | |- promises_grow _ (set_microtasks _ ?b) =>
          apply promises_grow_trans with b; [pgrow|apply promises_grow_same; reflexivity]
      | |- promises_grow _ (pop_microtask ?b) =>
          apply promises_grow_trans with b; [pgrow|apply promises_grow_same; reflexivity]
      | |- promises_grow _ (postMessage _ _ ?b) =>
          apply promises_grow_trans with b; [pgrow|apply promises_grow_same; reflexivity]
      | |- promises_grow _ (console_log ?b) =>
          apply promises_grow_trans with b; [pgrow|apply promises_grow_same; reflexivity]
      | |- promises_grow _ (snd (new_promise _)) =>
          eapply promises_grow_trans; [|apply new_promise_grows]; pgrow
      | |- promises_grow _ (snd (WorkerMessenger.abort (_, _))) =>
          eapply promises_grow_trans; [|apply abort_grows]; pgrow
      | |- promises_grow _ (snd (WorkerMessenger._onMessage _ (_, _))) =>
          eapply promises_grow_trans; [|apply _onMessage_grows]; pgrow
      | |- promises_grow _ (snd (snd (WorkerMessenger.requestResponse _ _ _ (_, _)))) =>
          eapply promises_grow_trans; [|apply requestResponse_grows]; pgrow
      | H : promises_grow ?b1 ?b2 |- promises_grow _ ?b2 =>
          eapply promises_grow_trans; [|exact H]; pgrow
      | H : grows ?pg1 ?pg2 |- promises_grow _ (browser ?pg2) =>
          eapply promises_grow_trans; [|exact (proj1 H)]; pgrow
      end ].

Ltac pside :=
  cbn [browser heap with_browser with_heap with_gzip with_svgo with_currentJob fst snd].

(** Turns [let '(x, y) := e in ...] into projections of [e]. *)
Ltac unlet :=
  repeat match goal with
         | |- context [let '(_, _) := ?e in _] => rewrite (surjective_pairing e)
         end.

Section Pages.
Context `{!Cleanup}.

Lemma drain_step fuel pg k o Q :
  microtasks (browser pg) = (k, o) :: Q →
  drain (S fuel) pg = drain fuel (run_reaction k o (with_browser pop_microtask pg)).
Proof. intros Hq. simpl. unfold drain. by rewrite Hq. Qed.

Lemma drain_done fuel pg : quiescent pg → drain fuel pg = pg.
Proof. unfold quiescent. intros Hq. destruct fuel; [done|]. unfold drain. by rewrite Hq. Qed.

Lemma drain_pop fuel pg k o Q :
  microtasks (browser pg) = (k, o) :: Q → 0 < fuel →
  drain fuel pg = drain (pred fuel) (run_reaction k o (with_browser pop_microtask pg)).
Proof. intros Hq Hfuel. destruct fuel; [lia|]. by eapply drain_step. Qed.

(** [size({ compress: false })], in full. *)
Lemma size_plain f file pg :
  files (heap pg) !! f = Some file →
  size f false pg =
    (length (promises (browser pg)),
     with_browser
       (set_promises (λ ps, ps ++ [Settled (Fulfilled (VNumber (text_length file)))])) pg).
Proof.
  intros Hf. unfold size. pnorm. rewrite Hf. cbn [negb]. f_equal.
  erewrite settle_pending_eq by (pnorm; look; done).
  pnorm. ins. by rewrite app_nil_r.
Qed.

(** [size({ compress: true })] once the size is memoized. *)
Lemma size_memo f file m pg :
  files (heap pg) !! f = Some file → SvgFile._compressedSize file = Some m →
  size f true pg =
    (length (promises (browser pg)),
     with_browser (λ b, subscribe m (KReturn (length (promises b))) (new_promise b).2) pg).
Proof. intros Hf Hm. unfold size. pnorm. by rewrite Hf, Hm. Qed.

(** [size({ compress: true })] the first time. *)
Lemma size_fresh f file pg :
  files (heap pg) !! f = Some file → SvgFile._compressedSize file = None →
  let n := length (promises (browser pg)) in
  let id := (WorkerMessenger._requestId (gzip pg) + 1)%N in
  let w := default (spawned (browser pg)) (WorkerMessenger._worker (gzip pg)) in
  size f true pg =
    (n,
     {| browser :=
          {| promises := promises (browser pg) ++
                         [Pending []; Pending [KByteLength (S (S n))]; Pending [KReturn n]];
             microtasks := microtasks (browser pg);
             spawned := if WorkerMessenger._worker (gzip pg) is Some _ then spawned (browser pg)
                        else S (spawned (browser pg));
             terminated := terminated (browser pg);
             posted := posted (browser pg) ++
                       [(w, {| req_id := id; req_action := None; req_settings := None;
                               req_data := SvgFile.text file |})];
             console := console (browser pg) |};
        heap := set_compressedSize f file (S (S n)) (heap pg);
        gzip := {| WorkerMessenger._requestId := id;
                   WorkerMessenger._pending := <[id := S n]> (WorkerMessenger._pending (gzip pg));
                   WorkerMessenger._worker := Some w |};
        svgo := svgo pg; _currentJob := _currentJob pg; _inputItem := _inputItem pg;
        _cache := _cache pg; _latestCompressJobId := _latestCompressJobId pg;
        updates := updates pg; cached := cached pg; toasts := toasts pg;
        cycles := cycles pg; gzipped := gzipped pg ++ [f] |}).
Proof.
  intros Hf Hm. cbv zeta. unfold size. pnorm. rewrite Hf, Hm. cbn [negb].
  unfold Gzip.compress. rewrite requestResponse_spec. pnorm. len.
  set (n := length (promises (browser pg))).
  rewrite (subscribe_pending _ (S n) _ []) by (pnorm; repeat look; done). pnorm.
  rewrite (subscribe_pending _ (S (S n)) _ []) by (pnorm; repeat look; done). pnorm.
  do 3 f_equal. subst n. ins. simpl.
  rewrite insert_snoc_eq by (rewrite length_insert, !length_snoc; lia).
  rewrite insert_snoc_eq by side. by rewrite <- !app_assoc.
Qed.

(** [size] without a file to call it on. *)
Lemma size_missing f compress pg :
  files (heap pg) !! f = None →
  size f compress pg =
    (length (promises (browser pg)), with_browser (λ b, (new_promise b).2) pg).
Proof. intros Hf. unfold size. pnorm. by rewrite Hf. Qed.

Lemma subscribe_posted {K} (b : Browser K) p k : posted (subscribe p k b) = posted b.
Proof. unfold subscribe. by destruct (promises b !! p) as [[]|]. Qed.

Lemma memo_inv f m h :
  memo f h = Some m →
  ∃ file, files h !! f = Some file ∧ SvgFile._compressedSize file = Some m.
Proof. unfold memo. destruct (files h !! f) as [file|]; [|done]. by exists file. Qed.

Lemma memo_set f file m h :
  files h !! f = Some file → memo f (set_compressedSize f file m h) = Some m.
Proof.
  intros Hf. unfold memo, set_compressedSize. cbn [files].
  by rewrite list_lookup_insert_eq by (by eapply lookup_lt_Some).
Qed.

(** *** Growth along the functions of the page *)
Lemma grows_size f compress pg : grows pg (size f compress pg).2.
Proof.
  destruct (files (heap pg) !! f) as [file|] eqn:Hf.
  2:{ rewrite (size_missing _ _ _ Hf). apply grows_browser; [pside; pgrow|done|done]. }
  destruct compress.
  2:{ rewrite (size_plain _ _ _ Hf). apply grows_browser; [|done|done].
      intros p o Hp. pnorm. by apply lookup_app_l_Some. }
  destruct (SvgFile._compressedSize file) as [m|] eqn:Hm.
  { rewrite (size_memo _ _ _ _ Hf Hm). apply grows_browser; [pside; pgrow|done|done]. }
  rewrite (size_fresh _ _ _ Hf Hm). cbn [snd]. split_and!.
  - intros p o Hp. pnorm. by apply lookup_app_l_Some.
  - pnorm. by apply set_compressedSize_grows.
  - apply (requests_one f); [done| |].
    + unfold memo. by rewrite Hf.
    + pnorm. rewrite (memo_set _ _ _ _ Hf). by eexists.
Qed.

Lemma grows_subscribed p k pg pg' :
  grows pg pg' → grows pg (with_browser (subscribe p k) pg').
Proof.
  intros Hg. eapply grows_trans; [exact Hg|].
  apply grows_browser; [pside; pgrow|done|done].
Qed.

Lemma grows_update_size f z pg : grows pg (update_size f z pg).
Proof.
  destruct f as [f|]; [|apply grows_refl]. unfold update_size. unlet.
  apply grows_subscribed, grows_size.
Qed.

Lemma grows__updateForFile c f g z pg : grows pg (_updateForFile c f g z pg).
Proof.
  unfold _updateForFile. cbv zeta.
  match goal with
  | |- grows _ (match g with Some _ => _ | None => update_size _ _ ?x end) =>
      set (shown := x)
  end.
  assert (grows pg shown) as Hshown.
  { apply grows_parts; [apply promises_grow_refl| |done]. subst shown. cbn [heap].
    destruct f; [apply get_url_grows|apply memos_grow_refl]. }
  eapply grows_trans; [exact Hshown|].
  destruct g as [g|]; [|apply grows_update_size]. unlet.
  apply grows_subscribed, grows_size.
Qed.

Lemma grows_abort pg : grows pg (Svgo.abort pg).
Proof. apply grows_browser; [simpl; pgrow|done|done]. Qed.

Lemma grows_process text settings pg : grows pg (Svgo.process text settings pg).2.
Proof.
  pose proof (grows_abort pg) as (Ha & _ & _).
  unfold Svgo.process. unlet. cbn [fst snd].
  apply grows_browser; [|done|done].
  cbn [browser with_currentJob with_browser]. pgrow.
Qed.

Lemma grows_process_request text settings job pg :
  grows pg (Svgo.process_request text settings job pg).
Proof.
  unfold Svgo.process_request. unlet.
  apply grows_browser; [|done|done].
  cbn [browser with_browser with_svgo fst snd]. pgrow.
Qed.

Lemma grows_process_result job o pg : grows pg (Svgo.process_result job o pg).
Proof.
  unfold Svgo.process_result, Svgo.process_outcome.
  destruct o as [[]|]; unlet; (apply grows_parts; [pside; pgrow| |done]);
    try apply memos_grow_refl.
  apply new_SvgFile_grows.
Qed.

Lemma grows_cache_add c fp f pg : grows pg (cache_add c fp f pg).
Proof.
  unfold cache_add. unlet.
  apply grows_parts; [apply promises_grow_refl| |done]. cbn [heap]. apply add_grows.
Qed.

Lemma grows_compress_catch e pg : grows pg (compress_catch e pg).
Proof.
  unfold compress_catch. case_decide; [apply grows_refl|].
  apply grows_browser; [pside; pgrow|done|done].
Qed.

Lemma grows_compress_finish c settings f pg : grows pg (compress_finish c settings f pg).
Proof.
  unfold compress_finish. eapply grows_trans; [|apply grows_cache_add].
  apply grows__updateForFile.
Qed.

Lemma grows_start_pass x settings k pg : grows pg (start_pass x settings k pg).
Proof.
  unfold start_pass. destruct x as [text|e]; [|apply grows_compress_catch].
  unlet. apply grows_subscribed, grows_process.
Qed.

Lemma grows_compress_resume c t settings pg : grows pg (compress_resume c t settings pg).
Proof.
  unfold compress_resume. case_decide; [apply grows_refl|].
  destruct (original settings); [apply grows__updateForFile|].
  destruct (ResultsCache.match_ _ _); [apply grows__updateForFile|].
  apply grows_start_pass.
Qed.

Lemma grows_compress_pass1 c t settings o pg : grows pg (compress_pass1 c t settings o pg).
Proof.
  unfold compress_pass1. destruct o as [[]|]; try apply grows_compress_catch.
  destruct (_ || _); [apply grows_start_pass|apply grows_compress_finish].
Qed.

Lemma grows_compress_pass2 c t settings o pg : grows pg (compress_pass2 c t settings o pg).
Proof.
  unfold compress_pass2. destruct o as [[]|]; try apply grows_compress_catch.
  apply grows_compress_finish.
Qed.

Lemma grows__compressSvg settings r pg : grows pg (_compressSvg settings r pg).
Proof.
  unfold _compressSvg. cbv zeta.
  match goal with |- context [Svgo.abort ?x] => set (started := x) end.
  apply grows_trans with started; [by apply grows_browser; [apply promises_grow_refl|..]|].
  eapply grows_trans; [apply grows_abort|].
  apply grows_browser; [pside; pgrow|done|done].
Qed.

Lemma grows_run_reaction k o pg : grows pg (run_reaction k o pg).
Proof.
  destruct k; simpl.
  - apply grows_browser; [pside; pgrow|done|done].
  - destruct o; [apply grows_process_request|].
    apply grows_browser; [pside; pgrow|done|done].
  - apply grows_process_result.
  - apply grows_browser; [pside; pgrow|done|done].
  - apply grows_browser; [pside; pgrow|done|done].
  - apply grows_compress_resume.
  - apply grows_compress_pass1.
  - apply grows_compress_pass2.
  - destruct o; [apply grows_update_size|apply grows_refl].
  - apply grows_refl.
Qed.

Lemma grows_drain fuel pg : grows pg (drain fuel pg).
Proof.
  revert pg. induction fuel as [|fuel IH]; intros pg; [apply grows_refl|].
  unfold drain. fold (drain fuel).
  destruct (microtasks (browser pg)) as [|[k o] Q]; [apply grows_refl|].
  eapply grows_trans; [|apply IH].
  eapply grows_trans; [|apply grows_run_reaction].
  apply grows_browser; [pside; pgrow|done|done].
Qed.

Lemma grows_handle ev pg : grows pg (handle ev pg).
Proof.
  destruct ev; simpl.
  - apply grows__compressSvg.
  - apply grows_browser; [pside; pgrow|done|done].
  - apply grows_browser; [pside; pgrow|done|done].
  - apply grows_size.
Qed.

Lemma grows_task ev pg : grows pg (task ev pg).
Proof. unfold task. eapply grows_trans; [apply grows_handle|apply grows_drain]. Qed.

Lemma grows_run evs pg : grows pg (run evs pg).
Proof.
  revert pg. induction evs as [|ev evs IH]; intros pg; [apply grows_refl|].
  simpl. eapply grows_trans; [apply grows_task|apply IH].
Qed.

(** *** Every checkpoint comes to an end *)
Lemma waiting_snoc (l : list (PromiseState Kont)) st :
  sum_list_with waiting (l ++ [st]) = sum_list_with waiting l + waiting st.
Proof. rewrite sum_list_with_app. simpl. lia. Qed.

Lemma waiting_insert (l : list (PromiseState Kont)) i st st' :
  l !! i = Some st →
  sum_list_with waiting (<[i := st']> l) + waiting st = sum_list_with waiting l + waiting st'.
Proof.
  revert i. induction l as [|x l IH]; intros [|i] Hi; simplify_eq/=; [lia|].
  specialize (IH i Hi). lia.
Qed.

Lemma load_promises (f : list (PromiseState Kont) → list (PromiseState Kont)) b :
  sum_list_with waiting (f (promises b)) = sum_list_with waiting (promises b) →
  load (set_promises f b) = load b.
Proof. intros Hf. unfold load. pnorm. by rewrite Hf. Qed.

Lemma load_new_promise b : load (new_promise b).2 = load b.
Proof. apply load_promises. rewrite waiting_snoc. simpl. lia. Qed.

Lemma load_enqueue js b :
  load (enqueue js b) = load b + sum_list_with (λ j, weight j.1) js.
Proof. unfold load. pnorm. rewrite sum_list_with_app. lia. Qed.

Lemma weight_reactions (ks : list Kont) (o : Outcome) :
  sum_list_with (λ j, weight j.1) (map (λ k, (k, o)) ks) = sum_list_with weight ks.
Proof. induction ks as [|k ks IH]; simpl; [done|]. by rewrite IH. Qed.

Lemma load_settle p o b : load (settle p o b) = load b.
Proof.
  unfold settle. destruct (promises b !! p) as [[ks|o']|] eqn:Hp; try done.
  rewrite load_enqueue, weight_reactions. unfold load. pnorm.
  pose proof (waiting_insert _ _ _ (Settled o) Hp) as Hins. simpl in Hins. lia.
Qed.

Lemma load_subscribe p k b : load (subscribe p k b) ≤ load b + weight k.
Proof.
  unfold subscribe. destruct (promises b !! p) as [[ks|o']|] eqn:Hp.
  - unfold load. pnorm.
    pose proof (waiting_insert _ _ _ (Pending (ks ++ [k])) Hp) as Hins. simpl in Hins.
    rewrite sum_list_with_app in Hins. simpl in Hins. lia.
  - rewrite load_enqueue. simpl. lia.
  - lia.
Qed.

Lemma load_pop b k o Q :
  microtasks b = (k, o) :: Q → load (pop_microtask b) + weight k = load b.
Proof. intros Hq. unfold load. pnorm. rewrite Hq. simpl. lia. Qed.

(** The messengers settle promises and add fresh ones. *)
Lemma load__fulfillPending id v e this b :
  load (WorkerMessenger._fulfillPending id v e (this, b)).2 = load b.
Proof.
  unfold WorkerMessenger._fulfillPending.
  destruct (WorkerMessenger._pending this !! id); [|done].
  destruct e; apply load_settle.
Qed.

Lemma load__abortPending s : load (WorkerMessenger._abortPending s).2 = load s.2.
Proof.
  unfold WorkerMessenger._abortPending.
  generalize (WorkerMessenger.keys (WorkerMessenger._pending s.1)). intros ks.
  revert s. induction ks as [|k ks IH]; intros s; [done|].
  cbn [foldl]. rewrite IH. destruct s as [this b]. apply load__fulfillPending.
Qed.

Lemma load_abort this b : load (WorkerMessenger.abort (this, b)).2 = load b.
Proof.
  unfold WorkerMessenger.abort. case_decide; [done|].
  pose proof (load__abortPending (this, b)) as Hl.
  destruct (WorkerMessenger._abortPending (this, b)) as [this1 b1]. cbn [snd] in Hl.
  rewrite <- Hl. by destruct (WorkerMessenger._worker this1).
Qed.

Lemma load__onMessage data this b : load (WorkerMessenger._onMessage data (this, b)).2 = load b.
Proof.
  unfold WorkerMessenger._onMessage.
  destruct (msg_id data) as [[|id]|]; try done. apply load__fulfillPending.
Qed.

Lemma load_requestResponse action settings data this b :
  load (WorkerMessenger.requestResponse action settings data (this, b)).2.2 = load b.
Proof.
  rewrite requestResponse_spec. cbn [snd]. unfold load. pnorm.
  rewrite waiting_snoc. simpl. lia.
Qed.

(** What the functions of the page add to the load. *)
Lemma load_subscribed p k pg n :
  load (browser pg) ≤ n → load (browser (with_browser (subscribe p k) pg)) ≤ n + weight k.
Proof. intros Hn. pnorm. pose proof (load_subscribe p k (browser pg)). lia. Qed.

Lemma load_size f z pg : load (browser (size f z pg).2) ≤ load (browser pg) + 2.
Proof.
  destruct (files (heap pg) !! f) as [file|] eqn:Hf.
  2:{ rewrite (size_missing _ _ _ Hf). cbn [snd browser with_browser].
      rewrite load_new_promise. lia. }
  destruct z.
  2:{ rewrite (size_plain _ _ _ Hf). pnorm. unfold load. pnorm.
      rewrite waiting_snoc. simpl. lia. }
  destruct (SvgFile._compressedSize file) as [m|] eqn:Hm.
  - rewrite (size_memo _ _ _ _ Hf Hm). cbn [snd browser with_browser].
    pose proof (load_subscribe m (KReturn (length (promises (browser pg))))
                  (new_promise (browser pg)).2) as Hs.
    rewrite load_new_promise in Hs. cbn [weight] in Hs. lia.
  - rewrite (size_fresh _ _ _ Hf Hm). unfold load. pnorm.
    rewrite sum_list_with_app. simpl. lia.
Qed.

Lemma load_update_size f z pg :
  load (browser (update_size f z pg)) ≤ load (browser pg) + 3.
Proof.
  destruct f as [f|]; [|simpl; lia]. unfold update_size.
  rewrite (surjective_pairing (size f z pg)).
  pose proof (load_subscribed (size f z pg).1 KUpdateResults (size f z pg).2 _
                (load_size f z pg)) as Hs.
  cbn [weight] in Hs. lia.
Qed.

Lemma load__updateForFile c f g z pg :
  load (browser (_updateForFile c f g z pg)) ≤ load (browser pg) + 6.
Proof.
  unfold _updateForFile. cbv zeta.
  match goal with
  | |- context [update_size _ _ ?x] => set (shown := x)
  end.
  assert (load (browser shown) = load (browser pg)) as <- by done.
  destruct g as [g|].
  - rewrite (surjective_pairing (size g z shown)).
    pose proof (load_subscribed (size g z shown).1 (KUpdateSize f z) (size g z shown).2 _
                  (load_size g z shown)) as Hs.
    cbn [weight] in Hs. lia.
  - pose proof (load_update_size f z shown). lia.
Qed.

Lemma load_process text settings pg :
  load (browser (Svgo.process text settings pg).2) ≤ load (browser pg) + 3.
Proof.
  unfold Svgo.process. unlet. cbn [fst snd browser with_currentJob with_browser].
  unfold Svgo.abort. cbn [with_svgo browser _currentJob].
  match goal with |- load (subscribe ?c ?k2 (new_promise (subscribe ?j ?k1 (new_promise ?b).2)).2) ≤ _ =>
    pose proof (load_subscribe c k2 (new_promise (subscribe j k1 (new_promise b).2)).2) as H2;
    pose proof (load_subscribe j k1 (new_promise b).2) as H1;
    rewrite load_new_promise in H2; rewrite load_new_promise in H1
  end.
  rewrite load_abort in H1. cbn [weight] in H1, H2. lia.
Qed.

Lemma load_process_request text settings job pg :
  load (browser (Svgo.process_request text settings job pg)) ≤ load (browser pg) + 1.
Proof.
  unfold Svgo.process_request.
  rewrite (surjective_pairing (WorkerMessenger.requestResponse _ _ _ _)).
  cbn [browser with_browser with_svgo].
  match goal with |- load (subscribe ?q ?k ?b) ≤ _ =>
    pose proof (load_subscribe q k b) as Hs
  end.
  rewrite load_requestResponse in Hs. cbn [weight] in Hs. lia.
Qed.

Lemma load_process_result job o pg :
  load (browser (Svgo.process_result job o pg)) = load (browser pg).
Proof.
  unfold Svgo.process_result. destruct (Svgo.process_outcome o (heap pg)).
  cbn [browser with_browser with_heap]. apply load_settle.
Qed.

Lemma load_compress_catch e pg : load (browser (compress_catch e pg)) = load (browser pg).
Proof. unfold compress_catch. by case_decide. Qed.

Lemma load_compress_finish c settings f pg :
  load (browser (compress_finish c settings f pg)) ≤ load (browser pg) + 6.
Proof.
  unfold compress_finish, cache_add. destruct (ResultsCache.add _ _ _).
  cbn [browser]. apply load__updateForFile.
Qed.

Lemma load_start_pass x settings k pg :
  load (browser (start_pass x settings k pg)) ≤ load (browser pg) + 3 + weight k.
Proof.
  destruct x as [text|e]; cbn [start_pass]; [|rewrite load_compress_catch; lia].
  rewrite (surjective_pairing (Svgo.process text settings pg)).
  apply load_subscribed, load_process.
Qed.

Lemma load_compress_resume c t settings pg :
  load (browser (compress_resume c t settings pg)) ≤ load (browser pg) + 14.
Proof.
  unfold compress_resume. case_decide; [lia|].
  destruct (original settings).
  { pose proof (load__updateForFile c (_inputItem pg) None (compress_option settings) pg). lia. }
  destruct (ResultsCache.match_ _ _) as [f|].
  { pose proof (load__updateForFile c (Some f) (_inputItem pg) (compress_option settings) pg).
    lia. }
  match goal with |- context [start_pass ?x settings ?k pg] =>
    pose proof (load_start_pass x settings k pg) as Hs
  end.
  cbn [weight] in Hs. lia.
Qed.

Lemma load_compress_pass2 c t settings o pg :
  load (browser (compress_pass2 c t settings o pg)) ≤ load (browser pg) + 6.
Proof.
  unfold compress_pass2.
  destruct o as [[]|]; rewrite ?load_compress_catch; try lia.
  apply load_compress_finish.
Qed.

Lemma load_compress_pass1 c t settings o pg :
  load (browser (compress_pass1 c t settings o pg)) ≤ load (browser pg) + 10.
Proof.
  unfold compress_pass1.
  destruct o as [[]|]; rewrite ?load_compress_catch; try lia.
  destruct (_ || _).
  - match goal with |- context [start_pass ?x settings ?k pg] =>
      pose proof (load_start_pass x settings k pg) as Hs
    end.
    cbn [weight] in Hs. lia.
  - match goal with |- context [compress_finish c settings ?f pg] =>
      pose proof (load_compress_finish c settings f pg)
    end.
    lia.
Qed.

(** A reaction registers less than its weight. *)
Lemma load_run_reaction k o pg :
  load (browser (run_reaction k o pg)) + 1 ≤ load (browser pg) + weight k.
Proof.
  destruct k; cbn [run_reaction weight].
  - pnorm. rewrite load_settle. lia.
  - destruct o.
    + pose proof (load_process_request svgText settings job pg). lia.
    + pnorm. rewrite load_settle. lia.
  - rewrite load_process_result. lia.
  - pnorm. rewrite load_settle. lia.
  - pnorm. rewrite load_settle. lia.
  - pose proof (load_compress_resume cycle thisJobId settings pg). lia.
  - pose proof (load_compress_pass1 cycle thisJobId settings o pg). lia.
  - pose proof (load_compress_pass2 cycle thisJobId settings o pg). lia.
  - destruct o; [|lia]. pose proof (load_update_size svgFile compress pg). lia.
  - lia.
Qed.

(** A checkpoint with the load of the page as its fuel empties the queue. *)
Lemma drain_quiescent fuel pg : load (browser pg) ≤ fuel → quiescent (drain fuel pg).
Proof.
  revert pg. induction fuel as [|fuel IH]; intros pg Hfuel.
  - change (quiescent pg). unfold quiescent, load in *.
    destruct (microtasks (browser pg)) as [|[k o] Q]; [done|].
    simpl in Hfuel. destruct k; simpl in Hfuel; lia.
  - destruct (microtasks (browser pg)) as [|[k o] Q] eqn:Hq.
    { by rewrite drain_done. }
    erewrite drain_step by exact Hq. apply IH.
    pose proof (load_run_reaction k o (with_browser pop_microtask pg)) as Hrun.
    pose proof (load_pop (browser pg) k o Q Hq) as Hpop.
    cbn [browser with_browser] in Hrun. lia.
Qed.

Lemma task_quiescent ev pg : quiescent (task ev pg).
Proof. unfold task. by apply drain_quiescent. Qed.

(** More fuel than the checkpoint needs changes nothing. *)
Lemma drain_more n m pg : quiescent (drain n pg) → n ≤ m → drain m pg = drain n pg.
Proof.
  revert m pg. induction n as [|n IH]; intros m pg Hq Hle.
  - by apply drain_done.
  - destruct m as [|m]; [lia|].
    destruct (microtasks (browser pg)) as [|[k o] Q] eqn:Hpg.
    { by rewrite !drain_done. }
    erewrite !drain_step by exact Hpg. erewrite drain_step in Hq by exact Hpg.
    apply IH; [done|lia].
Qed.

Lemma task_drain ev pg fuel :
  load (browser (handle ev pg)) ≤ fuel → task ev pg = drain fuel (handle ev pg).
Proof. intros Hfuel. symmetry. by apply drain_more; [apply task_quiescent|]. Qed.

Lemma run_quiescent evs pg : quiescent pg → quiescent (run evs pg).
Proof.
  revert pg. induction evs as [|ev evs IH]; intros pg Hq; [done|].
  cbn [run foldl]. apply IH, task_quiescent.
Qed.
End Pages.
End PageFacts.


(** ** The job chain and the size reports do not meet *)
Module KindFacts.
Import WorkerMessenger WorkerMessengerFacts MainController PageFacts.

#[local] Arguments drain {_} _ _ : simpl never.
#[local] Arguments load _ : simpl never.
#[local] Arguments WorkerMessenger.abort {_} _ : simpl never.
#[local] Arguments WorkerMessenger._onMessage {_} _ _ : simpl never.

(** *** Kinds in the promise store *)
Lemma aimed_mono kinds kinds' k : kinds `prefix_of` kinds' → aimed kinds k → aimed kinds' k.
Proof.
  intros Hpre. destruct k; cbn [aimed]; try done; intros; by eapply prefix_lookup_Some.
Qed.

Lemma kinded_length kinds b : kinded kinds b → length (promises b) = length kinds.
Proof. by intros [-> _]. Qed.

Lemma kinded_new kinds b κ :
  kinded kinds b → kinded (kinds ++ [κ]) (new_promise b).2.
Proof.
  intros (Hlen & Hps & Hq). split_and!.
  - unfold new_promise; pnorm. rewrite !length_snoc. by rewrite Hlen.
  - intros p ks. unfold new_promise; pnorm. intros Hp.
    destruct (decide (p < length (promises b))) as [Hlt|Hge].
    + rewrite lookup_snoc_lt in Hp by done.
      eapply Forall_impl; [exact (Hps p ks Hp)|]. intros k [Ha Hs]. split.
      * apply (aimed_mono kinds); [by apply prefix_app_r|exact Ha].
      * rewrite lookup_snoc_lt by lia. done.
    + assert (p = length (promises b)) as ->.
      { apply lookup_lt_Some in Hp. rewrite length_snoc in Hp. lia. }
      rewrite lookup_snoc_eq in Hp by done. injection Hp as <-. constructor.
  - unfold new_promise; pnorm. eapply Forall_impl; [exact Hq|]. intros j Ha.
    apply (aimed_mono kinds); [by apply prefix_app_r|exact Ha].
Qed.

Lemma kinded_settle kinds b p o : kinded kinds b → kinded kinds (settle p o b).
Proof.
  intros (Hlen & Hps & Hq). unfold settle.
  destruct (promises b !! p) as [[ks|o']|] eqn:Hp; try done. split_and!.
  - pnorm. by rewrite length_insert.
  - intros q rs. pnorm. intros Hq'.
    destruct (decide (p = q)) as [->|Hne].
    + rewrite list_lookup_insert_eq in Hq' by (by eapply lookup_lt_Some). done.
    + rewrite list_lookup_insert_ne in Hq' by done. by apply Hps.
  - pnorm. apply Forall_app. split; [done|].
    apply Forall_forall. intros [k o''] Hin. apply list_elem_of_fmap in Hin as (k' & [= -> ->] & Hin).
    pose proof (Hps p ks Hp) as Hks. rewrite Forall_forall in Hks. by apply Hks.
Qed.

Lemma kinded_enqueue kinds b js :
  kinded kinds b → Forall (λ j, aimed kinds j.1) js → kinded kinds (enqueue js b).
Proof.
  intros (Hlen & Hps & Hq) Hjs. split_and!; pnorm; try done. by apply Forall_app.
Qed.

Lemma kinded_subscribe kinds b p k :
  kinded kinds b → aimed kinds k → (kinds !! p = Some SizePromise → is_size k) →
  kinded kinds (subscribe p k b).
Proof.
  intros Hb Hk Hs. pose proof Hb as (Hlen & Hps & Hq). unfold subscribe.
  destruct (promises b !! p) as [[ks|o']|] eqn:Hp; try done.
  - split_and!.
    + pnorm. by rewrite length_insert.
    + intros q rs. pnorm. intros Hq'.
      destruct (decide (p = q)) as [->|Hne].
      * rewrite list_lookup_insert_eq in Hq' by (by eapply lookup_lt_Some).
        injection Hq' as <-. apply Forall_app. split; [by apply Hps|]. by repeat constructor.
      * rewrite list_lookup_insert_ne in Hq' by done. by apply Hps.
    + done.
  - apply kinded_enqueue; [done|]. by repeat constructor.
Qed.

Lemma kinded_same kinds b b' :
  promises b' = promises b → microtasks b' = microtasks b → kinded kinds b → kinded kinds b'.
Proof. intros Hp Hq. unfold kinded. by rewrite Hp, Hq. Qed.

Lemma kinded_pop kinds b : kinded kinds b → kinded kinds (pop_microtask b).
Proof.
  intros (Hlen & Hps & Hq). split_and!; pnorm; try done.
  destruct (microtasks b); [done|]. by apply Forall_cons in Hq as [_ ?].
Qed.

(** *** The messengers *)
Lemma kinded__fulfillPending kinds id v e this b :
  kinded kinds b → kinded kinds (_fulfillPending id v e (this, b)).2.
Proof.
  intros Hb. unfold _fulfillPending.
  destruct (_pending this !! id); [|by apply (kinded_same kinds b)].
  destruct e; by apply kinded_settle.
Qed.

Lemma pending__fulfillPending id v e this (b : Browser Kont) :
  _pending (_fulfillPending id v e (this, b)).1 ⊆ _pending this.
Proof.
  unfold _fulfillPending.
  destruct (_pending this !! id) eqn:Hid; [|done].
  destruct e; cbn [fst _pending]; apply delete_subseteq.
Qed.

Lemma kinded__abortPending kinds s : kinded kinds s.2 → kinded kinds (_abortPending s).2.
Proof.
  unfold _abortPending. generalize (keys (_pending s.1)). intros ks.
  revert s. induction ks as [|k ks IH]; intros s Hs; [done|].
  cbn [foldl]. apply IH. destruct s as [this b]. by apply kinded__fulfillPending.
Qed.

Lemma kinded_abort kinds this b :
  kinded kinds b → kinded kinds (abort (this, b)).2.
Proof.
  intros Hb. unfold abort. case_decide; [done|].
  pose proof (kinded__abortPending kinds (this, b) Hb) as Ha.
  destruct (_abortPending (this, b)) as [this1 b1]. cbn [snd] in Ha.
  unfold _startWorker, new_worker. destruct (_worker this1); by apply (kinded_same kinds b1).
Qed.

Lemma pending_abort this (b : Browser Kont) :
  _pending (abort (this, b)).1 ⊆ _pending this.
Proof.
  unfold abort. case_decide; [done|].
  pose proof (_abortPending_spec this b) as Hspec. cbv zeta in Hspec.
  destruct (_abortPending (this, b)) as [this1 b1]. destruct Hspec as (Hp & _).
  cbn [fst] in Hp. unfold _startWorker, new_worker. cbn [fst _pending].
  rewrite Hp. apply map_empty_subseteq.
Qed.

Lemma kinded__onMessage kinds data this b :
  kinded kinds b → kinded kinds (_onMessage data (this, b)).2.
Proof.
  intros Hb. unfold _onMessage.
  destruct (msg_id data) as [[|id]|]; try by apply (kinded_same kinds b).
  by apply kinded__fulfillPending.
Qed.

Lemma pending__onMessage data this (b : Browser Kont) :
  _pending (_onMessage data (this, b)).1 ⊆ _pending this.
Proof.
  unfold _onMessage. destruct (msg_id data) as [[|id]|]; try done.
  apply pending__fulfillPending.
Qed.


(** *** Kinds on the page *)
Lemma owned_mono kinds kinds' pg : kinds `prefix_of` kinds' → owned kinds pg → owned kinds' pg.
Proof.
  intros Hpre (Hg & Hs & Hj & Hm). split_and!.
  - eapply map_Forall_impl; [exact Hg|]. intros i p Hp.
    exact (prefix_lookup_Some _ _ _ _ Hp Hpre).
  - eapply map_Forall_impl; [exact Hs|]. intros i p Hp.
    exact (prefix_lookup_Some _ _ _ _ Hp Hpre).
  - exact (prefix_lookup_Some _ _ _ _ Hj Hpre).
  - intros f m Hf. exact (prefix_lookup_Some _ _ _ _ (Hm f m Hf) Hpre).
Qed.

Lemma kinded_app kinds κs b news b' :
  kinded kinds b →
  promises b' = promises b ++ news → microtasks b' = microtasks b →
  Forall2 (λ κ st, match st with
                   | Pending rs =>
                       Forall (λ k, aimed (kinds ++ κs) k ∧ (κ = SizePromise → is_size k)) rs
                   | Settled _ => True
                   end) κs news →
  kinded (kinds ++ κs) b'.
Proof.
  intros (Hlen & Hps & Hq) Hp' Hq' Hnews. split_and!.
  - rewrite Hp', !length_app, Hlen. f_equal. by eapply Forall2_length.
  - intros p ks. rewrite Hp'. intros Hp.
    destruct (decide (p < length (promises b))) as [Hlt|Hge].
    + rewrite lookup_app_l in Hp by done.
      eapply Forall_impl; [exact (Hps p ks Hp)|]. intros k [Ha Hs]. split.
      * apply (aimed_mono kinds); [by apply prefix_app_r|exact Ha].
      * rewrite lookup_app_l by lia. done.
    + rewrite lookup_app_r in Hp by lia.
      destruct (Forall2_lookup_r _ _ _ _ _ Hnews Hp) as (κ & Hκ & Hst).
      eapply Forall_impl; [exact Hst|]. intros k [Ha Hs]. split; [done|].
      rewrite lookup_app_r by lia. rewrite Hlen, Hκ. intros [= ->]. by apply Hs.
  - rewrite Hq'. eapply Forall_impl; [exact Hq|]. intros j Ha.
    apply (aimed_mono kinds); [by apply prefix_app_r|exact Ha].
Qed.

Lemma undisturbed_refl kinds b : undisturbed kinds b b.
Proof. by split. Qed.

Lemma undisturbed_trans kinds b1 b2 b3 :
  undisturbed kinds b1 b2 → undisturbed kinds b2 b3 → undisturbed kinds b1 b3.
Proof.
  intros [Hp Hq] [Hp' Hq']. split.
  - intros p Hk. by rewrite Hp', Hp.
  - auto.
Qed.


Lemma undisturbed_app kinds b news b' :
  length kinds = length (promises b) →
  promises b' = promises b ++ news → microtasks b' = microtasks b →
  undisturbed kinds b b'.
Proof.
  intros Hlen Hp Hq. split; [|by rewrite Hq].
  intros p Hk. rewrite Hp. apply lookup_app_l. rewrite <- Hlen. by eapply lookup_lt_Some.
Qed.


Lemma undisturbed_subscribe kinds b p k :
  kinds !! p ≠ Some ChainPromise → is_size k → undisturbed kinds b (subscribe p k b).
Proof.
  intros Hp Hk. unfold subscribe.
  destruct (promises b !! p) as [[ks|o']|] eqn:Hst; try apply undisturbed_refl.
  - split; [|done]. intros q Hq. pnorm. apply list_lookup_insert_ne. congruence.
  - split; [done|]. pnorm. intros HQ. apply Forall_app. split; [done|]. by repeat constructor.
Qed.

Lemma quiet_refl kinds pg : quiet kinds pg pg.
Proof. split_and!; done || apply undisturbed_refl. Qed.

Lemma quiet_trans kinds pg1 pg2 pg3 :
  quiet kinds pg1 pg2 → quiet kinds pg2 pg3 → quiet kinds pg1 pg3.
Proof.
  intros (H1 & H2 & H3 & H4 & H5 & Hb) (H1' & H2' & H3' & H4' & H5' & Hb').
  split_and!; try congruence. by eapply undisturbed_trans.
Qed.


(** The memoized sizes after a step on the heap. *)
Lemma memo_get_url g f h : memo f (get_url g h).2 = memo f h.
Proof.
  unfold get_url. destruct (files h !! g) as [file|] eqn:Hg; [|done].
  destruct (SvgFile._url file); [done|]. unfold memo. cbn [snd files].
  destruct (decide (g = f)) as [->|Hne].
  - rewrite Hg, list_lookup_insert_eq by (by eapply lookup_lt_Some). done.
  - by rewrite list_lookup_insert_ne.
Qed.

Lemma memo_new_SvgFile text w ht f h : memo f (new_SvgFile text w ht h).2 = memo f h.
Proof.
  unfold memo, new_SvgFile. cbn [snd files].
  destruct (decide (f < length (files h))) as [Hlt|Hge].
  - by rewrite lookup_app_l.
  - rewrite (lookup_ge_None_2 (files h)) by lia.
    destruct (decide (f = length (files h))) as [->|Hne].
    + by rewrite lookup_snoc_eq.
    + rewrite lookup_ge_None_2; [done|]. rewrite length_snoc. lia.
Qed.

Lemma memo_add fp g c f h : memo f (ResultsCache.add fp g (c, h)).2 = memo f h.
Proof. unfold ResultsCache.add. by destruct (array_get _ _). Qed.

Lemma memo_process_outcome o f h : memo f (Svgo.process_outcome o h).2 = memo f h.
Proof.
  unfold Svgo.process_outcome. destruct o as [[]|]; try done.
  unlet. cbn [snd]. apply memo_new_SvgFile.
Qed.

(** [size]: the promises it makes are those of a size report. *)
Lemma size_kept f z kinds pg :
  separated kinds pg →
  ∃ kinds', kinds `prefix_of` kinds' ∧ separated kinds' (size f z pg).2 ∧
            kinds' !! (size f z pg).1 = Some SizePromise ∧
            quiet kinds pg (size f z pg).2.
Proof.
  intros [Hb Ho]. pose proof Hb as (Hlen & _).
  destruct (files (heap pg) !! f) as [file|] eqn:Hf.
  2:{ rewrite (size_missing _ _ _ Hf). cbn [fst snd].
      exists (kinds ++ [SizePromise]). split_and!.
      - by apply prefix_app_r.
      - split; [|by apply (owned_mono kinds); [apply prefix_app_r|]].
        cbn [browser with_browser]. by apply kinded_new.
      - rewrite <- Hlen. by apply lookup_snoc_eq.
      - split_and!; try done. cbn [browser with_browser].
        by eapply undisturbed_app. }
  destruct z.
  2:{ rewrite (size_plain _ _ _ Hf). cbn [fst snd].
      exists (kinds ++ [SizePromise]). split_and!.
      - by apply prefix_app_r.
      - split; [|by apply (owned_mono kinds); [apply prefix_app_r|]].
        cbn [browser with_browser].
        eapply kinded_app; [done|reflexivity|reflexivity|]. by repeat constructor.
      - rewrite <- Hlen. by apply lookup_snoc_eq.
      - split_and!; try done. cbn [browser with_browser].
        by eapply undisturbed_app. }
  destruct (SvgFile._compressedSize file) as [m|] eqn:Hm.
  - rewrite (size_memo _ _ _ _ Hf Hm). cbn [fst snd].
    assert (kinds !! m = Some SizePromise) as Hkm.
    { destruct Ho as (_ & _ & _ & Hmemo). apply (Hmemo f). unfold memo. by rewrite Hf. }
    exists (kinds ++ [SizePromise]).
    assert ((kinds ++ [SizePromise]) !! length (promises (browser pg)) = Some SizePromise)
      as Hnew by (rewrite <- Hlen; by apply lookup_snoc_eq).
    split_and!.
    + by apply prefix_app_r.
    + split; [|by apply (owned_mono kinds); [apply prefix_app_r|]].
      cbn [browser with_browser]. apply kinded_subscribe; [by apply kinded_new|done|done].
    + done.
    + split_and!; try done. cbn [browser with_browser].
      apply (undisturbed_trans _ _ (new_promise (browser pg)).2);
        [by apply (undisturbed_app kinds _ [Pending []])|].
      apply undisturbed_subscribe; [congruence|done].
  - rewrite (size_fresh _ _ _ Hf Hm). cbn [fst snd].
    set (n := length (promises (browser pg))).
    exists (kinds ++ [SizePromise; SizePromise; SizePromise]).
    assert ((kinds ++ [SizePromise; SizePromise; SizePromise]) !! n = Some SizePromise ∧
            (kinds ++ [SizePromise; SizePromise; SizePromise]) !! S n = Some SizePromise ∧
            (kinds ++ [SizePromise; SizePromise; SizePromise]) !! S (S n) = Some SizePromise)
      as (Hn0 & Hn1 & Hn2).
    { subst n. rewrite <- Hlen. split_and!; rewrite lookup_app_r by lia.
      - by rewrite Nat.sub_diag.
      - by replace (S (length kinds) - length kinds) with 1 by lia.
      - by replace (S (S (length kinds)) - length kinds) with 2 by lia. }
    destruct Ho as (Hg & Hs & Hj & Hmemo).
    split_and!.
    + by apply prefix_app_r.
    + split.
      * cbn [browser]. eapply kinded_app; [done|reflexivity|reflexivity|].
        by repeat constructor.
      * split_and!; cbn [gzip svgo _currentJob heap].
        -- apply map_Forall_insert_2.
           ++ exact Hn1.
           ++ eapply map_Forall_impl; [exact Hg|].
              intros i p Hp. eapply prefix_lookup_Some; [exact Hp|by apply prefix_app_r].
        -- eapply map_Forall_impl; [exact Hs|].
           intros i p Hp. eapply prefix_lookup_Some; [exact Hp|by apply prefix_app_r].
        -- eapply prefix_lookup_Some; [done|by apply prefix_app_r].
        -- intros g m. destruct (decide (g = f)) as [->|Hne].
           ++ rewrite (memo_set _ _ _ _ Hf). by intros [= <-].
           ++ unfold memo, set_compressedSize. cbn [files].
              rewrite list_lookup_insert_ne by done. intros Hg'.
              eapply prefix_lookup_Some; [by eapply Hmemo|by apply prefix_app_r].
    + exact Hn0.
    + split_and!; try done. cbn [browser].
      by apply (undisturbed_app kinds _ [Pending []; Pending [KByteLength (S (S n))];
                                          Pending [KReturn n]]).
Qed.

Section Pages.
Context `{!Cleanup}.

Lemma kept_refl kinds pg : separated kinds pg → kept kinds pg.
Proof. by exists kinds. Qed.

Lemma kept_step kinds pg1 pg2 :
  kept kinds pg1 → (∀ kinds1, separated kinds1 pg1 → kept kinds1 pg2) → kept kinds pg2.
Proof.
  intros (kinds1 & Hpre & Hs) Hnext. destruct (Hnext kinds1 Hs) as (kinds2 & Hpre' & Hs').
  exists kinds2. split; [by etrans|done].
Qed.

Lemma separated_parts kinds pg pg' :
  owned kinds pg → kinded kinds (browser pg') →
  _pending (gzip pg') ⊆ _pending (gzip pg) → _pending (svgo pg') ⊆ _pending (svgo pg) →
  _currentJob pg' = _currentJob pg → (∀ f, memo f (heap pg') = memo f (heap pg)) →
  separated kinds pg'.
Proof.
  intros (Hg & Hs & Hj & Hm) Hb Hg' Hs' Hj' Hm'. split; [done|]. split_and!.
  - intros i p Hp. apply (Hg i). by eapply lookup_weaken.
  - intros i p Hp. apply (Hs i). by eapply lookup_weaken.
  - by rewrite Hj'.
  - intros f m. rewrite Hm'. apply Hm.
Qed.

Lemma separated_browser kinds (f : Browser Kont → Browser Kont) pg :
  separated kinds pg → kinded kinds (f (browser pg)) → separated kinds (with_browser f pg).
Proof. intros [_ Ho] Hb. by apply (separated_parts kinds pg). Qed.

Lemma update_size_kept f z kinds pg :
  separated kinds pg →
  kept kinds (update_size f z pg) ∧ quiet kinds pg (update_size f z pg).
Proof.
  intros Hs. destruct f as [f|]; [|split; [by apply kept_refl|apply quiet_refl]].
  unfold update_size. unlet.
  destruct (size_kept f z kinds pg Hs) as (kinds' & Hpre & Hs' & Hp & Hquiet).
  split.
  - exists kinds'. split; [done|]. apply separated_browser; [done|].
    apply kinded_subscribe; [by destruct Hs'|done|done].
  - eapply quiet_trans; [exact Hquiet|].
    split_and!; try done. cbn [browser with_browser].
    apply undisturbed_subscribe; [|done].
    destruct Hs as [(Hlen & _) _]. rewrite lookup_ge_None_2; [done|].
    assert ((size f z pg).1 = length (promises (browser pg))) as ->; [|lia].
    unfold size. unlet. destruct (files _ !! _); [|done].
    destruct (negb z); [done|]. by unlet.
Qed.

Lemma _updateForFile_kept c f g z kinds pg :
  separated kinds pg → kept kinds (_updateForFile c f g z pg).
Proof.
  intros Hs. unfold _updateForFile. cbv zeta.
  match goal with
  | |- kept _ (match g with Some _ => _ | None => update_size _ _ ?x end) =>
      set (shown := x)
  end.
  assert (separated kinds shown) as Hshown.
  { destruct Hs as [Hb Ho]. apply (separated_parts kinds pg); try done.
    intros f'. subst shown. cbn [heap]. destruct f; [apply memo_get_url|done]. }
  destruct g as [g|]; [|by apply update_size_kept]. unlet.
  destruct (size_kept g z kinds shown Hshown) as (kinds' & Hpre & Hs' & Hp & _).
  exists kinds'. split; [done|]. apply separated_browser; [done|].
  apply kinded_subscribe; [by destruct Hs'|done|done].
Qed.

Lemma cache_add_kept c fp f kinds pg : separated kinds pg → separated kinds (cache_add c fp f pg).
Proof.
  intros [Hb Ho]. unfold cache_add. unlet. apply (separated_parts kinds pg); try done.
  intros f'. cbn [heap]. apply memo_add.
Qed.

Lemma compress_catch_kept e kinds pg :
  separated kinds pg → separated kinds (compress_catch e pg).
Proof.
  intros [Hb Ho]. unfold compress_catch. case_decide; [done|].
  by apply (separated_parts kinds pg).
Qed.

Lemma abort_kept kinds pg : separated kinds pg → separated kinds (Svgo.abort pg).
Proof.
  intros [Hb Ho]. unfold Svgo.abort. apply (separated_parts kinds pg); try done.
  - cbn [browser with_svgo]. by apply kinded_abort.
  - cbn [svgo with_svgo]. apply pending_abort.
Qed.

Lemma process_kept text settings kinds pg :
  separated kinds pg →
  ∃ kinds', kinds `prefix_of` kinds' ∧ separated kinds' (Svgo.process text settings pg).2 ∧
            kinds' !! (Svgo.process text settings pg).1 = Some ChainPromise.
Proof.
  intros Hs. apply abort_kept in Hs. unfold Svgo.process.
  set (pgA := Svgo.abort pg) in *. destruct Hs as [Hb Ho]. unlet. cbn [fst snd].
  pose proof Hb as (Hlen & _).
  set (k1 := kinds ++ [ChainPromise]).
  set (k2 := k1 ++ [ChainPromise]).
  assert (kinds `prefix_of` k2) as Hpre.
  { etrans; [apply (prefix_app_r kinds kinds [ChainPromise]); done|].
    by apply prefix_app_r. }
  set (b1 := (new_promise (browser pgA)).2).
  assert (kinded k1 b1) as Hb1 by (by apply kinded_new).
  set (b2 := subscribe (_currentJob pgA) (KCatch (new_promise (browser pgA)).1) b1).
  assert (kinded k1 b2) as Hb2.
  { apply kinded_subscribe; [done| |].
    - cbn [aimed new_promise fst]. subst k1. rewrite <- Hlen. by apply lookup_snoc_eq.
    - destruct Ho as (_ & _ & Hj & _). subst k1.
      rewrite (prefix_lookup_Some _ _ _ _ Hj (prefix_app_r kinds kinds _ (reflexivity _))).
      done. }
  set (b3 := (new_promise b2).2).
  assert (kinded k2 b3) as Hb3 by (by apply kinded_new).
  assert (k2 !! (new_promise b2).1 = Some ChainPromise) as Hj2.
  { cbn [new_promise fst]. destruct Hb2 as (<- & _). by apply lookup_snoc_eq. }
  exists k2. split_and!; [done| |done].
  split.
  - cbn [browser with_currentJob with_browser]. apply kinded_subscribe; [done|exact Hj2|].
    subst k2 k1. cbn [new_promise fst]. rewrite <- Hlen.
    rewrite lookup_app_l by (rewrite length_snoc; lia).
    rewrite lookup_snoc_eq by done. done.
  - destruct (owned_mono kinds k2 pgA Hpre Ho) as (Hg & Hsv & _ & Hm).
    split_and!; done.
Qed.

Lemma start_pass_kept x settings next kinds pg :
  (∀ ks, aimed ks next) → separated kinds pg → kept kinds (start_pass x settings next pg).
Proof.
  intros Hnext Hs. destruct x as [text|e]; cbn [start_pass].
  2:{ apply kept_refl. by apply compress_catch_kept. }
  unlet. destruct (process_kept text settings kinds pg Hs) as (kinds' & Hpre & Hs' & Hj).
  exists kinds'. split; [done|]. apply separated_browser; [done|].
  apply kinded_subscribe; [by destruct Hs'|done|]. rewrite Hj. done.
Qed.

Lemma compress_finish_kept c settings f kinds pg :
  separated kinds pg → kept kinds (compress_finish c settings f pg).
Proof.
  intros Hs. unfold compress_finish.
  eapply kept_step; [by apply _updateForFile_kept|].
  intros kinds1 Hs1. apply kept_refl. by apply cache_add_kept.
Qed.

Lemma compress_resume_kept c t settings kinds pg :
  separated kinds pg → kept kinds (compress_resume c t settings pg).
Proof.
  intros Hs. unfold compress_resume. case_decide; [by apply kept_refl|].
  destruct (original settings); [by apply _updateForFile_kept|].
  destruct (ResultsCache.match_ _ _); [by apply _updateForFile_kept|].
  by apply start_pass_kept.
Qed.

Lemma compress_pass1_kept c t settings o kinds pg :
  separated kinds pg → kept kinds (compress_pass1 c t settings o pg).
Proof.
  intros Hs. unfold compress_pass1.
  destruct o as [[]|]; try (apply kept_refl; by apply compress_catch_kept).
  destruct (_ || _); [by apply start_pass_kept|by apply compress_finish_kept].
Qed.

Lemma compress_pass2_kept c t settings o kinds pg :
  separated kinds pg → kept kinds (compress_pass2 c t settings o pg).
Proof.
  intros Hs. unfold compress_pass2.
  destruct o as [[]|]; try (apply kept_refl; by apply compress_catch_kept).
  by apply compress_finish_kept.
Qed.

Lemma process_request_kept text settings job kinds pg :
  separated kinds pg → kinds !! job = Some ChainPromise →
  kept kinds (Svgo.process_request text settings job pg).
Proof.
  intros [Hb Ho] Hjob. unfold Svgo.process_request. rewrite requestResponse_spec.
  pose proof Hb as (Hlen & _).
  set (k1 := kinds ++ [ChainPromise]).
  assert (kinds `prefix_of` k1) as Hpre by (by apply prefix_app_r).
  assert (k1 !! length (promises (browser pg)) = Some ChainPromise) as Hq.
  { subst k1. rewrite <- Hlen. by apply lookup_snoc_eq. }
  exists k1. split; [done|].
  destruct (owned_mono kinds k1 pg Hpre Ho) as (Hg & Hsv & Hj & Hm).
  split.
  - cbn [browser with_browser with_svgo snd]. apply kinded_subscribe.
    + eapply kinded_app; [exact Hb|reflexivity|reflexivity|]. by repeat constructor.
    + cbn [aimed]. exact (prefix_lookup_Some _ _ _ _ Hjob Hpre).
    + rewrite Hq. done.
  - split_and!; try done. cbn [svgo with_browser with_svgo fst _pending].
    by apply map_Forall_insert_2.
Qed.

Lemma process_result_kept job o kinds pg :
  separated kinds pg → separated kinds (Svgo.process_result job o pg).
Proof.
  intros [Hb Ho]. unfold Svgo.process_result. unlet.
  apply (separated_parts kinds pg); try done.
  - cbn [browser with_browser with_heap]. by apply kinded_settle.
  - intros f. cbn [heap with_browser with_heap]. apply memo_process_outcome.
Qed.

Lemma _compressSvg_kept settings r kinds pg :
  separated kinds pg → separated kinds (_compressSvg settings r pg).
Proof.
  intros Hs. unfold _compressSvg. cbv zeta.
  match goal with |- context [Svgo.abort ?x] => set (started := x) end.
  assert (separated kinds started) as Hst.
  { destruct Hs as [Hb Ho]. by apply (separated_parts kinds pg). }
  apply abort_kept in Hst. apply separated_browser; [done|].
  apply kinded_enqueue; [by destruct Hst|]. by repeat constructor.
Qed.

(** Every reaction keeps the kinds. *)
Lemma run_reaction_kept k o kinds pg :
  separated kinds pg → aimed kinds k → kept kinds (run_reaction k o pg).
Proof.
  intros Hs Hk. pose proof Hs as [Hb Ho].
  destruct k; cbn [run_reaction].
  - apply kept_refl, separated_browser; [done|]. by apply kinded_settle.
  - destruct o; [by apply process_request_kept|].
    apply kept_refl, separated_browser; [done|]. by apply kinded_settle.
  - apply kept_refl. by apply process_result_kept.
  - apply kept_refl, separated_browser; [done|]. by apply kinded_settle.
  - apply kept_refl, separated_browser; [done|]. by apply kinded_settle.
  - by apply compress_resume_kept.
  - by apply compress_pass1_kept.
  - by apply compress_pass2_kept.
  - destruct o; [by apply update_size_kept|by apply kept_refl].
  - by apply kept_refl.
Qed.

Lemma pop_kept kinds pg k o Q :
  separated kinds pg → microtasks (browser pg) = (k, o) :: Q →
  separated kinds (with_browser pop_microtask pg) ∧ aimed kinds k.
Proof.
  intros Hs HQ. pose proof Hs as [Hb Ho]. split.
  - apply separated_browser; [done|]. by apply kinded_pop.
  - destruct Hb as (_ & _ & Hq). rewrite HQ in Hq. by apply Forall_cons in Hq as [? _].
Qed.

Lemma drain_kept fuel kinds pg : separated kinds pg → kept kinds (drain fuel pg).
Proof.
  revert kinds pg. induction fuel as [|fuel IH]; intros kinds pg Hs; [by apply kept_refl|].
  destruct (microtasks (browser pg)) as [|[k o] Q] eqn:HQ.
  { rewrite drain_done by done. by apply kept_refl. }
  erewrite drain_step by exact HQ.
  destruct (pop_kept kinds pg k o Q Hs HQ) as [Hpop Hk].
  eapply kept_step; [by apply run_reaction_kept|]. intros kinds1 Hs1. by apply IH.
Qed.

Lemma handle_kept ev kinds pg : separated kinds pg → kept kinds (handle ev pg).
Proof.
  intros Hs. pose proof Hs as [Hb Ho]. destruct ev; cbn [handle].
  - apply kept_refl. by apply _compressSvg_kept.
  - apply kept_refl. apply (separated_parts kinds pg); try done.
    + cbn [browser with_svgo]. by apply kinded__onMessage.
    + cbn [svgo with_svgo]. apply pending__onMessage.
  - apply kept_refl. apply (separated_parts kinds pg); try done.
    + cbn [browser with_gzip]. by apply kinded__onMessage.
    + cbn [gzip with_gzip]. apply pending__onMessage.
  - destruct (size_kept f compress kinds pg Hs) as (kinds' & Hpre & Hs' & _). by exists kinds'.
Qed.

Lemma task_kept ev kinds pg : separated kinds pg → kept kinds (task ev pg).
Proof.
  intros Hs. unfold task. eapply kept_step; [by apply handle_kept|].
  intros kinds1 Hs1. by apply drain_kept.
Qed.
































End Pages.
End KindFacts.
(** ** The compression cycle *)
Module CycleFacts.
Import WorkerMessenger WorkerMessengerFacts MainController PageFacts KindFacts.

#[local] Arguments drain {_} _ _ : simpl never.
#[local] Arguments load _ : simpl never.
#[local] Arguments WorkerMessenger.abort {_} _ : simpl never.
#[local] Arguments WorkerMessenger._onMessage {_} _ _ : simpl never.

Section Facts.
Context `{!Cleanup}.

Lemma set_microtasks_pop pg R :
  with_browser (set_microtasks R) (with_browser pop_microtask pg) =
  with_browser (set_microtasks R) pg.
Proof. done. Qed.

(** Reactions that change nothing just leave the queue. *)
Lemma drain_noops Q R fuel pg :
  microtasks (browser pg) = Q ++ R → Forall noop Q →
  drain (length Q + fuel) pg = drain fuel (with_browser (set_microtasks R) pg).
Proof.
  intros Hq HQ. revert pg Hq. induction HQ as [|[k o] Q Hk _ IH]; intros pg Hq.
  - simpl in *. f_equal. destruct pg as [[]]. simpl in *. by subst.
  - simpl length. simpl Nat.add. erewrite drain_step by exact Hq.
    rewrite (Hk _). rewrite IH.
    + by rewrite set_microtasks_pop.
    + pnorm. by rewrite Hq.
Qed.

Lemma process_spec text settings pg o :
  _pending (svgo pg) = ∅ →
  promises (browser pg) !! _currentJob pg = Some (Settled o) →
  Svgo.process text settings pg =
    (S (length (promises (browser pg))),
     {| browser :=
          {| promises := (promises (browser pg)
                          ++ [Pending [KThenProcess text settings
                                         (S (length (promises (browser pg))))]])
                          ++ [Pending []];
             microtasks := microtasks (browser pg)
                           ++ [(KCatch (length (promises (browser pg))), o)];
             spawned := spawned (browser pg); terminated := terminated (browser pg);
             posted := posted (browser pg); console := console (browser pg) |};
        heap := heap pg; gzip := gzip pg; svgo := svgo pg;
        _currentJob := S (length (promises (browser pg)));
        _inputItem := _inputItem pg; _cache := _cache pg;
        _latestCompressJobId := _latestCompressJobId pg; updates := updates pg;
        cached := cached pg; toasts := toasts pg; cycles := cycles pg; gzipped := gzipped pg |}).
Proof.
  intros Hpend Hjob.
  assert (_currentJob pg < length (promises (browser pg))) as Hj by (by eapply lookup_lt_Some).
  unfold Svgo.process, Svgo.abort.
  rewrite abort_empty by done. pnorm.
  rewrite (subscribe_settled _ _ _ o) by (pnorm; look; done). pnorm.
  rewrite (subscribe_pending _ _ _ []) by (pnorm; look; look; done). pnorm.
  len. repeat f_equal. rewrite insert_app_l by side. f_equal.
  by apply insert_snoc_eq.
Qed.

Lemma process_request_spec text settings job pg :
  Svgo.process_request text settings job pg =
    {| browser :=
         {| promises := promises (browser pg) ++ [Pending [KProcessed job]];
            microtasks := microtasks (browser pg);
            spawned := if _worker (svgo pg) is Some _ then spawned (browser pg)
                       else S (spawned (browser pg));
            terminated := terminated (browser pg);
            posted := posted (browser pg)
                      ++ [(default (spawned (browser pg)) (_worker (svgo pg)),
                           process_message (_requestId (svgo pg) + 1) settings text)];
            console := console (browser pg) |};
       heap := heap pg; gzip := gzip pg;
       svgo := {| _requestId := _requestId (svgo pg) + 1;
                  _pending := <[(_requestId (svgo pg) + 1)%N := length (promises (browser pg))]>
                                (_pending (svgo pg));
                  _worker := Some (default (spawned (browser pg)) (_worker (svgo pg))) |};
       _currentJob := _currentJob pg; _inputItem := _inputItem pg; _cache := _cache pg;
       _latestCompressJobId := _latestCompressJobId pg; updates := updates pg;
       cached := cached pg; toasts := toasts pg; cycles := cycles pg; gzipped := gzipped pg |}.
Proof.
  unfold Svgo.process_request. rewrite requestResponse_spec. pnorm.
  rewrite (subscribe_pending _ _ _ []) by (pnorm; look; done). pnorm.
  repeat f_equal. by apply insert_snoc_eq.
Qed.

(** A pass: the job is chained, and within the same checkpoint its request
    is posted. *)
Lemma pass_run text settings k pg o fuel :
  _pending (svgo pg) = ∅ →
  promises (browser pg) !! _currentJob pg = Some (Settled o) →
  Forall noop (microtasks (browser pg)) →
  length (microtasks (browser pg)) + 2 ≤ fuel →
  drain fuel (start_pass (inl text) settings k pg) =
    {| browser :=
         {| promises :=
              ((promises (browser pg)
                ++ [Settled (match o with
                             | Fulfilled v => Fulfilled v
                             | Rejected _ => Fulfilled VUndefined
                             end)])
                ++ [Pending [k]])
                ++ [Pending [KProcessed (S (length (promises (browser pg))))]];
            microtasks := [];
            spawned := if _worker (svgo pg) is Some _ then spawned (browser pg)
                       else S (spawned (browser pg));
            terminated := terminated (browser pg);
            posted := posted (browser pg)
                      ++ [(default (spawned (browser pg)) (_worker (svgo pg)),
                           process_message (_requestId (svgo pg) + 1) settings text)];
            console := console (browser pg) |};
       heap := heap pg; gzip := gzip pg;
       svgo := {| _requestId := _requestId (svgo pg) + 1;
                  _pending := {[ (_requestId (svgo pg) + 1)%N :=
                                   S (S (length (promises (browser pg)))) ]};
                  _worker := Some (default (spawned (browser pg)) (_worker (svgo pg))) |};
       _currentJob := S (length (promises (browser pg)));
       _inputItem := _inputItem pg; _cache := _cache pg;
       _latestCompressJobId := _latestCompressJobId pg; updates := updates pg;
       cached := cached pg; toasts := toasts pg; cycles := cycles pg; gzipped := gzipped pg |}.
Proof.
  intros Hpend Hjob HQ Hfuel.
  replace fuel with (length (microtasks (browser pg)) + S (S (fuel - length (microtasks (browser pg)) - 2)))
    by lia.
  unfold start_pass. rewrite (process_spec _ _ _ o) by done. pnorm.
  rewrite (subscribe_pending _ _ _ []) by (pnorm; look; done). pnorm.
  erewrite drain_noops; [|pnorm; reflexivity|done]. pnorm.
  erewrite drain_step by (pnorm; reflexivity). pnorm.
  unfold run_reaction. pnorm.
  erewrite settle_pending_eq by (pnorm; look; look; look; done). pnorm.
  simpl map. simpl app.
  erewrite drain_step by (pnorm; reflexivity). pnorm.
  unfold run_reaction. pnorm.
  assert (∃ v, match o with Fulfilled v => Fulfilled v | Rejected _ => Fulfilled VUndefined end
               = Fulfilled v) as [v Hv] by (destruct o; eauto).
  rewrite !Hv. rewrite process_request_spec. pnorm.
  rewrite drain_done by done. rewrite Hpend. ins. len. simpl tail.
  reflexivity.
Qed.
Lemma noop_aborted1 c t s : noop (KCompressPass1 c t s, Rejected AbortError).
Proof. intros pg. reflexivity. Qed.

Lemma noop_aborted2 c t s : noop (KCompressPass2 c t s, Rejected AbortError).
Proof. intros pg. reflexivity. Qed.

(** A ready page comes to rest once its queue has been run. *)
Lemma ready_drain pg fuel :
  ready pg → length (microtasks (browser pg)) ≤ fuel →
  drain fuel pg = flushed pg ∧ idle (flushed pg).
Proof.
  intros (Hpend & Hjob & HQ) Hfuel.
  replace fuel with (length (microtasks (browser pg)) + (fuel - length (microtasks (browser pg))))
    by lia.
  erewrite (drain_noops _ []); [|by rewrite app_nil_r|done].
  rewrite drain_done by done. split; [done|].
  split_and!; done.
Qed.

Lemma cycle_step_refl c pg : cycle_step c pg pg.
Proof.
  split_and!; [done|exists []|exists []]; by rewrite app_nil_r.
Qed.

(** *** The size report of [_updateForFile] *)
Lemma steady_refl pg : steady pg pg.
Proof. by split_and!. Qed.

Lemma steady_trans pg1 pg2 pg3 : steady pg1 pg2 → steady pg2 pg3 → steady pg1 pg3.
Proof.
  intros (? & ? & ? & ? & ? & ? & ? & ? & ? & ? & H12) (? & ? & ? & ? & ? & ? & ? & ? & ? & ? & H23).
  split_and!; try congruence. intros p o Hp. by apply H23, H12.
Qed.

(** A change of the promises and the queue alone. *)
Lemma steady_browser (f : Browser Kont → Browser Kont) pg :
  (∀ b, posted (f b) = posted b) → (∀ b, promises_grow b (f b)) →
  steady pg (with_browser f pg).
Proof.
  intros Hposted Hgrow. split_and!; try done.
  - unfold process_requests. pnorm. by rewrite Hposted.
  - apply Hgrow.
Qed.

Lemma steady_subscribed p k pg pg' :
  steady pg pg' → steady pg (with_browser (subscribe p k) pg').
Proof.
  intros Hs. eapply steady_trans; [exact Hs|].
  apply steady_browser; [intros; apply subscribe_posted|intros; apply subscribe_grows].
Qed.

Lemma steady_size f z pg : steady pg (size f z pg).2.
Proof.
  pose proof (grows_size f z pg) as (Hgrow & _ & _).
  destruct (files (heap pg) !! f) as [file|] eqn:Hf.
  2:{ rewrite (size_missing _ _ _ Hf) in *. by split_and!. }
  destruct z.
  2:{ rewrite (size_plain _ _ _ Hf) in *. by split_and!. }
  destruct (SvgFile._compressedSize file) as [m|] eqn:Hm.
  { rewrite (size_memo _ _ _ _ Hf Hm) in *. split_and!; try done.
    unfold process_requests. pnorm. by rewrite subscribe_posted. }
  rewrite (size_fresh _ _ _ Hf Hm) in *. split_and!; try done.
  unfold process_requests. pnorm. rewrite filter_app.
  rewrite filter_cons_False by done. by rewrite filter_nil, app_nil_r.
Qed.

Lemma subscribe_unsettled {K} (b : Browser K) p k :
  (∀ o, promises b !! p ≠ Some (Settled o)) → microtasks (subscribe p k b) = microtasks b.
Proof.
  intros Hp. unfold subscribe. destruct (promises b !! p) as [[ks|o]|]; try done.
  by destruct (Hp o).
Qed.

(** What a call of [size] whose result is awaited adds to the queue. *)
Lemma size_queue f z k pg :
  let r := (size f z pg).1 in
  let pg' := with_browser (subscribe r k) (size f z pg).2 in
  ∃ E, microtasks (browser pg') = microtasks (browser pg) ++ E ∧
       (E = [] ∨ (∃ o, E = [(k, o)]) ∨
        (∃ o, E = [(KReturn r, o)] ∧ promises (browser pg') !! r = Some (Pending [k]))).
Proof.
  cbv zeta. destruct (files (heap pg) !! f) as [file|] eqn:Hf.
  2:{ rewrite (size_missing _ _ _ Hf). exists []. split; [|by left]. pnorm.
      rewrite (subscribe_pending _ _ _ []) by (pnorm; look; done). pnorm.
      by rewrite app_nil_r. }
  destruct z.
  2:{ rewrite (size_plain _ _ _ Hf). eexists. split; [|right; left; by eexists]. pnorm.
      erewrite subscribe_settled by (pnorm; look; done). done. }
  destruct (SvgFile._compressedSize file) as [m|] eqn:Hm.
  2:{ rewrite (size_fresh _ _ _ Hf Hm). exists []. split; [|by left]. pnorm.
      rewrite subscribe_unsettled; [pnorm; by rewrite app_nil_r|].
      intros o. pnorm. rewrite lookup_app_r, Nat.sub_diag by lia. done. }
  rewrite (size_memo _ _ _ _ Hf Hm). pnorm.
  set (n := length (promises (browser pg))).
  destruct ((promises (browser pg) ++ [Pending []]) !! m) as [[ks|o]|] eqn:Hpm.
  - exists []. split; [|by left].
    rewrite (subscribe_pending _ m _ ks) by done. pnorm.
    rewrite subscribe_unsettled; [pnorm; by rewrite app_nil_r|].
    intros o. pnorm. destruct (decide (m = n)) as [->|Hne].
    + rewrite list_lookup_insert_eq by (subst n; side). done.
    + rewrite list_lookup_insert_ne by done. subst n. by look.
  - exists [(KReturn n, o)]. rewrite (subscribe_settled _ m _ o) by done. pnorm.
    rewrite (subscribe_pending _ n _ []) by (pnorm; subst n; look; done). pnorm.
    split; [done|]. right. right. exists o. split; [done|]. subst n. by look.
  - exists []. split; [|by left].
    unfold subscribe at 2. pnorm. fold n. rewrite Hpm.
    rewrite (subscribe_pending _ n _ []) by (pnorm; subst n; look; done). pnorm.
    by rewrite app_nil_r.
Qed.

Lemma steady_queue js pg : steady pg (with_browser (set_microtasks js) pg).
Proof. apply steady_browser; [done|]. by intros b p o Hp. Qed.

Lemma steady_pop pg : steady pg (with_browser pop_microtask pg).
Proof. apply steady_queue. Qed.

(** The last reaction of a report. *)
Lemma results_drain pg o fuel :
  microtasks (browser pg) = [(KUpdateResults, o)] → 1 ≤ fuel →
  quiescent (drain fuel pg) ∧ steady pg (drain fuel pg).
Proof.
  intros Hq Hfuel. erewrite drain_pop; [|exact Hq|lia]. cbn [run_reaction].
  rewrite drain_done by (unfold quiescent; pnorm; by rewrite Hq).
  split; [unfold quiescent; pnorm; by rewrite Hq|].
  apply steady_pop.
Qed.

(** The return of a [size] call wakes the reaction that waits on it. *)
Lemma return_step pg r k o fuel :
  microtasks (browser pg) = [(KReturn r, o)] →
  promises (browser pg) !! r = Some (Pending [k]) → 1 ≤ fuel →
  ∃ pg1, drain fuel pg = drain (pred fuel) pg1 ∧
         microtasks (browser pg1) = [(k, o)] ∧ steady pg pg1.
Proof.
  intros Hq Hr Hfuel. erewrite drain_pop; [|exact Hq|lia]. cbn [run_reaction].
  eexists. split; [reflexivity|]. split.
  - pnorm. erewrite settle_pending_eq by (pnorm; exact Hr). pnorm. by rewrite Hq.
  - eapply steady_trans; [apply steady_pop|].
    apply steady_browser; [intros; apply settle_workers|intros; apply settle_grows].
Qed.

(** What [update_size] queues. *)
Lemma update_size_tail f z pg :
  steady pg (update_size f z pg) ∧
  ∃ E, microtasks (browser (update_size f z pg)) = microtasks (browser pg) ++ E ∧
       (E = [] ∨ (∃ o, E = [(KUpdateResults, o)]) ∨
        (∃ r o, E = [(KReturn r, o)] ∧
                promises (browser (update_size f z pg)) !! r = Some (Pending [KUpdateResults]))).
Proof.
  destruct f as [f|].
  2:{ split; [apply steady_refl|]. exists []. split; [by rewrite app_nil_r|by left]. }
  unfold update_size. rewrite (surjective_pairing (size f z pg)).
  split; [apply steady_subscribed, steady_size|].
  destruct (size_queue f z KUpdateResults pg) as (E & HE & Hcases).
  exists E. split; [exact HE|].
  destruct Hcases as [->|[[o ->]|(o & -> & Hr)]]; eauto 6.
Qed.

(** A report whose next reaction is queued comes to an end. *)
Lemma report_drain pg k o fuel :
  microtasks (browser pg) = [(k, o)] → is_report k → 3 ≤ fuel →
  quiescent (drain fuel pg) ∧ steady pg (drain fuel pg).
Proof.
  intros Hq [->|(f & z & ->)] Hfuel; [apply (results_drain pg o); [done|lia]|].
  erewrite drain_pop; [|exact Hq|lia]. cbn [run_reaction].
  set (pg0 := with_browser pop_microtask pg).
  assert (microtasks (browser pg0) = []) as Hq0 by (subst pg0; pnorm; by rewrite Hq).
  assert (steady pg pg0) as Hs0 by apply steady_pop.
  destruct o as [v|e].
  2:{ rewrite drain_done by done. done. }
  destruct (update_size_tail f z pg0) as (Hs & E & HE & Hcases).
  rewrite Hq0 in HE. cbn [app] in HE.
  destruct Hcases as [->|[[o ->]|(r & o & -> & Hr)]].
  - rewrite drain_done by done. split; [done|]. by eapply steady_trans.
  - destruct (results_drain (update_size f z pg0) o (pred fuel)) as [Hquiet Hs']; [done|lia|].
    split; [done|]. eapply steady_trans; [|exact Hs']. by eapply steady_trans.
  - destruct (return_step (update_size f z pg0) r KUpdateResults o (pred fuel))
      as (pg1 & -> & Hq1 & Hs1); [done|done|lia|].
    destruct (results_drain pg1 o (pred (pred fuel))) as [Hquiet Hs']; [done|lia|].
    split; [done|].
    eapply steady_trans; [|exact Hs']. eapply steady_trans; [|exact Hs1].
    by eapply steady_trans.
Qed.

(** What a report has queued is run within four reactions. *)
Lemma report_tail_drain pg fuel :
  report_tail pg (microtasks (browser pg)) → 4 ≤ fuel →
  quiescent (drain fuel pg) ∧ steady pg (drain fuel pg).
Proof.
  intros [Hq|[(k & o & Hk & Hq)|(r & k & o & Hk & Hq & Hr)]] Hfuel.
  - rewrite drain_done by done. split; [done|apply steady_refl].
  - apply (report_drain pg k o); [done|done|lia].
  - destruct (return_step pg r k o fuel) as (pg1 & -> & Hq1 & Hs1); [done|done|lia|].
    destruct (report_drain pg1 k o (pred fuel)) as [Hquiet Hs']; [done|done|lia|].
    split; [done|]. by eapply steady_trans.
Qed.

Lemma ready_resting pg : ready pg → resting pg.
Proof.
  intros (Hpend & Hjob & HQ). split_and!; [done|done|].
  exists (microtasks (browser pg)), []. split_and!; [by rewrite app_nil_r|done|by left].
Qed.

(** A resting page comes to rest once its queue has been run. *)
Lemma resting_drain pg fuel :
  resting pg → length (microtasks (browser pg)) + 4 ≤ fuel →
  idle (drain fuel pg) ∧ steady pg (drain fuel pg).
Proof.
  intros (Hpend & [o Hjob] & Q & E & Hq & HQ & HE) Hfuel.
  rewrite Hq, length_app in Hfuel.
  replace fuel with (length Q + (fuel - length Q)) by lia.
  erewrite (drain_noops Q E); [|exact Hq|done].
  set (pg0 := with_browser (set_microtasks E) pg).
  assert (steady pg pg0) as Hs0 by apply steady_queue.
  destruct (report_tail_drain pg0 (fuel - length Q)) as [Hquiet Hs]; [done|lia|].
  assert (steady pg (drain (fuel - length Q) pg0)) as Hsteady by (by eapply steady_trans).
  split; [|done].
  destruct Hsteady as (Hsvgo & Hcur & _ & _ & _ & _ & _ & _ & _ & _ & Hgrow).
  split_and!; [done|by rewrite Hsvgo|]. exists o. rewrite Hcur. by apply Hgrow.
Qed.

(** The steps that end a cycle. *)
Lemma cache_add_ready c fp f pg : ready pg → ready (cache_add c fp f pg).
Proof. unfold cache_add. by destruct (ResultsCache.add fp f (_cache pg, heap pg)). Qed.

Lemma compress_catch_ready e pg : ready pg → ready (compress_catch e pg).
Proof. unfold compress_catch. by case_decide. Qed.

Lemma compress_catch_step c e pg : cycle_step c pg (compress_catch e pg).
Proof.
  unfold compress_catch. case_decide; [apply cycle_step_refl|].
  split_and!; [done|exists []|exists []]; by rewrite app_nil_r.
Qed.

Lemma compress_catch_browser e pg : browser (compress_catch e pg) = browser pg.
Proof. unfold compress_catch. by case_decide. Qed.

Lemma compress_catch_ends c e pg : ready pg → ends c pg (compress_catch e pg).
Proof.
  intros Hr. split_and!.
  - by apply ready_resting, compress_catch_ready.
  - rewrite compress_catch_browser. lia.
  - unfold process_requests. by rewrite compress_catch_browser.
  - apply compress_catch_step.
Qed.

Lemma steady_step c pg pg1 pg2 : cycle_step c pg pg1 → steady pg1 pg2 → cycle_step c pg pg2.
Proof.
  intros (Hcyc & Hupd & Hcac) (_ & _ & _ & _ & _ & Hu & Hc & _ & Hy & _).
  unfold cycle_step. by rewrite Hy, Hu, Hc.
Qed.

Lemma _updateForFile_ends c f g z pg : ready pg → ends c pg (_updateForFile c f g z pg).
Proof.
  intros (Hpend & [o Hjob] & HQ). unfold _updateForFile. cbv zeta.
  match goal with
  | |- ends _ _ (match g with Some _ => _ | None => update_size _ _ ?x end) =>
      set (shown := x)
  end.
  assert (cycle_step c pg shown) as Hstep.
  { split_and!; [done| |exists []; by rewrite app_nil_r].
    eexists. split; [reflexivity|]. by repeat constructor. }
  assert (∃ pg', pg' = match g with
                       | Some g =>
                           let '(p, pg) := size g z shown in
                           with_browser (subscribe p (KUpdateSize f z)) pg
                       | None => update_size f z shown
                       end ∧
                 steady shown pg' ∧
                 ∃ E, microtasks (browser pg') = microtasks (browser pg) ++ E ∧
                      report_tail pg' E ∧ length E ≤ 1) as (pg' & <- & Hs & E & HE & Ht & Hlen).
  { eexists. split; [reflexivity|]. destruct g as [g|].
    - rewrite (surjective_pairing (size g z shown)).
      split; [apply steady_subscribed, steady_size|].
      destruct (size_queue g z (KUpdateSize f z) shown) as (E & HE & Hcases).
      exists E. split; [exact HE|].
      destruct Hcases as [->|[[o' ->]|(o' & -> & Hr)]].
      + split; [by left|simpl; lia].
      + split; [right; left; eexists _, _; split; [right; eauto|done]|simpl; lia].
      + split; [|simpl; lia]. right. right. eexists _, _, _. split; [right; eauto|done].
    - destruct (update_size_tail f z shown) as (Hs & E & HE & Hcases).
      split; [done|]. exists E. split; [exact HE|].
      destruct Hcases as [->|[[o' ->]|(r & o' & -> & Hr)]].
      + split; [by left|simpl; lia].
      + split; [right; left; eexists _, _; split; [by left|done]|simpl; lia].
      + split; [|simpl; lia]. right. right. eexists _, _, _. split; [by left|done]. }
  pose proof Hs as (Hsvgo & Hcur & _ & _ & _ & _ & _ & _ & _ & Hreq & Hgrow).
  split_and!.
  - split_and!; [by rewrite Hsvgo|exists o; rewrite Hcur; by apply Hgrow|].
    by exists (microtasks (browser pg)), E.
  - rewrite HE, length_app. lia.
  - by rewrite Hreq.
  - by eapply steady_step.
Qed.

Lemma compress_finish_ends c settings f pg :
  ready pg → ends c pg (compress_finish c settings f pg).
Proof.
  intros Hr. unfold compress_finish.
  destruct (_updateForFile_ends c (Some f) (_inputItem pg) (compress_option settings) pg Hr)
    as (Hrest & Hlen & Hreq & Hstep).
  set (pg1 := _updateForFile c (Some f) (_inputItem pg) (compress_option settings) pg) in *.
  unfold cache_add. destruct (ResultsCache.add _ _ _) as [c' h'].
  split_and!; [exact Hrest|exact Hlen|exact Hreq|].
  destruct Hstep as (Hcyc & Hupd & cs & Hcac & Hcs).
  split_and!; [done|done|]. cbn [cached cycles].
  exists (cs ++ [{| add_cycle := c; add_latest := cycles pg1;
                    add_fingerprint := fingerprint settings; add_file := f |}]).
  rewrite Hcac, app_assoc. split; [done|].
  apply Forall_app. split; [done|]. by repeat constructor.
Qed.

(** A step that ends the cycle leaves the chain idle at the end of the
    checkpoint. *)
Lemma ends_drain c pg pg1 fuel :
  ends c pg pg1 → length (microtasks (browser pg)) + 5 ≤ fuel →
  idle (drain fuel pg1) ∧ cycle_step c pg (drain fuel pg1) ∧
  process_requests (drain fuel pg1) = process_requests pg.
Proof.
  intros (Hrest & Hlen & Hreq & Hstep) Hfuel.
  destruct (resting_drain pg1 fuel Hrest) as [Hidle Hs]; [lia|].
  split_and!; [done|by eapply steady_step|].
  destruct Hs as (_ & _ & _ & _ & _ & _ & _ & _ & _ & Hreq' & _). by rewrite Hreq'.
Qed.

Lemma ends_outcome c k pg pg1 fuel :
  ends c pg pg1 → length (microtasks (browser pg)) + 5 ≤ fuel →
  let pg' := drain fuel pg1 in
  (idle pg' ∨ ∃ id, busy k id pg') ∧ cycle_step c pg pg'.
Proof.
  intros He Hfuel pg'. subst pg'.
  destruct (ends_drain c pg pg1 fuel He Hfuel) as (Hidle & Hstep & _).
  split; [by left|done].
Qed.

(** The flushed page has the logs of the page. *)
Lemma flushed_step c pg pg' : cycle_step c pg pg' → cycle_step c pg (flushed pg').
Proof. done. Qed.

(** A pass either comes to rest after an exception, or has its request in
    flight at the end of the checkpoint. *)
Lemma start_pass_outcome c x settings k pg fuel :
  ready pg → length (microtasks (browser pg)) + 2 ≤ fuel →
  let pg' := drain fuel (start_pass x settings k pg) in
  (idle pg' ∨ ∃ id, busy k id pg') ∧ cycle_step c pg pg'.
Proof.
  intros Hr Hfuel. destruct x as [text|e].
  - destruct Hr as (Hpend & [o Hjob] & HQ).
    intros pg'. subst pg'. rewrite (pass_run _ _ _ _ o) by done.
    split.
    + right. eexists. split; [done|]. pnorm. eexists. split; [reflexivity|].
      split; repeat look; done.
    + split_and!; [done|exists []|exists []]; by rewrite app_nil_r.
  - intros pg'. subst pg'. unfold start_pass.
    destruct (ready_drain (compress_catch e pg) fuel) as [-> Hidle].
    + by apply compress_catch_ready.
    + unfold compress_catch. case_decide; simpl; lia.
    + split; [by left|]. apply flushed_step, compress_catch_step.
Qed.
(** A step that leaves the job chain alone ends the cycle. *)
Lemma rest_outcome c k pg pg1 fuel :
  ready pg1 → cycle_step c pg pg1 →
  length (microtasks (browser pg1)) ≤ fuel →
  let pg' := drain fuel pg1 in
  (idle pg' ∨ ∃ id, busy k id pg') ∧ cycle_step c pg pg'.
Proof.
  intros Hr Hstep Hfuel pg'. subst pg'.
  destruct (ready_drain pg1 fuel Hr Hfuel) as [-> Hidle].
  split; [by left|]. by apply flushed_step.
Qed.

(** From the token check on, for the cycle whose token is the latest. *)
Lemma resume_outcome c r settings pg fuel :
  ready pg → _latestCompressJobId pg = r →
  length (microtasks (browser pg)) + 5 ≤ fuel →
  let pg' := drain fuel (compress_resume c r settings pg) in
  (idle pg' ∨ ∃ id, busy (KCompressPass1 c r settings) id pg') ∧ cycle_step c pg pg'.
Proof.
  intros Hr Hlat Hfuel. unfold compress_resume.
  rewrite decide_False by (intros Hne; by apply Hne).
  destruct (original settings).
  { apply ends_outcome; [by apply _updateForFile_ends|done]. }
  destruct (ResultsCache.match_ _ _) as [cacheMatch|].
  { apply ends_outcome; [by apply _updateForFile_ends|done]. }
  apply start_pass_outcome; [done|lia].
Qed.

(** After the first pass. *)
Lemma pass1_outcome c t settings o pg fuel :
  ready pg → length (microtasks (browser pg)) + 5 ≤ fuel →
  let pg' := drain fuel (compress_pass1 c t settings o pg) in
  (idle pg' ∨ ∃ id, busy (KCompressPass2 c t settings) id pg') ∧ cycle_step c pg pg'.
Proof.
  intros Hr Hfuel. unfold compress_pass1.
  destruct o as [v|e].
  - destruct v;
      try (apply rest_outcome;
           [by apply compress_catch_ready|apply compress_catch_step|
            unfold compress_catch; case_decide; simpl; lia]).
    destruct (_ || _).
    + apply start_pass_outcome; [done|lia].
    + apply ends_outcome; [by apply compress_finish_ends|done].
  - apply rest_outcome;
      [by apply compress_catch_ready|apply compress_catch_step|
       unfold compress_catch; case_decide; simpl; lia].
Qed.

(** After the second pass. *)
Lemma pass2_outcome c t settings o pg fuel :
  ready pg → length (microtasks (browser pg)) + 5 ≤ fuel →
  let pg' := drain fuel (compress_pass2 c t settings o pg) in
  idle pg' ∧ cycle_step c pg pg'.
Proof.
  intros Hr Hfuel pg'. subst pg'. unfold compress_pass2.
  assert (∀ pg1, ready pg1 → cycle_step c pg pg1 →
                 length (microtasks (browser pg1)) ≤ fuel →
                 idle (drain fuel pg1) ∧ cycle_step c pg (drain fuel pg1)) as Hrest.
  { intros pg1 Hr1 Hs1 Hf1. destruct (ready_drain pg1 fuel Hr1 Hf1) as [-> Hidle].
    split; [done|]. by apply flushed_step. }
  destruct o as [v|e].
  - destruct v;
      try (apply Hrest;
           [by apply compress_catch_ready|apply compress_catch_step|
            unfold compress_catch; case_decide; simpl; lia]).
    match goal with |- context [compress_finish c settings ?f pg] =>
      destruct (ends_drain c pg (compress_finish c settings f pg) fuel)
        as (Hidle & Hstep & _); [by apply compress_finish_ends|done|done]
    end.
  - apply Hrest;
      [by apply compress_catch_ready|apply compress_catch_step|
       unfold compress_catch; case_decide; simpl; lia].
Qed.
Lemma task_fuel ev pg :
  ∃ fuel, 16 ≤ fuel ∧ task ev pg = drain fuel (handle ev pg).
Proof.
  exists (16 + load (browser (handle ev pg))). split; [lia|]. apply task_drain. lia.
Qed.

Lemma latest_only_step c pg pg' :
  latest_only pg → cycle_step c pg pg' → c = cycles pg → latest_only pg'.
Proof.
  intros [Hu Hc] (Hcyc & (us & Hupd & Hus) & (cs & Hcac & Hcs)) ->.
  unfold latest_only. rewrite Hupd, Hcac.
  split; apply Forall_app; (split; [done|]).
  - eapply Forall_impl; [exact Hus|]. by intros u [-> ->].
  - eapply Forall_impl; [exact Hcs|]. by intros a [-> ->].
Qed.

Lemma process_result_spec job o pg ks :
  promises (browser pg) !! job = Some (Pending ks) →
  Svgo.process_result job o pg =
    {| browser :=
         {| promises := <[job := Settled (Svgo.process_outcome o (heap pg)).1]> (promises (browser pg));
            microtasks := microtasks (browser pg)
                          ++ map (λ k, (k, (Svgo.process_outcome o (heap pg)).1)) ks;
            spawned := spawned (browser pg); terminated := terminated (browser pg);
            posted := posted (browser pg); console := console (browser pg) |};
       heap := (Svgo.process_outcome o (heap pg)).2; gzip := gzip pg; svgo := svgo pg;
       _currentJob := _currentJob pg; _inputItem := _inputItem pg; _cache := _cache pg;
       _latestCompressJobId := _latestCompressJobId pg; updates := updates pg;
       cached := cached pg; toasts := toasts pg; cycles := cycles pg; gzipped := gzipped pg |}.
Proof.
  intros Hjob. unfold Svgo.process_result.
  destruct (Svgo.process_outcome o (heap pg)) as [o' h']. pnorm.
  by rewrite (settle_pending_eq _ _ _ ks).
Qed.

(** A call of [_compressSvg] keeps the page settled. *)
Lemma compress_task settings r pg :
  settled_page pg → settled_page (task (CompressSvg settings r) pg).
Proof.
  intros [Hlog Hmode].
  destruct (task_fuel (CompressSvg settings r) pg) as (fuel & Hfuel & ->).
  unfold handle, _compressSvg, Svgo.abort. pnorm.
  destruct Hmode as [(Hq & Hpend & o & Hjob) | (id & t & s & Hmode)].
  - rewrite abort_empty by done. pnorm.
    unfold quiescent in Hq. rewrite Hq. simpl app.
    erewrite drain_pop; [|pnorm; reflexivity|lia]. unfold run_reaction. pnorm. simpl tail.
    match goal with |- settled_page (drain _ (compress_resume _ _ _ ?pgR)) =>
      destruct (resume_outcome (S (cycles pg)) r settings pgR (pred fuel)) as [Hm Hs]
    end.
    + split_and!; pnorm; eauto.
    + done.
    + pnorm. simpl. lia.
    + split.
      * eapply latest_only_step; [|exact Hs|done]. exact Hlog.
      * destruct Hs as [Hcyc _]. rewrite Hcyc. pnorm.
        destruct Hm as [Hm|[id Hm]]; [by left|]. right. exists id, r, settings. by left.
  - assert (∃ k q, quiescent pg ∧ _pending (svgo pg) = {[ id := q ]} ∧
                   promises (browser pg) !! q = Some (Pending [KProcessed (_currentJob pg)]) ∧
                   promises (browser pg) !! _currentJob pg = Some (Pending [k]) ∧
                   noop (k, Rejected AbortError) ∧ q ≠ _currentJob pg)
      as (k & q & Hq & Hpend & Hpq & Hpj & Hk & Hne).
    { destruct Hmode as [(Hq & q & ? & ? & ?)|(Hq & q & ? & ? & ?)];
        eexists _, q; split_and!; eauto using noop_aborted1, noop_aborted2;
        intros ->; congruence. }
    assert (q < length (promises (browser pg))) by (by eapply lookup_lt_Some).
    assert (_currentJob pg < length (promises (browser pg))) by (by eapply lookup_lt_Some).
    erewrite abort_singleton by done. pnorm.
    unfold quiescent in Hq. rewrite Hq. simpl app.
    erewrite drain_pop; [|pnorm; reflexivity|lia]. unfold run_reaction. pnorm. simpl tail.
    erewrite process_result_spec by (pnorm; look; done). pnorm. simpl app.
    erewrite drain_pop; [|pnorm; reflexivity|lia]. unfold run_reaction. pnorm. simpl tail.
    match goal with |- settled_page (drain _ (compress_resume _ _ _ ?pgR)) =>
      destruct (resume_outcome (S (cycles pg)) r settings pgR (pred (pred fuel))) as [Hm Hs]
    end.
    + split_and!; pnorm; [done|eexists; look; done|]. by repeat constructor.
    + done.
    + pnorm. simpl. lia.
    + split.
      * eapply latest_only_step; [|exact Hs|done]. exact Hlog.
      * destruct Hs as [Hcyc _]. rewrite Hcyc. pnorm.
        destruct Hm as [Hm|[id' Hm]]; [by left|]. right. exists id', r, settings. by left.
Qed.
(** A message is dropped unless it carries the id of the one request in
    flight. *)
Lemma message_cases data (pending : gmap N promise) id q :
  pending = ∅ ∨ pending = {[ id := q ]} →
  (msg_id data = None ∨ msg_id data = Some 0%N ∨
   ∃ id', msg_id data = Some id' ∧ pending !! id' = None) ∨
  (msg_id data = Some id ∧ id ≠ 0%N ∧ pending = {[ id := q ]}).
Proof.
  intros Hp. destruct (msg_id data) as [id'|] eqn:Hid; [|by left; left].
  destruct (decide (id' = 0%N)) as [->|Hnz]; [by left; right; left|].
  destruct Hp as [->| ->].
  - left. right. right. exists id'. by rewrite lookup_empty.
  - destruct (decide (id' = id)) as [->|Hne]; [by right|].
    left. right. right. exists id'. by rewrite lookup_singleton_ne.
Qed.

(** A message from [svgo]'s worker keeps the page settled. *)
Lemma message_task data pg :
  settled_page pg → settled_page (task (SvgoMessage data) pg).
Proof.
  intros [Hlog Hmode].
  destruct (task_fuel (SvgoMessage data) pg) as (fuel & Hfuel & ->).
  unfold handle.
  assert (settled_page pg → quiescent pg →
               settled_page (drain fuel (with_svgo (svgo pg, console_log (browser pg)) pg)))
    as Hdrop.
  { intros Hs Hq. rewrite drain_done by done.
    destruct Hs as [Hl Hm]. split; [done|].
    destruct Hm as [(? & ? & ?)|(id & t & s & [(? & q & ? & ? & ?)|(? & q & ? & ? & ?)])].
    - left. split_and!; done.
    - right. exists id, t, s. left. split; [done|]. exists q. done.
    - right. exists id, t, s. right. split; [done|]. exists q. done. }
  destruct Hmode as [(Hq & Hpend & o & Hjob) | (id & t & s & Hmode)].
  - rewrite _onMessage_dropped.
    + apply Hdrop; [|done]. split; [done|]. left. split_and!; eauto.
    + destruct (message_cases data (_pending (svgo pg)) 0%N 0) as [Hc|(_ & _ & Hc)];
        [by left|done|].
      rewrite Hpend in Hc. by apply (f_equal (λ m, m !! 0%N)) in Hc.
  - assert (∃ k q, quiescent pg ∧ _pending (svgo pg) = {[ id := q ]} ∧
                   promises (browser pg) !! q = Some (Pending [KProcessed (_currentJob pg)]) ∧
                   promises (browser pg) !! _currentJob pg = Some (Pending [k]) ∧
                   q ≠ _currentJob pg ∧
                   (k = KCompressPass1 (cycles pg) t s ∨ k = KCompressPass2 (cycles pg) t s))
      as (k & q & Hq & Hpend & Hpq & Hpj & Hne & Hk).
    { destruct Hmode as [(Hq & q & ? & ? & ?)|(Hq & q & ? & ? & ?)];
        eexists _, q; split_and!; eauto; intros ->; congruence. }
    assert (q < length (promises (browser pg))) by (by eapply lookup_lt_Some).
    assert (_currentJob pg < length (promises (browser pg))) by (by eapply lookup_lt_Some).
    destruct (message_cases data (_pending (svgo pg)) id q) as [Hc|(Hid & Hnz & _)];
      [by right| |].
    { rewrite _onMessage_dropped by done.
      apply Hdrop; [|done]. split; [done|]. right. eauto. }
    erewrite _onMessage_singleton by done. pnorm.
    unfold quiescent in Hq. rewrite Hq. simpl app.
    erewrite drain_pop; [|pnorm; reflexivity|lia]. unfold run_reaction. pnorm. simpl tail.
    erewrite process_result_spec by (pnorm; look; done). pnorm. simpl app.
    erewrite drain_pop; [|pnorm; reflexivity|lia]. unfold run_reaction. pnorm. simpl tail.
    destruct Hk as [-> | ->].
    + match goal with |- settled_page (drain _ (compress_pass1 _ _ _ ?o ?pgJ)) =>
        destruct (pass1_outcome (cycles pg) t s o pgJ (pred (pred fuel))) as [Hm Hs]
      end.
      * split_and!; pnorm; [done|eexists; look; done|constructor].
      * pnorm. simpl. lia.
      * split.
        -- eapply latest_only_step; [|exact Hs|done]. exact Hlog.
        -- destruct Hs as [Hcyc _]. rewrite Hcyc. pnorm.
           destruct Hm as [Hm|[id' Hm]]; [by left|]. right. exists id', t, s. by right.
    + match goal with |- settled_page (drain _ (compress_pass2 _ _ _ ?o ?pgJ)) =>
        destruct (pass2_outcome (cycles pg) t s o pgJ (pred (pred fuel))) as [Hm Hs]
      end.
      * split_and!; pnorm; [done|eexists; look; done|constructor].
      * pnorm. simpl. lia.
      * split; [|by left].
        eapply latest_only_step; [|exact Hs|done]. exact Hlog.
Qed.

(** Every run of calls of [_compressSvg] and messages of [svgo]'s worker
    keeps the page settled. *)
Lemma run_settled evs pg :
  Forall cycle_event evs → settled_page pg → settled_page (run evs pg).
Proof.
  intros Hevs. revert pg. induction Hevs as [|ev evs Hev _ IH]; intros pg Hs; [done|].
  simpl. apply IH. destruct ev; try done.
  - by apply compress_task.
  - by apply message_task.
Qed.
















(** *** The passes of one cycle *)

Lemma process_requests_snoc pg pg' w id settings text :
  posted (browser pg') = posted (browser pg) ++ [(w, process_message id settings text)] →
  process_requests pg' = process_requests pg ++ [(w, process_message id settings text)].
Proof.
  intros Hp. unfold process_requests. rewrite Hp, filter_app.
  by rewrite filter_cons_True by done.
Qed.

(** A pass posts one request and leaves it in flight. *)
Lemma pass_flight text settings k pg o fuel :
  _pending (svgo pg) = ∅ →
  promises (browser pg) !! _currentJob pg = Some (Settled o) →
  Forall noop (microtasks (browser pg)) →
  length (microtasks (browser pg)) + 2 ≤ fuel →
  let id := (_requestId (svgo pg) + 1)%N in
  let w := default (spawned (browser pg)) (_worker (svgo pg)) in
  let pg' := drain fuel (start_pass (inl text) settings k pg) in
  in_flight k id w pg' ∧
  posted (browser pg') = posted (browser pg) ++ [(w, process_message id settings text)] ∧
  heap pg' = heap pg ∧ cycles pg' = cycles pg.
Proof.
  intros Hpend Hjob HQ Hfuel id w pg'. subst id w pg'.
  rewrite (pass_run _ _ _ _ o) by done. unfold in_flight, busy. pnorm.
  split_and!; try done.
  eexists. split; [reflexivity|].
  split; repeat look; done.
Qed.

(** A call of [_compressSvg] on an idle page reaches the token check at once. *)
Lemma compress_from_idle settings r pg :
  idle pg →
  ∃ fuel, 15 ≤ fuel ∧
    task (CompressSvg settings r) pg =
    drain fuel
      (compress_resume (S (cycles pg)) r settings
         {| browser := set_microtasks [] (browser pg); heap := heap pg; gzip := gzip pg;
            svgo := svgo pg; _currentJob := _currentJob pg; _inputItem := _inputItem pg;
            _cache := _cache pg; _latestCompressJobId := r; updates := updates pg;
            cached := cached pg; toasts := toasts pg; cycles := S (cycles pg); gzipped := gzipped pg |}).
Proof.
  intros (Hq & Hpend & o & Hjob).
  destruct (task_fuel (CompressSvg settings r) pg) as (fuel & Hfuel & ->).
  exists (pred fuel). split; [lia|].
  unfold handle, _compressSvg, Svgo.abort. pnorm.
  rewrite abort_empty by done. pnorm.
  unfold quiescent in Hq. rewrite Hq. simpl app.
  erewrite drain_pop; [|pnorm; reflexivity|lia]. unfold run_reaction. pnorm. done.
Qed.

(** The reply to the request in flight reaches the waiting continuation
    within the task. *)
Lemma message_from_flight data k id pg :
  busy k id pg → k ≠ KProcessed (_currentJob pg) →
  msg_id data = Some id → id ≠ 0%N →
  let o := match error_of data with
           | Some e => Rejected e
           | None => Fulfilled (msg_result data)
           end in
  let o' := (Svgo.process_outcome o (heap pg)).1 in
  ∃ fuel ps, 14 ≤ fuel ∧
    ps !! _currentJob pg = Some (Settled o') ∧
    task (SvgoMessage data) pg =
    drain fuel
      (run_reaction k o'
         {| browser := {| promises := ps; microtasks := [];
                          spawned := spawned (browser pg);
                          terminated := terminated (browser pg);
                          posted := posted (browser pg);
                          console := console (browser pg) |};
            heap := (Svgo.process_outcome o (heap pg)).2; gzip := gzip pg;
            svgo := {| _requestId := _requestId (svgo pg); _pending := ∅;
                       _worker := _worker (svgo pg) |};
            _currentJob := _currentJob pg; _inputItem := _inputItem pg;
            _cache := _cache pg; _latestCompressJobId := _latestCompressJobId pg;
            updates := updates pg; cached := cached pg; toasts := toasts pg;
            cycles := cycles pg; gzipped := gzipped pg |}).
Proof.
  intros (Hq & q & Hpend & Hpq & Hpj) Hk Hid Hnz o o'.
  destruct (task_fuel (SvgoMessage data) pg) as (fuel & Hfuel & ->).
  assert (q < length (promises (browser pg))) by (by eapply lookup_lt_Some).
  assert (_currentJob pg < length (promises (browser pg))) by (by eapply lookup_lt_Some).
  assert (q ≠ _currentJob pg).
  { intros ->. rewrite Hpj in Hpq. by injection Hpq. }
  exists (pred (pred fuel)). eexists. split; [lia|].
  unfold handle. erewrite _onMessage_singleton by done. pnorm.
  unfold quiescent in Hq. rewrite Hq. simpl app.
  erewrite drain_pop; [|pnorm; reflexivity|lia]. unfold run_reaction at 1. pnorm. simpl tail.
  erewrite process_result_spec by (pnorm; look; done). pnorm. simpl app.
  erewrite drain_pop; [|pnorm; reflexivity|lia]. pnorm. simpl tail.
  split; [|reflexivity]. look. done.
Qed.
Lemma is_pass_aborted k : is_pass k → noop (k, Rejected AbortError).
Proof. intros (c & t & s & [-> | ->]); [apply noop_aborted1|apply noop_aborted2]. Qed.

(** A call of [_compressSvg] while a request is in flight: the request is
    aborted, the cycle that waited for it ends, and the token check is
    reached within the task. *)
Lemma compress_from_busy settings r k id pg :
  is_pass k → busy k id pg →
  ∃ fuel ps, 14 ≤ fuel ∧
    (∃ o, ps !! _currentJob pg = Some (Settled o)) ∧
    task (CompressSvg settings r) pg =
    drain fuel
      (compress_resume (S (cycles pg)) r settings
         {| browser := {| promises := ps; microtasks := [(k, Rejected AbortError)];
                          spawned := S (spawned (browser pg));
                          terminated := option_list (_worker (svgo pg))
                                        ++ terminated (browser pg);
                          posted := posted (browser pg);
                          console := console (browser pg) |};
            heap := heap pg; gzip := gzip pg;
            svgo := {| _requestId := _requestId (svgo pg); _pending := ∅;
                       _worker := Some (spawned (browser pg)) |};
            _currentJob := _currentJob pg; _inputItem := _inputItem pg;
            _cache := _cache pg; _latestCompressJobId := r; updates := updates pg;
            cached := cached pg; toasts := toasts pg; cycles := S (cycles pg);
            gzipped := gzipped pg |}).
Proof.
  intros Hk (Hq & q & Hpend & Hpq & Hpj).
  pose proof (is_pass_aborted k Hk) as Hnoop.
  assert (q ≠ _currentJob pg) as Hne.
  { intros ->. rewrite Hpj in Hpq. injection Hpq as ->.
    by destruct Hk as (? & ? & ? & [|]). }
  destruct (task_fuel (CompressSvg settings r) pg) as (fuel & Hfuel & ->).
  exists (pred (pred fuel)). eexists. split; [lia|].
  unfold handle, _compressSvg, Svgo.abort. pnorm.
  assert (q < length (promises (browser pg))) by (by eapply lookup_lt_Some).
  assert (_currentJob pg < length (promises (browser pg))) by (by eapply lookup_lt_Some).
  erewrite abort_singleton by done. pnorm.
  unfold quiescent in Hq. rewrite Hq. simpl app.
  erewrite drain_pop; [|pnorm; reflexivity|lia]. unfold run_reaction at 1. pnorm. simpl tail.
  erewrite process_result_spec by (pnorm; look; done). pnorm. simpl app.
  erewrite drain_pop; [|pnorm; reflexivity|lia]. unfold run_reaction at 1. pnorm. simpl tail.
  cbn [Svgo.process_outcome]. pnorm.
  split; [|reflexivity]. eexists. look. done.
Qed.

Lemma cleanup_off settings text :
  remUnusedTextCode settings || remUnusualAttributes settings = false →
  cleanup settings text = inl text.
Proof.
  intros [H1 H2]%orb_false_iff. unfold cleanup. by rewrite H1, H2.
Qed.

(** The first pass of a cycle that misses the cache. *)
Lemma first_pass settings r pg f file text1 :
  idle pg → original settings = false →
  ResultsCache.match_ (fingerprint settings) (_cache pg) = None →
  _inputItem pg = Some f → files (heap pg) !! f = Some file →
  cleanup settings (SvgFile.text file) = inl text1 →
  let w := default (spawned (browser pg)) (_worker (svgo pg)) in
  let id1 := (_requestId (svgo pg) + 1)%N in
  let pg1 := task (CompressSvg settings r) pg in
  in_flight (KCompressPass1 (S (cycles pg)) r settings) id1 w pg1 ∧
  posted (browser pg1) = posted (browser pg) ++ [(w, process_message id1 settings text1)].
Proof.
  intros Hidle Horig Hmiss Hin Hfile Hclean w id1 pg1. subst w id1 pg1.
  destruct (compress_from_idle settings r pg Hidle) as (fuel & Hfuel & ->).
  destruct Hidle as (Hq & Hpend & o & Hjob).
  unfold compress_resume, text_of. pnorm.
  rewrite decide_False by (intros Hne; by apply Hne).
  rewrite Horig, Hmiss, Hin, Hfile, Hclean.
  match goal with |- context [drain fuel (start_pass _ _ ?k ?pgR)] =>
    pose proof (pass_flight text1 settings k pgR o fuel) as Hpf
  end.
  pnorm_in Hpf. destruct Hpf as (Hf & Hp & _); [done|done|constructor|simpl; lia|].
  done.
Qed.

(** The first pass of a cycle that misses the cache, started while a request
    is in flight: it goes to the worker constructed by [abort()]. *)
Lemma restarted_pass settings r k id pg f file text1 :
  is_pass k → busy k id pg → original settings = false →
  ResultsCache.match_ (fingerprint settings) (_cache pg) = None →
  _inputItem pg = Some f → files (heap pg) !! f = Some file →
  cleanup settings (SvgFile.text file) = inl text1 →
  let w := spawned (browser pg) in
  let id1 := (_requestId (svgo pg) + 1)%N in
  let pg1 := task (CompressSvg settings r) pg in
  in_flight (KCompressPass1 (S (cycles pg)) r settings) id1 w pg1 ∧
  posted (browser pg1) = posted (browser pg) ++ [(w, process_message id1 settings text1)].
Proof.
  intros Hk Hbusy Horig Hmiss Hin Hfile Hclean w id1 pg1. subst w id1 pg1.
  destruct (compress_from_busy settings r k id pg Hk Hbusy)
    as (fuel & ps & Hfuel & [o Hjob] & ->).
  unfold compress_resume, text_of. pnorm.
  rewrite decide_False by (intros Hne; by apply Hne).
  rewrite Horig, Hmiss, Hin, Hfile, Hclean.
  match goal with |- context [drain fuel (start_pass _ _ ?k ?pgR)] =>
    pose proof (pass_flight text1 settings k pgR o fuel) as Hpf
  end.
  pnorm_in Hpf.
  destruct Hpf as (Hf & Hp & _);
    [done|done|by repeat constructor; apply is_pass_aborted|simpl; lia|].
  done.
Qed.

(** The reply to the first pass. *)
Lemma after_pass1 c t settings id w reply pg :
  in_flight (KCompressPass1 c t settings) id w pg →
  msg_id reply = Some id → id ≠ 0%N →
  let cleaning := remUnusedTextCode settings || remUnusualAttributes settings in
  let pg2 := task (SvgoMessage reply) pg in
  match error_of reply, msg_result reply with
  | None, VProcessed data _ _ =>
      if cleaning then
        match cleanup settings data with
        | inl text2 =>
            in_flight (KCompressPass2 c t settings) (id + 1) w pg2 ∧
            process_requests pg2 =
              process_requests pg ++ [(w, process_message (id + 1) settings text2)]
        | inr _ => process_requests pg2 = process_requests pg ∧ idle pg2
        end
      else process_requests pg2 = process_requests pg ∧ idle pg2
  | _, _ => process_requests pg2 = process_requests pg ∧ idle pg2
  end.
Proof.
  intros (Hbusy & Hrid & Hw) Hid Hnz cleaning pg2. subst cleaning pg2.
  destruct (message_from_flight reply _ id pg Hbusy) as (fuel & ps & Hfuel & Hps & ->);
    [done|done|done|].
  unfold run_reaction.
  assert (∀ e pgJ, ready pgJ → microtasks (browser pgJ) = [] →
                   posted (browser pgJ) = posted (browser pg) →
                   process_requests (drain fuel (compress_catch e pgJ)) = process_requests pg ∧
                   idle (drain fuel (compress_catch e pgJ))) as Hcatch.
  { intros e pgJ Hr HQ Hp.
    destruct (ends_drain c pgJ (compress_catch e pgJ) fuel) as (Hi & _ & Hreq);
      [by apply compress_catch_ends|rewrite HQ; simpl; lia|].
    split; [|done]. rewrite Hreq. unfold process_requests. by rewrite Hp. }
  destruct (error_of reply) as [e|].
  { destruct (msg_result reply); (apply Hcatch; [|done|done]); split_and!; pnorm; eauto. }
  destruct (msg_result reply) as [| |data wd ht| | | |];
    try (apply Hcatch; [|done|done]; split_and!; pnorm; eauto).
  unfold compress_pass1, Svgo.process_outcome, new_SvgFile in *. pnorm. pnorm_in Hps.
  destruct (_ || _).
  - unfold text_of. pnorm. rewrite lookup_snoc_eq by done.
    unfold SvgFile.constructor. cbn [SvgFile.text].
    destruct (cleanup settings data) as [text2|e] eqn:Hclean.
    + match goal with |- context [drain fuel (start_pass _ _ ?k ?pgJ)] =>
        pose proof (pass_flight text2 settings k pgJ
                      (Fulfilled (VFile (length (files (heap pg))))) fuel) as Hpf
      end.
      pnorm_in Hpf. destruct Hpf as (Hf & Hp & _); [done|done|constructor|simpl; lia|].
      rewrite Hrid, Hw in *. split; [done|]. by apply process_requests_snoc.
    + cbn [start_pass]. apply Hcatch; [|done|done]. split_and!; pnorm; eauto.
  - match goal with |- context [drain fuel (compress_finish ?c ?s ?f ?pgJ)] =>
      destruct (ends_drain c pgJ (compress_finish c s f pgJ) fuel) as (Hi & _ & Hreq)
    end.
    + apply compress_finish_ends. split_and!; pnorm; eauto.
    + pnorm. simpl. lia.
    + done.
Qed.

(** The reply to the second pass. *)
Lemma after_pass2 c t settings id w reply pg :
  in_flight (KCompressPass2 c t settings) id w pg →
  msg_id reply = Some id → id ≠ 0%N →
  let pg3 := task (SvgoMessage reply) pg in
  process_requests pg3 = process_requests pg ∧ idle pg3.
Proof.
  intros (Hbusy & Hrid & Hw) Hid Hnz pg3. subst pg3.
  destruct (message_from_flight reply _ id pg Hbusy) as (fuel & ps & Hfuel & Hps & ->);
    [done|done|done|].
  unfold run_reaction, compress_pass2.
  assert (∀ pgJ pgE, ends c pgJ pgE → microtasks (browser pgJ) = [] →
                     posted (browser pgJ) = posted (browser pg) →
                     process_requests (drain fuel pgE) = process_requests pg ∧
                     idle (drain fuel pgE)) as Hend.
  { intros pgJ pgE He HQ Hp.
    destruct (ends_drain c pgJ pgE fuel He) as (Hi & _ & Hreq); [rewrite HQ; simpl; lia|].
    split; [|done]. rewrite Hreq. unfold process_requests. by rewrite Hp. }
  match goal with |- context [drain fuel (match ?o with _ => _ end)] =>
    destruct o as [v|e] eqn:Ho
  end.
  - destruct v;
      try (match goal with |- context [drain fuel (compress_catch ?e ?pgJ)] =>
             apply (Hend pgJ); [apply compress_catch_ends; split_and!; pnorm; eauto|done|done]
           end).
    match goal with |- context [drain fuel (compress_finish ?c ?s ?f ?pgJ)] =>
      apply (Hend pgJ); [apply compress_finish_ends; split_and!; pnorm; eauto|done|done]
    end.
  - match goal with |- context [drain fuel (compress_catch ?e ?pgJ)] =>
      apply (Hend pgJ); [apply compress_catch_ends; split_and!; pnorm; eauto|done|done]
    end.
Qed.

(** A pass that is rejected is the last of its cycle. *)
Lemma rejected_pass c t settings e pg :
  process_requests (run_reaction (KCompressPass1 c t settings) (Rejected e) pg)
    = process_requests pg ∧
  process_requests (run_reaction (KCompressPass2 c t settings) (Rejected e) pg)
    = process_requests pg.
Proof.
  cbn [run_reaction compress_pass1 compress_pass2]. unfold process_requests.
  by rewrite compress_catch_browser.
Qed.

(** Amended C6. A cycle that is started between two tasks of the page (the
    chain idle, or the request of an earlier cycle in flight, which the call
    aborts) with an input loaded, is not "show original", misses the cache
    and whose clean-up of the input text does not throw posts its first
    request to [svgo] on the cleaned input text (the input text itself when
    no clean-up setting is on), and waits for it.  On the reply to it, a
    further request is posted exactly when a clean-up setting is on, the
    reply is a processed result and the clean-up of that result's text does
    not throw: then exactly one is posted, on the cleaned text of the first
    result, and whatever the reply to that one, no request follows it and the
    chain is idle.  In every other case (no clean-up setting on, a reply that
    is an error or is not a processed result, a clean-up of the result that
    throws) no further request is posted and the chain is idle.  And when the
    request of a pass is rejected in any way, by an error reply or by the
    [abort()] of a newer call, the continuation that waits for it posts
    nothing. *)
Theorem two_pass_cycle settings r pg f file text1 :
  between_tasks pg → original settings = false →
  ResultsCache.match_ (fingerprint settings) (_cache pg) = None →
  _inputItem pg = Some f → files (heap pg) !! f = Some file →
  cleanup settings (SvgFile.text file) = inl text1 →
  let cleaning := remUnusedTextCode settings || remUnusualAttributes settings in
  let w := if decide (_pending (svgo pg) = ∅)
           then default (spawned (browser pg)) (_worker (svgo pg))
           else spawned (browser pg) in
  let id1 := (_requestId (svgo pg) + 1)%N in
  let pass1 := KCompressPass1 (S (cycles pg)) r settings in
  let pass2 := KCompressPass2 (S (cycles pg)) r settings in
  let pg1 := task (CompressSvg settings r) pg in
  (cleaning = false → text1 = SvgFile.text file) ∧
  process_requests pg1 = process_requests pg ++ [(w, process_message id1 settings text1)] ∧
  in_flight pass1 id1 w pg1 ∧
  (∀ e pg', process_requests (run_reaction pass1 (Rejected e) pg') = process_requests pg' ∧
            process_requests (run_reaction pass2 (Rejected e) pg') = process_requests pg') ∧
  ∀ reply, msg_id reply = Some id1 →
    let pg2 := task (SvgoMessage reply) pg1 in
    match error_of reply, msg_result reply with
    | None, VProcessed data _ _ =>
        if cleaning then
          match cleanup settings data with
          | inl text2 =>
              process_requests pg2 =
                process_requests pg1 ++ [(w, process_message (id1 + 1) settings text2)] ∧
              in_flight pass2 (id1 + 1) w pg2 ∧
              ∀ reply2, msg_id reply2 = Some (id1 + 1)%N →
                let pg3 := task (SvgoMessage reply2) pg2 in
                process_requests pg3 = process_requests pg2 ∧ idle pg3
          | inr _ => process_requests pg2 = process_requests pg1 ∧ idle pg2
          end
        else process_requests pg2 = process_requests pg1 ∧ idle pg2
    | _, _ => process_requests pg2 = process_requests pg1 ∧ idle pg2
    end.
Proof.
  intros Hstart Horig Hmiss Hin Hfile Hclean cleaning w id1 pass1 pass2 pg1.
  assert (in_flight pass1 id1 w pg1 ∧
          posted (browser pg1) = posted (browser pg) ++ [(w, process_message id1 settings text1)])
    as [Hflight Hposted].
  { subst w. destruct Hstart as [Hidle|(k & id & Hk & Hbusy)].
    - rewrite decide_True by (by destruct Hidle as (_ & ? & _)).
      by apply (first_pass settings r pg f file text1).
    - rewrite decide_False.
      + by apply (restarted_pass settings r k id pg f file text1).
      + destruct Hbusy as (_ & q & -> & _). intros Hempty.
        by apply (f_equal (λ m, m !! id)) in Hempty; rewrite lookup_singleton_eq in Hempty. }
  split_and!.
  - intros Hoff. rewrite cleanup_off in Hclean by done. by injection Hclean.
  - by apply process_requests_snoc.
  - done.
  - intros e pg'. apply rejected_pass.
  - intros reply Hid pg2.
    assert (id1 ≠ 0%N) as Hnz by (unfold id1; lia).
    pose proof (after_pass1 _ _ _ _ _ reply pg1 Hflight Hid Hnz) as H1.
    cbv zeta in H1. fold cleaning pg2 in H1.
    destruct (error_of reply); [by destruct (msg_result reply)|].
    destruct (msg_result reply); try done.
    destruct cleaning; [|done].
    destruct (cleanup settings data) as [text2|e]; [|done].
    destruct H1 as [Hflight2 Hposted2].
    split_and!; [done|done|]. intros reply2 Hid2 pg3.
    apply (after_pass2 _ _ _ _ _ reply2 pg2 Hflight2 Hid2). lia.
Qed.
End Facts.


(** Witness of the amended C6, with "remove unused text code" on: the first
    pass succeeds and the second pass is posted on its output; a cycle
    started while that first request is in flight posts its own first request
    to the new worker; and when the clean-up of the first result throws, no
    second request is posted. *)
Lemma two_pass_cycle_witness :
  let settings := example_settings ["remUnusedTextCode"%string] "1" in
  let pg := page_with_input "<svg> </svg>" 1 1 in
  let pg1 := task (H := loading_cleanup) (CompressSvg settings 7) pg in
  let reply := {| msg_id := Some 1%N; msg_result := VProcessed "<svg/>" 1 1;
                  msg_error := None |} in
  let pg2 := task (H := loading_cleanup) (SvgoMessage reply) pg1 in
  let again := task (H := loading_cleanup) (CompressSvg settings 8) pg1 in
  let parsed1 := task (H := parsing_cleanup) (CompressSvg settings 7) pg in
  let empty := {| msg_id := Some 1%N; msg_result := VProcessed EmptyString 0 0;
                  msg_error := None |} in
  let parsed2 := task (H := parsing_cleanup) (SvgoMessage empty) parsed1 in
  process_requests pg1 = [(0, process_message 1 settings "<svg> </svg>")] ∧
  process_requests pg2 =
    process_requests pg1 ++ [(0, process_message 2 settings "<svg/>")] ∧
  process_requests again =
    process_requests pg1 ++ [(1, process_message 2 settings "<svg> </svg>")] ∧
  process_requests parsed2 = process_requests parsed1 ∧ idle parsed2.
Proof.
  intros settings pg pg1 reply pg2 again parsed1 empty parsed2.
  assert (idle pg) as Hidle.
  { split_and!; [done|done|]. by eexists. }
  destruct (two_pass_cycle (H := loading_cleanup) settings 7 pg 0
              (SvgFile.constructor "<svg> </svg>" 1 1) "<svg> </svg>"
              (or_introl Hidle) eq_refl eq_refl eq_refl eq_refl eq_refl)
    as (_ & Hp1 & [Hbusy _] & _ & Hreply).
  assert (between_tasks pg1) as Hstart.
  { right. eexists _, _. split; [|exact Hbusy]. eexists _, _, _. by left. }
  destruct (two_pass_cycle (H := loading_cleanup) settings 8 pg1 0
              (SvgFile.constructor "<svg> </svg>" 1 1) "<svg> </svg>"
              Hstart eq_refl eq_refl eq_refl eq_refl eq_refl) as (_ & Hagain & _).
  destruct (two_pass_cycle (H := parsing_cleanup) settings 7 pg 0
              (SvgFile.constructor "<svg> </svg>" 1 1) "<svg> </svg>"
              (or_introl Hidle) eq_refl eq_refl eq_refl eq_refl eq_refl)
    as (_ & _ & _ & _ & Hparsed).
  split_and!.
  - exact Hp1.
  - exact (proj1 (Hreply reply eq_refl)).
  - exact Hagain.
  - exact (proj1 (Hparsed empty eq_refl)).
  - exact (proj2 (Hparsed empty eq_refl)).
Defined.

(** C6 as stated fails when the first pass fails: with a clean-up setting
    on, the cycle ends after one request. *)
Lemma failed_first_pass_runs_once :
  let settings := example_settings ["remUnusedTextCode"%string] "1" in
  let failure := {| msg_id := Some 1%N; msg_result := VUndefined;
                    msg_error := Some "bad input"%string |} in
  let pg' := run (H := loading_cleanup) [CompressSvg settings 7; SvgoMessage failure]
               (page_with_input "<svg> </svg>" 1 1) in
  MainController.remUnusedTextCode settings = true ∧
  posted (browser pg') = [(0, process_message 1 settings "<svg> </svg>")] ∧
  _pending (svgo pg') !! 1%N = None ∧
  microtasks (browser pg') = [] ∧
  toasts pg' = ["Minifying error: bad input"%string].
Proof. vm_compute. done. Qed.

End CycleFacts.
(** ** SvgFile.size: the memoized compressed size *)
Module SizeFacts.
Import WorkerMessengerFacts MainController PageFacts.

#[local] Arguments drain {_} _ _ : simpl never.
#[local] Arguments load _ : simpl never.

Section Facts.
Context `{!Cleanup}.

(** A call on a memoized and settled size: nothing is posted, and the
    promise it returns has the memoized outcome after the checkpoint. *)
Lemma size_settled f m o pg :
  memo f (heap pg) = Some m → promises (browser pg) !! m = Some (Settled o) →
  quiescent pg →
  posted (browser (task (Size f true) pg)) = posted (browser pg) ∧
  microtasks (browser (task (Size f true) pg)) = [] ∧
  promises (browser (task (Size f true) pg)) !! (size f true pg).1 = Some (Settled o).
Proof.
  intros Hmemo Hp Hq. destruct (memo_inv _ _ _ Hmemo) as (file & Hf & Hm).
  pose proof (lookup_lt_Some _ _ _ Hp) as Hlt.
  match goal with |- context [task ?ev ?p] =>
    rewrite (task_drain ev p (16 + load (browser (handle ev p)))) by lia
  end. cbn [handle]. rewrite (size_memo _ _ _ _ Hf Hm). cbn [fst snd].
  match goal with |- context [drain (16 + ?l)] => generalize l end. intros fuel.
  pnorm. pnorm.
  rewrite (subscribe_settled _ m _ o) by (pnorm; look; exact Hp). pnorm.
  erewrite drain_pop; [|pnorm; rewrite Hq; reflexivity|lia].
  cbn [run_reaction]. pnorm. rewrite Hq. cbn [app tail].
  erewrite settle_pending_eq by (pnorm; look; done). pnorm.
  rewrite drain_done by done. pnorm. ins.
  split_and!; [done|done|by look].
Qed.
(** A reply for a request in flight, whatever else is in flight. *)
Lemma _onMessage_hit {K} (this : WorkerMessenger.t) (b : Browser K) data id q ks :
  msg_id data = Some id → id ≠ 0%N →
  WorkerMessenger._pending this !! id = Some q →
  promises b !! q = Some (Pending ks) →
  let o := match WorkerMessenger.error_of data with
           | Some e => Rejected e
           | None => Fulfilled (msg_result data)
           end in
  WorkerMessenger._onMessage data (this, b) =
    ({| WorkerMessenger._requestId := WorkerMessenger._requestId this;
        WorkerMessenger._pending := delete id (WorkerMessenger._pending this);
        WorkerMessenger._worker := WorkerMessenger._worker this |},
     enqueue (map (λ k, (k, o)) ks) (set_promises (λ ps, <[q := Settled o]> ps) b)).
Proof.
  intros Hid Hne Hq Hp. cbv zeta. unfold WorkerMessenger._onMessage. rewrite Hid.
  destruct id as [|id]; [done|]. unfold WorkerMessenger._fulfillPending. rewrite Hq.
  destruct (WorkerMessenger.error_of data); by erewrite settle_pending_eq.
Qed.

(** The reply to the request of a first call carries an error: the
    memoized promise and the promise of the call are rejected with it. *)
Lemma gzip_failure n id v e pg :
  promises (browser pg) !! S n = Some (Pending [KByteLength (S (S n))]) →
  promises (browser pg) !! S (S n) = Some (Pending [KReturn n]) →
  promises (browser pg) !! n = Some (Pending []) →
  quiescent pg → WorkerMessenger._pending (gzip pg) !! id = Some (S n) → id ≠ 0%N →
  e ≠ EmptyString →
  let reply := {| msg_id := Some id; msg_result := v; msg_error := Some e |} in
  let failed := task (GzipMessage reply) pg in
  heap failed = heap pg ∧ gzipped failed = gzipped pg ∧
  promises (browser failed) !! S (S n) = Some (Settled (Rejected (Error e))) ∧
  promises (browser failed) !! n = Some (Settled (Rejected (Error e))) ∧
  quiescent failed.
Proof.
  intros Hq Hm Hr Hmt Hpend Hid He. cbv zeta. unfold quiescent in *.
  match goal with |- context [task ?ev ?p] =>
    rewrite (task_drain ev p (16 + load (browser (handle ev p)))) by lia
  end.
  match goal with |- context [drain (16 + ?l)] => generalize l end. intros fuel.
  pose proof (lookup_lt_Some _ _ _ Hm) as Hlt.
  cbn [handle].
  rewrite (_onMessage_hit _ _ _ id (S n) [KByteLength (S (S n))]) by done.
  assert (WorkerMessenger.error_of
            {| msg_id := Some id; msg_result := v; msg_error := Some e |} = Some (Error e))
    as -> by (unfold WorkerMessenger.error_of; cbn; by case_decide).
  erewrite drain_pop; [|pnorm; rewrite Hmt; reflexivity|lia].
  cbn [run_reaction]. pnorm. rewrite Hmt. cbn [map app tail].
  erewrite settle_pending_eq by (pnorm; look; exact Hm). pnorm.
  erewrite drain_pop; [|pnorm; reflexivity|lia].
  cbn [run_reaction map app tail]. pnorm.
  erewrite settle_pending_eq by (pnorm; do 2 look; exact Hr). pnorm.
  rewrite drain_done by done. pnorm.
  split_and!; [done|done| |by look|done].
  look. by look.
Qed.

(** The same from the call on. *)
Lemma size_failure f file v e pg :
  files (heap pg) !! f = Some file → SvgFile._compressedSize file = None →
  quiescent pg → e ≠ EmptyString →
  let reply := {| msg_id := Some (WorkerMessenger._requestId (gzip pg) + 1)%N;
                  msg_result := v; msg_error := Some e |} in
  let failed := run [Size f true; GzipMessage reply] pg in
  ∃ m, memo f (heap failed) = Some m ∧
       gzip_requests f failed = S (gzip_requests f pg) ∧
       promises (browser failed) !! m = Some (Settled (Rejected (Error e))) ∧
       promises (browser failed) !! (size f true pg).1 = Some (Settled (Rejected (Error e))) ∧
       quiescent failed.
Proof.
  intros Hf Hm Hq He. cbv zeta. unfold run. cbn [foldl].
  assert (task (Size f true) pg = (size f true pg).2) as ->.
  { unfold task. cbn [handle]. apply drain_done. unfold quiescent in *.
    rewrite (size_fresh _ _ _ Hf Hm). by pnorm. }
  rewrite (size_fresh _ _ _ Hf Hm). cbn [fst snd].
  set (n := length (promises (browser pg))).
  match goal with |- context [task _ ?x] => set (pg1 := x) end.
  destruct (gzip_failure n (WorkerMessenger._requestId (gzip pg) + 1)%N v e pg1)
    as (Hheap & Hlog & Hm' & Hr' & Hq'); try done.
  - subst pg1 n. pnorm. by rewrite lookup_app_r, Nat.sub_succ_l, Nat.sub_diag by lia.
  - subst pg1 n. pnorm.
    by rewrite lookup_app_r, !Nat.sub_succ_l, Nat.sub_diag by lia.
  - subst pg1 n. pnorm. by rewrite lookup_app_r, Nat.sub_diag by lia.
  - subst pg1. pnorm. apply lookup_insert_eq.
  - lia.
  - exists (S (S n)). rewrite Hheap. split_and!; try done.
    + subst pg1. pnorm. by apply memo_set.
    + unfold gzip_requests. rewrite Hlog. subst pg1. pnorm.
      rewrite filter_app, length_app, filter_cons_True by done. simpl. lia.
Qed.

(** The code units of a text, counted on its bytes: one for each byte that
    is not a continuation byte, and one more for each byte that starts a
    sequence of four. *)
Lemma code_units_spec c :
  code_units c =
    ((if decide (N_of_ascii c < 128 ∨ 192 ≤ N_of_ascii c)%N then 1 else 0)
     + (if decide (240 ≤ N_of_ascii c)%N then 1 else 0))%N.
Proof.
  unfold code_units. cbv zeta. generalize (N_of_ascii c). intros b.
  destruct (N.ltb_spec b 128); [|destruct (N.ltb_spec b 192); [|destruct (N.ltb_spec b 240)]];
    repeat case_decide; lia.
Qed.

Lemma utf16_length_units s :
  utf16_length s =
    (N.of_nat (length (filter (λ c, (N_of_ascii c < 128 ∨ 192 ≤ N_of_ascii c)%N)
                              (list_ascii_of_string s)))
     + N.of_nat (length (filter (λ c, (240 ≤ N_of_ascii c)%N) (list_ascii_of_string s))))%N.
Proof.
  induction s as [|c s IH]; [done|].
  cbn [utf16_length list_ascii_of_string]. rewrite IH, code_units_spec.
  rewrite !filter_cons.
  repeat case_decide; cbn [length]; lia.
Qed.

Lemma utf16_length_ascii s :
  Forall (λ c, (N_of_ascii c < 128)%N) (list_ascii_of_string s) →
  utf16_length s = N.of_nat (String.length s).
Proof.
  induction s as [|c s IH]; [done|].
  cbn [utf16_length list_ascii_of_string String.length]. intros [Hc Hs]%Forall_cons.
  rewrite IH by done. rewrite code_units_spec.
  repeat case_decide; lia.
Qed.

(** C10. [size] on a file [f] of the page. (1) [size({ compress: false })]
    returns a promise that is fulfilled at once with the length of the text,
    and neither the workers nor the file are touched.  The length is that of
    the JavaScript string, its number of UTF-16 code units: on the bytes of
    the text, the bytes that are not continuation bytes, counted twice when
    they start a sequence of four; it is the number of characters when the
    text is ASCII. (2) In any run of page
    tasks, from any state, the text of [f] is passed to [gzip.compress] at
    most once more, and not at all once the size of [f] is memoized: this
    counts the calls of [size] made by [_updateForFile] as well as the calls
    made as tasks. (3) If the memoized promise of [f] is rejected with [e],
    then after any further run of tasks a call of
    [f.size({ compress: true })] posts nothing and the promise it returns is
    rejected with [e] by the end of the checkpoint. (4) When the
    reply to the request of the first call carries an error, the memoized
    promise and the promise of that call are rejected with that error. *)
Theorem size_memoized (f : ref) (file : SvgFile.t) (evs : list Event) (pg : Page) :
  files (heap pg) !! f = Some file →
  (let call := size f false pg in
   let bytes := list_ascii_of_string (SvgFile.text file) in
   promises (browser call.2) !! call.1 =
     Some (Settled (Fulfilled (VNumber (text_length file)))) ∧
   text_length file =
     (N.of_nat (length (filter (λ c, (N_of_ascii c < 128 ∨ 192 ≤ N_of_ascii c)%N) bytes))
      + N.of_nat (length (filter (λ c, (240 ≤ N_of_ascii c)%N) bytes)))%N ∧
   (Forall (λ c, (N_of_ascii c < 128)%N) bytes →
    text_length file = N.of_nat (String.length (SvgFile.text file))) ∧
   posted (browser call.2) = posted (browser pg) ∧
   spawned (browser call.2) = spawned (browser pg) ∧
   gzip call.2 = gzip pg ∧ svgo call.2 = svgo pg ∧ heap call.2 = heap pg ∧
   gzipped call.2 = gzipped pg) ∧
  (gzip_requests f (run evs pg) ≤ S (gzip_requests f pg) ∧
   (is_Some (memo f (heap pg)) → gzip_requests f (run evs pg) = gzip_requests f pg)) ∧
  (∀ m e,
     memo f (heap pg) = Some m →
     promises (browser pg) !! m = Some (Settled (Rejected e)) →
     quiescent pg →
     let later := run evs pg in
     posted (browser (task (Size f true) later)) = posted (browser later) ∧
     gzip_requests f (task (Size f true) later) = gzip_requests f pg ∧
     memo f (heap (task (Size f true) later)) = Some m ∧
     promises (browser (task (Size f true) later)) !! (size f true later).1 =
       Some (Settled (Rejected e))) ∧
  (SvgFile._compressedSize file = None → quiescent pg →
   ∀ v e, e ≠ EmptyString →
     let reply := {| msg_id := Some (WorkerMessenger._requestId (gzip pg) + 1)%N;
                     msg_result := v; msg_error := Some e |} in
     let failed := run [Size f true; GzipMessage reply] pg in
     ∃ m, memo f (heap failed) = Some m ∧
          gzip_requests f failed = S (gzip_requests f pg) ∧
          promises (browser failed) !! m = Some (Settled (Rejected (Error e))) ∧
          promises (browser failed) !! (size f true pg).1 =
            Some (Settled (Rejected (Error e))) ∧
          quiescent failed).
Proof.
  intros Hf. split_and!.
  - cbv zeta. rewrite (size_plain _ _ _ Hf). cbn [fst snd]. pnorm.
    split_and!; try done; [by look|apply utf16_length_units|apply utf16_length_ascii].
  - by destruct (grows_run evs pg) as (_ & _ & Hreq); destruct (Hreq f) as (_ & ? & _).
  - by destruct (grows_run evs pg) as (_ & _ & Hreq); destruct (Hreq f) as (_ & _ & ? & _).
  - intros m e Hmemo Hm Hq later.
    destruct (grows_run evs pg) as (Hps & Hms & Hreq).
    destruct (size_settled f m (Rejected e) later (Hms _ _ Hmemo) (Hps _ _ Hm)
                (run_quiescent evs pg Hq)) as (Hposted & _ & Hr).
    destruct (grows_run (evs ++ [Size f true]) pg) as (_ & Hms' & Hreq').
    unfold run in Hms', Hreq'. rewrite foldl_app in Hms', Hreq'. cbn [foldl] in Hms', Hreq'.
    split_and!; [exact Hposted| |by apply Hms'|exact Hr].
    destruct (Hreq' f) as (_ & _ & Hsame & _). apply Hsame. by eexists.
  - intros Hnone Hq v e He. by apply (size_failure f file).
Qed.
End Facts.

(** Witness of C10 on a page with one file: the length of an ASCII text and
    of a text with characters of two, three and four bytes (15 code units on
    20 bytes); then the reply to the first request carries an error, and a
    later call is rejected with it. *)
Lemma size_memoized_witness :
  let fresh := page_with_input "<svg/>" 1 1 in
  let accented := page_with_input "<svg>é€𝄞</svg>" 1 1 in
  let reply := {| msg_id := Some 1%N; msg_result := VUndefined;
                  msg_error := Some "gzip failed"%string |} in
  let evs := [Size 0 true; GzipMessage reply; Size 0 true;
              CompressSvg (example_settings ["gzip"%string; "original"%string] "a") 1] in
  let failed := run (H := loading_cleanup) [Size 0 true; GzipMessage reply] fresh in
  let later := run (H := loading_cleanup) [Size 0 false] failed in
  promises (browser (size 0 false fresh).2) !! (size 0 false fresh).1 =
    Some (Settled (Fulfilled (VNumber 6))) ∧
  promises (browser (size 0 false accented).2) !! (size 0 false accented).1 =
    Some (Settled (Fulfilled (VNumber 15))) ∧
  String.length "<svg>é€𝄞</svg>" = 20 ∧
  gzip_requests 0 (run (H := loading_cleanup) evs fresh) ≤ 1 ∧
  memo 0 (heap failed) = Some 3 ∧
  promises (browser failed) !! 3 = Some (Settled (Rejected (Error "gzip failed"))) ∧
  posted (browser (task (H := loading_cleanup) (Size 0 true) later)) = posted (browser later) ∧
  promises (browser (task (H := loading_cleanup) (Size 0 true) later))
    !! (size 0 true later).1 = Some (Settled (Rejected (Error "gzip failed"))).
Proof.
  intros fresh accented reply evs failed later.
  pose proof (size_memoized (H := loading_cleanup) 0 _ evs fresh eq_refl)
    as ((Hplain & _) & [Hle _] & _ & Hfail).
  pose proof (size_memoized (H := loading_cleanup) 0 _ [] accented eq_refl)
    as ((Haccented & _) & _).
  destruct (Hfail eq_refl eq_refl VUndefined "gzip failed"%string ltac:(done))
    as (m & Hmemo & _ & Hm & _).
  assert (m = 3) as -> by (vm_compute in Hmemo; congruence).
  pose proof (size_memoized (H := loading_cleanup) 0 _ [Size 0 false] failed eq_refl)
    as (_ & _ & Hlater & _).
  destruct (Hlater 3 (Error "gzip failed") Hmemo Hm eq_refl) as (Hposted & _ & _ & Hr).
  split_and!;
    [exact Hplain|exact Haccented|reflexivity|exact Hle|exact Hmemo|exact Hm|exact Hposted|
     exact Hr].
Defined.
End SizeFacts.

(** ** escapeHTML and escapeHtmlTag *)
Module UtilFacts.

Lemma chars_app (a b : string) :
  list_ascii_of_string (a ++ b) = list_ascii_of_string a ++ list_ascii_of_string b.
Proof. induction a as [|c a IH]; simpl; [done|]. by rewrite IH. Qed.

Lemma occurrences_app c (a b : string) :
  occurrences c (a ++ b) = occurrences c a + occurrences c b.
Proof. unfold occurrences. by rewrite chars_app, filter_app, length_app. Qed.

Lemma entityMap_special c : is_Some (entityMap c) ↔ special c = true.
Proof.
  unfold special, entityMap. rewrite bool_decide_eq_true.
  repeat case_decide; subst; split; intros Hc; try (by eexists); set_solver.
Qed.

Lemma entityMap_None c : entityMap c = None ↔ special c = false.
Proof.
  pose proof (entityMap_special c) as Hs. destruct (entityMap c), (special c); try done.
  - destruct Hs as [Hs _]. by specialize (Hs (mk_is_Some _ _ eq_refl)).
  - destruct Hs as [_ Hs]. by destruct (Hs eq_refl).
Qed.

(** The characters of an entity. *)
Lemma entity_chars c e x :
  entityMap c = Some e → x ∈ list_ascii_of_string e →
  x ∈ list_ascii_of_string "&amplt;g;quo#39x2F".
Proof.
  unfold entityMap. repeat case_decide; intros He Hx; simplify_eq; simpl in *; set_solver.
Qed.

Lemma escapeHTML_chars str x :
  x ∈ list_ascii_of_string (escapeHTML str) →
  x ∈ list_ascii_of_string "&amplt;g;quo#39x2F" ∨
  (x ∈ list_ascii_of_string str ∧ special x = false).
Proof.
  induction str as [|c str IH]; simpl; [set_solver|].
  rewrite chars_app. intros [Hx|Hx]%elem_of_app.
  - destruct (entityMap c) as [e|] eqn:He.
    + left. by eapply entity_chars.
    + right. simpl in Hx. apply list_elem_of_singleton in Hx as ->.
      split; [set_solver|]. by apply entityMap_None.
  - destruct (IH Hx) as [?|[? ?]]; [by left|right]. split; [set_solver|done].
Qed.

(** What replaces one character. *)
Lemma escape_head c1 c2 (r1 r2 : string) :
  (match entityMap c1 with Some e => e | None => String c1 EmptyString end ++ r1 =
   match entityMap c2 with Some e => e | None => String c2 EmptyString end ++ r2)%string →
  c1 = c2 ∧ r1 = r2.
Proof.
  unfold entityMap. repeat case_decide; subst; simpl; intros Heq; by simplify_eq.
Qed.

Lemma length_append (a b : string) :
  String.length (a ++ b) = String.length a + String.length b.
Proof.
  induction a as [|c a IH]; [done|].
  change (S (String.length (a ++ b)) = S (String.length a) + String.length b). lia.
Qed.

Lemma escapeHTML_length str : String.length str ≤ String.length (escapeHTML str).
Proof.
  induction str as [|c str IH]; simpl; [done|].
  rewrite length_append. unfold entityMap. repeat case_decide; simpl; lia.
Qed.

Lemma escape_injective (str1 str2 : string) :
  escapeHTML str1 = escapeHTML str2 → str1 = str2.
Proof.
  revert str2. induction str1 as [|c1 str1 IH]; intros [|c2 str2]; simpl; try done.
  - unfold entityMap. repeat case_decide; by simpl.
  - unfold entityMap. repeat case_decide; by simpl.
  - intros [-> Hr]%escape_head. by rewrite (IH _ Hr).
Qed.

Lemma escapeHTML_occurrences c str :
  c ∈ ["<"; ">"; "034"; "'"; "/"]%char → occurrences c (escapeHTML str) = 0.
Proof.
  intros Hc. unfold occurrences.
  destruct (filter _ _) as [|x l] eqn:Hf; [done|]. exfalso.
  assert (x ∈ filter (λ x, x = c) (list_ascii_of_string (escapeHTML str))) as Hx
    by (rewrite Hf; left).
  apply list_elem_of_filter in Hx as [-> Hx].
  apply escapeHTML_chars in Hx as [Hx|[_ Hx]].
  - simpl in Hx. set_solver.
  - unfold special in Hx. apply bool_decide_eq_false in Hx. set_solver.
Qed.

Lemma tag_occurrences c (values : list string) (strings : list string) k (acc : string) :
  c ∈ ["<"; ">"; "034"; "'"; "/"]%char →
  occurrences c
    (foldl (λ (str : string) (iv : nat * string),
              (str ++ iv.2 ++ default EmptyString ((escapeHTML <$> values) !! iv.1))%string)
           acc (zip (seq k (length strings)) strings)) =
  occurrences c acc + sum_list_with (occurrences c) strings.
Proof.
  intros Hc. revert k acc. induction strings as [|s strings IH]; intros k acc.
  - simpl. lia.
  - cbn [length seq zip zip_with foldl sum_list_with]. rewrite IH.
    rewrite !occurrences_app. cbn [fst snd].
    rewrite list_lookup_fmap. destruct (values !! k) as [v|].
    + change (default EmptyString (escapeHTML <$> Some v)) with (escapeHTML v).
      rewrite escapeHTML_occurrences by done. lia.
    + change (default EmptyString (escapeHTML <$> None)) with EmptyString.
      change (occurrences c EmptyString) with 0. lia.
Qed.

(** X1. The text returned by [escapeHTML] holds none of the characters
    [<], [>], double quote, single quote and [/], whatever the argument. *)
Theorem escapeHTML_no_markup (str : string) (x : ascii) :
  x ∈ list_ascii_of_string (escapeHTML str) → x ∉ ["<"; ">"; "034"; "'"; "/"]%char.
Proof.
  intros [Hx|[_ Hx]]%escapeHTML_chars Hin.
  - simpl in Hx. set_solver.
  - unfold special in Hx. apply bool_decide_eq_false in Hx. set_solver.
Qed.

Lemma escapeHTML_no_markup_witness :
  "&"%char ∈ list_ascii_of_string (escapeHTML "</a>") ∧
  "&"%char ∉ ["<"; ">"; "034"; "'"; "/"]%char.
Proof.
  assert ("&"%char ∈ list_ascii_of_string (escapeHTML "</a>")) as Hin by (simpl; left).
  split; [exact Hin|]. exact (escapeHTML_no_markup "</a>" "&" Hin).
Defined.

(** X2. [escapeHTML] loses nothing: two texts with the same escaped text are
    the same text. *)
Theorem escapeHTML_inj (str1 str2 : string) :
  escapeHTML str1 = escapeHTML str2 → str1 = str2.
Proof. apply escape_injective. Qed.

Lemma escapeHTML_inj_witness :
  escapeHTML "a<b" = "a&lt;b"%string ∧ "a<b"%string = "a<b"%string.
Proof. split; [reflexivity|]. exact (escapeHTML_inj "a<b" "a<b" eq_refl). Defined.

(** X3. [escapeHTML] returns its argument unchanged exactly when the
    argument holds none of the six characters it replaces; so escaping a text
    twice differs from escaping it once as soon as anything was replaced. *)
Theorem escapeHTML_fixed (str : string) :
  (escapeHTML str = str ↔ Forall (λ c, special c = false) (list_ascii_of_string str)) ∧
  (escapeHTML (escapeHTML str) = escapeHTML str ↔ escapeHTML str = str).
Proof.
  assert (∀ s, escapeHTML s = s ↔ Forall (λ c, special c = false) (list_ascii_of_string s))
    as Hfix.
  { intros s. induction s as [|c s IH]; simpl; [by split|]. split.
    - intros Heq. destruct (entityMap c) as [e|] eqn:He.
      + exfalso. pose proof (escapeHTML_length s) as Hlen.
        apply (f_equal String.length) in Heq. revert He Heq. unfold entityMap.
        repeat case_decide; intros; simplify_eq; rewrite length_append in *; simpl in *; lia.
      + simpl in Heq. injection Heq as Heq. constructor; [by apply entityMap_None|].
        by apply IH.
    - intros Hall. apply Forall_cons in Hall as [Hc Hall].
      apply entityMap_None in Hc. rewrite Hc. simpl. f_equal. by apply IH. }
  split; [apply Hfix|]. split.
  - apply escape_injective.
  - intros Heq. rewrite Heq. exact Heq.
Qed.

(** X4. A text built by the template tag [escapeHtmlTag] has its markup
    characters from the literal parts of the template only: each of [<], [>],
    the two quotes and [/] occurs exactly as often as in the literal parts,
    whatever the interpolated values. *)
Theorem escapeHtmlTag_markup (strings values : list string) (c : ascii) :
  c ∈ ["<"; ">"; "034"; "'"; "/"]%char →
  occurrences c (escapeHtmlTag strings values) = sum_list_with (occurrences c) strings.
Proof.
  intros Hc. unfold escapeHtmlTag. cbv zeta. by rewrite tag_occurrences.
Qed.

Lemma escapeHtmlTag_markup_witness :
  occurrences "<" (escapeHtmlTag ["<li>"; "</li>"]%string ["a<b</li><li>"]%string) = 2.
Proof. apply (escapeHtmlTag_markup ["<li>"; "</li>"]%string). set_solver. Defined.
End UtilFacts.

(** ** Changelog.showLogFrom *)
Module ChangelogFacts.
Import UtilFacts Changelog.

Lemma ToNumber_snoc (a : string) (c : ascii) :
  ToNumber (a ++ String c EmptyString) = 10 * ToNumber a + (nat_of_ascii c - 48).
Proof. unfold ToNumber. rewrite chars_app, foldl_app. done. Qed.

Lemma digit_value d : d < 10 → nat_of_ascii (digit d) - 48 = d.
Proof. intros Hd. unfold digit. rewrite nat_ascii_embedding by lia. lia. Qed.

Lemma ToNumber_digits fuel n : n < fuel → ToNumber (digits fuel n) = n.
Proof.
  revert n. induction fuel as [|fuel IH]; intros n Hn; [lia|].
  cbn [digits]. rewrite ToNumber_snoc, digit_value by (apply Nat.mod_upper_bound; lia).
  pose proof (Nat.div_mod n 10 ltac:(lia)) as Hdiv.
  case_decide as Hsmall.
  - change (ToNumber EmptyString) with 0. rewrite Nat.mod_small by lia. lia.
  - rewrite IH; [lia|]. apply Nat.Div0.div_lt_upper_bound. lia.
Qed.

Lemma ToNumber_key i : ToNumber (key i) = i.
Proof. apply ToNumber_digits. lia. Qed.

Lemma ToNumber_next i : ToNumber (key i ++ "1") = 10 * i + 1.
Proof. rewrite ToNumber_snoc, ToNumber_key. done. Qed.

Lemma scan_older loaded last pre old post j s e :
  Forall (λ x, version x ≠ loaded ∧ version x ≠ last) pre →
  version old = last → last ≠ loaded →
  scan loaded last (entries_from j (pre ++ old :: post)) s e =
  (s, match pre with [] => e | _ => IStr (key (j + length pre - 1) ++ "1") end).
Proof.
  intros Hpre Hold Hne. revert j e.
  induction Hpre as [|x pre [Hx1 Hx2] Hpre IH]; intros j e.
  - cbn [app entries_from scan]. rewrite !decide_False, decide_True by congruence. done.
  - cbn [app entries_from scan]. rewrite !decide_False by done. rewrite IH.
    destruct pre as [|y pre]; cbn [length].
    + by replace (j + 1 - 1) with j by lia.
    + by replace (S j + S (length pre) - 1) with (j + S (S (length pre)) - 1) by lia.
Qed.

(** X5. [showLogFrom] after an update.  When the newest entry of the changelog
    is the loaded version and the version seen last stands [p] entries further
    down, the list shown holds the changes of the first [10 * p + 1] entries
    of the changelog (all of them when it has fewer), not only those of the
    entries above the version seen last: the loop runs over [Object.entries],
    whose keys are strings, so [i + 1] appends the digit 1.  Each change is an
    [<li>] element with its text escaped. *)
Theorem showLogFrom_after_update (loaded last : string) (newest old : entry)
    (between older : list entry) :
  version newest = loaded →
  version old = last →
  last ≠ loaded →
  Forall (λ x, version x ≠ loaded ∧ version x ≠ last) between →
  let changelog := newest :: between ++ old :: older in
  listed loaded last changelog = take (10 * length between + 1) changelog ∧
  showLogFrom loaded last changelog =
    Some ("<ul>"
          ++ String.concat EmptyString
               ((λ change, "<li>" ++ escapeHTML change ++ "</li>")
                  <$> concat (changes <$> take (10 * length between + 1) changelog))
          ++ "</ul>")%string.
Proof.
  intros Hnew Hold Hne Hbetween changelog.
  assert (listed loaded last changelog = take (10 * length between + 1) changelog) as Hlisted.
  { unfold listed, Object_entries, changelog. cbn [entries_from scan].
    rewrite decide_True by done.
    rewrite (scan_older loaded last between old older 1) by done.
    destruct between as [|x between]; cbn [ToIntegerOrInfinity].
    - rewrite ToNumber_key, ToNumber_next. unfold slice. cbn [drop length].
      by replace (10 * 0 + 1 - 0) with (10 * 0 + 1) by lia.
    - rewrite ToNumber_key, ToNumber_next. unfold slice. cbn [drop].
      f_equal; cbn [length]; lia. }
  split; [done|].
  unfold showLogFrom. rewrite decide_False by done. cbv zeta. rewrite Hlisted.
  reflexivity.
Qed.

Lemma showLogFrom_after_update_witness :
  listed "1.3" "1.1"
    [{| version := "1.3"; changes := ["c"] |}; {| version := "1.2"; changes := ["<b>"] |};
     {| version := "1.1"; changes := ["a"] |}; {| version := "1.0"; changes := ["first"] |}]%string
  = [{| version := "1.3"; changes := ["c"] |}; {| version := "1.2"; changes := ["<b>"] |};
     {| version := "1.1"; changes := ["a"] |}; {| version := "1.0"; changes := ["first"] |}]%string ∧
  showLogFrom "1.3" "1.1"
    [{| version := "1.3"; changes := ["c"] |}; {| version := "1.2"; changes := ["<b>"] |};
     {| version := "1.1"; changes := ["a"] |}; {| version := "1.0"; changes := ["first"] |}]%string
  = Some "<ul><li>c</li><li>&lt;b&gt;</li><li>a</li><li>first</li></ul>"%string.
Proof.
  apply (showLogFrom_after_update "1.3" "1.1" {| version := "1.3"; changes := ["c"] |}
           {| version := "1.1"; changes := ["a"] |}
           [{| version := "1.2"; changes := ["<b>"] |}]
           [{| version := "1.0"; changes := ["first"] |}])%string.
  - reflexivity.
  - reflexivity.
  - discriminate.
  - repeat constructor; discriminate.
Defined.
End ChangelogFacts.
(** ** WorkerMessenger: any sequence of calls *)
Module SessionFacts.
Import WorkerMessenger WorkerMessengerFacts Session.
Section Facts.
Context {K : Type}.
Implicit Types (this : t) (b : Browser K) (s : t * Browser K) (id : N).

Lemma _fulfillPending_fields id v e s :
  _requestId (fst (_fulfillPending id v e s)) = _requestId (fst s) ∧
  _worker (fst (_fulfillPending id v e s)) = _worker (fst s) ∧
  _pending (fst (_fulfillPending id v e s)) = delete id (_pending (fst s)) ∧
  spawned (snd (_fulfillPending id v e s)) = spawned (snd s) ∧
  terminated (snd (_fulfillPending id v e s)) = terminated (snd s) ∧
  posted (snd (_fulfillPending id v e s)) = posted (snd s).
Proof.
  destruct s as [this b]. unfold _fulfillPending. simpl.
  destruct (_pending this !! id) as [p|] eqn:Hp; simpl.
  - destruct e as [j|]; simpl; pose proof (settle_workers b p) as Hw.
    + destruct (Hw (Rejected j)) as (? & ? & ? & ?). done.
    + destruct (Hw (Fulfilled v)) as (? & ? & ? & ?). done.
  - by rewrite delete_id.
Qed.

Lemma _onMessage_fields data s :
  _requestId (fst (_onMessage data s)) = _requestId (fst s) ∧
  _worker (fst (_onMessage data s)) = _worker (fst s) ∧
  (∀ id, is_Some (_pending (fst (_onMessage data s)) !! id) → is_Some (_pending (fst s) !! id)) ∧
  spawned (snd (_onMessage data s)) = spawned (snd s) ∧
  terminated (snd (_onMessage data s)) = terminated (snd s) ∧
  posted (snd (_onMessage data s)) = posted (snd s).
Proof.
  unfold _onMessage. destruct (msg_id data) as [[|i]|]; simpl; try done.
  destruct (_fulfillPending_fields (N.pos i) (msg_result data) (error_of data) s)
    as (-> & -> & -> & -> & -> & ->).
  split_and!; try done. intros id. destruct (decide (id = N.pos i)) as [->|Hne].
  - rewrite lookup_delete_eq. by intros [? ?].
  - by rewrite lookup_delete_ne.
Qed.

Lemma abort_workers this b :
  let s' := abort (this, b) in
  s' = (this, b) ∨
  (_requestId (fst s') = _requestId this ∧ _pending (fst s') = ∅ ∧
   _worker (fst s') = Some (spawned b) ∧ spawned (snd s') = S (spawned b) ∧
   terminated (snd s') = option_list (_worker this) ++ terminated b ∧
   posted (snd s') = posted b).
Proof.
  unfold abort. simpl. case_decide as Hk; [by left|right].
  pose proof (_abortPending_spec this b) as Hspec. simpl in Hspec.
  destruct (_abortPending (this, b)) as [this1 b1]. simpl in *.
  destruct Hspec as (Hpend & Hrid & Hw & Hsp & Hterm & Hpost & _).
  rewrite Hw. destruct (_worker this); simpl; rewrite ?Hsp, ?Hterm; done.
Qed.

Lemma release_workers this b :
  let s' := release (this, b) in
  _requestId (fst s') = _requestId this ∧ _pending (fst s') = ∅ ∧
  _worker (fst s') = None ∧ spawned (snd s') = spawned b ∧
  terminated (snd s') = option_list (_worker this) ++ terminated b ∧
  posted (snd s') = posted b.
Proof.
  unfold release.
  pose proof (_abortPending_spec this b) as Hspec. simpl in Hspec.
  destruct (_abortPending (this, b)) as [this1 b1]. simpl in *.
  destruct Hspec as (Hpend & Hrid & Hw & Hsp & Hterm & Hpost & _).
  rewrite Hw. destruct (_worker this); simpl; rewrite ?Hterm; done.
Qed.

Lemma numbered_call c s : numbered s → numbered (call c s).
Proof.
  destruct s as [this b]. intros [Hids Hpend]. destruct c as [action settings data| | |data].
  - unfold call. rewrite requestResponse_spec. unfold numbered, posted_ids in *. simpl in *.
    split.
    + rewrite fmap_app, Hids. simpl.
      replace (N.to_nat (_requestId this + 1)) with (S (N.to_nat (_requestId this))) by lia.
      rewrite seq_S, fmap_app. simpl. do 2 f_equal. lia.
    + intros id. destruct (decide (id = (_requestId this + 1)%N)) as [->|Hne]; [lia|].
      rewrite lookup_insert_ne by done. intros Hin. apply Hpend in Hin. lia.
  - unfold call. destruct (abort_workers this b) as [->|(Hr & Hp & _ & _ & _ & Hpost)];
      [by split|].
    unfold numbered, posted_ids. rewrite Hr, Hp, Hpost. split; [done|].
    intros id. rewrite lookup_empty. by intros [? ?].
  - unfold call. destruct (release_workers this b) as (Hr & Hp & _ & _ & _ & Hpost).
    unfold numbered, posted_ids. rewrite Hr, Hp, Hpost. split; [done|].
    intros id. rewrite lookup_empty. by intros [? ?].
  - unfold call. destruct (_onMessage_fields data (this, b)) as (Hr & _ & Hp & _ & _ & Hpost).
    unfold numbered, posted_ids. rewrite Hr, Hpost. split; [done|].
    intros id Hin. by apply Hpend, Hp.
Qed.

Lemma staffed_call c s : staffed s → staffed (call c s).
Proof.
  destruct s as [this b]. intros [Hterm Hw]. destruct c as [action settings data| | |data].
  - unfold call. rewrite requestResponse_spec. unfold staffed, alive in *. simpl in *.
    destruct (_worker this) as [w|] eqn:Hwk; simpl.
    + split; [done|]. intros w' [= <-]. by apply Hw.
    + split; [intros w Hin; apply Hterm in Hin; lia|].
      intros w' [= <-]. split; [lia|]. intros Hin. apply Hterm in Hin. lia.
  - unfold call.
    destruct (abort_workers this b) as [->|(_ & _ & Hwk & Hsp & Ht & _)]; [by split|].
    unfold staffed, alive. rewrite Hwk, Hsp, Ht. simpl in *.
    assert (∀ w, w ∈ option_list (_worker this) ++ terminated b → w < spawned b) as Hold.
    { intros w [Hin|Hin]%elem_of_app; [|by apply Hterm].
      destruct (_worker this) as [w'|] eqn:Hwk'; simpl in Hin; [|by apply elem_of_nil in Hin].
      apply list_elem_of_singleton in Hin as ->. by apply Hw. }
    split.
    + intros w Hin. apply Hold in Hin. lia.
    + intros w [= <-]. split; [lia|]. intros Hin. apply Hold in Hin. lia.
  - unfold call. destruct (release_workers this b) as (_ & _ & Hwk & Hsp & Ht & _).
    unfold staffed, alive. rewrite Hwk, Hsp, Ht. simpl in *. split; [|done].
    intros w [Hin|Hin]%elem_of_app; [|by apply Hterm].
    destruct (_worker this) as [w'|] eqn:Hwk'; simpl in Hin; [|by apply elem_of_nil in Hin].
    apply list_elem_of_singleton in Hin as ->. by apply Hw.
  - unfold call. destruct (_onMessage_fields data (this, b)) as (_ & Hwk & _ & Hsp & Ht & _).
    unfold staffed, alive. rewrite Hwk, Hsp, Ht. by split.
Qed.

Lemma numbered_calls cs s : numbered s → numbered (calls cs s).
Proof.
  revert s. induction cs as [|c cs IH]; intros s Hs; [done|].
  apply IH. by apply numbered_call.
Qed.

Lemma staffed_calls cs s : staffed s → staffed (calls cs s).
Proof.
  revert s. induction cs as [|c cs IH]; intros s Hs; [done|].
  apply IH. by apply staffed_call.
Qed.

Lemma numbered_fresh : numbered (constructor, fresh (K := K)).
Proof. split; [done|]. intros id. simpl. rewrite lookup_empty. by intros [? ?]. Qed.

Lemma staffed_fresh : staffed (constructor, fresh (K := K)).
Proof. split; simpl; [intros w Hin; by apply elem_of_nil in Hin|done]. Qed.

(** X6. Whatever calls are made on a new messenger, the ids of the messages
    it has posted are 1, 2, ..., [_requestId] in this order, so no two
    requests ever share an id, and every pending entry has one of these
    ids. *)
Theorem request_ids_in_sequence (cs : list Call) :
  let s := calls cs (constructor, fresh (K := K)) in
  posted_ids (snd s) = (λ n, N.of_nat n) <$> seq 1 (N.to_nat (_requestId (fst s))) ∧
  NoDup (posted_ids (snd s)) ∧
  ∀ id, is_Some (_pending (fst s) !! id) → id ∈ posted_ids (snd s).
Proof.
  intros s. destruct (numbered_calls cs _ numbered_fresh) as [Hids Hpend]. fold s in Hids, Hpend.
  split_and!; [done| |].
  - rewrite Hids. apply NoDup_fmap_2; [|apply NoDup_seq]. intros x y Hxy. lia.
  - intros id Hin. apply Hpend in Hin. rewrite Hids. apply list_elem_of_fmap.
    exists (N.to_nat id). split; [lia|]. apply elem_of_seq. lia.
Qed.

(** X7. Whatever calls were made on a new messenger before, a request is
    posted to a worker that has been constructed and not terminated, and
    that worker is the messenger's current one afterwards. *)
Theorem request_reaches_live_worker (cs : list Call) action settings data :
  let s := calls cs (constructor, fresh (K := K)) in
  let r := requestResponse action settings data s in
  ∃ w, posted (snd (snd r)) =
         posted (snd s) ++ [(w, {| req_id := (_requestId (fst s) + 1)%N; req_action := action;
                                   req_settings := settings; req_data := data |})] ∧
       _worker (fst (snd r)) = Some w ∧
       alive w (snd (snd r)).
Proof.
  intros s r.
  pose proof (staffed_call (Request action settings data) s
                (staffed_calls cs _ staffed_fresh)) as [_ Hw].
  unfold call in Hw. fold r in Hw. subst r. destruct s as [this b].
  rewrite requestResponse_spec in *. simpl in *.
  eexists. split_and!; [done|done|]. by apply Hw.
Qed.

(** X8. The round trip of a request on a messenger reached by any calls: the
    reply that carries the request's id and no error fulfils the returned
    promise with the reply's result and removes the entry, which leaves the
    pending map as it was before the request; a second reply with that id
    settles nothing and is only logged. *)
Theorem request_reply_round_trip (cs : list Call) action settings data result :
  let s := calls cs (constructor, fresh (K := K)) in
  let r := requestResponse action settings data s in
  let id := _requestId (fst (snd r)) in
  let reply := {| msg_id := Some id; msg_result := result; msg_error := None |} in
  let s1 := _onMessage reply (snd r) in
  promises (snd (snd r)) !! fst r = Some (Pending []) ∧
  promises (snd s1) !! fst r = Some (Settled (Fulfilled result)) ∧
  _pending (fst s1) = _pending (fst s) ∧
  ∀ again, msg_id again = Some id → _onMessage again s1 = (fst s1, console_log (snd s1)).
Proof.
  intros s r id reply s1.
  destruct (numbered_calls cs _ numbered_fresh) as [_ Hpend]. fold s in Hpend.
  subst s1 reply id r. destruct s as [this b]. rewrite requestResponse_spec. simpl in *.
  assert (_pending this !! (_requestId this + 1)%N = None) as Hfree.
  { destruct (_pending this !! (_requestId this + 1)%N) eqn:E; [|done].
    assert (is_Some (_pending this !! (_requestId this + 1)%N)) as Hin by (rewrite E; eauto).
    apply Hpend in Hin. lia. }
  unfold _onMessage. simpl.
  destruct (_requestId this + 1)%N as [|i] eqn:Hid; [lia|].
  unfold _fulfillPending, error_of. simpl. rewrite lookup_insert_eq. simpl.
  rewrite delete_insert_eq, delete_id by done.
  unfold settle. simpl. rewrite list_lookup_middle by done. simpl.
  split_and!.
  - done.
  - rewrite list_lookup_insert_eq; [done|]. rewrite length_app. simpl. lia.
  - done.
  - intros again ->. by rewrite Hfree.
Qed.

Lemma abort_clears this b : _pending (fst (abort (this, b))) = ∅.
Proof.
  unfold abort. simpl. case_decide as Hk; [by apply keys_nil|].
  pose proof (_abortPending_spec this b) as Hspec. simpl in Hspec.
  destruct (_abortPending (this, b)) as [this1 b1]. simpl in *.
  by destruct Hspec as (Hpend & _).
Qed.

Lemma dropped_after data s :
  _pending (fst s) = ∅ → _onMessage data s = (fst s, console_log (snd s)).
Proof.
  intros Hempty. destruct s as [this b]. apply _onMessage_dropped.
  destruct (msg_id data) as [id|]; [|by left]. right. right. exists id.
  split; [done|]. simpl in *. by rewrite Hempty, lookup_empty.
Qed.

(** X9. After [abort()] or [release()] nothing is pending, so whatever
    message arrives then (a late reply to an aborted request, say) is logged
    and dropped: the aborted promises stay rejected with [AbortError]. *)
Theorem late_reply_dropped this b data :
  let s1 := abort (this, b) in
  let s2 := release (this, b) in
  _onMessage data s1 = (fst s1, console_log (snd s1)) ∧
  _onMessage data s2 = (fst s2, console_log (snd s2)) ∧
  ∀ id p ks, _pending this !! id = Some p → promises b !! p = Some (Pending ks) →
    promises (snd (_onMessage data s1)) !! p = Some (Settled (Rejected AbortError)) ∧
    promises (snd (_onMessage data s2)) !! p = Some (Settled (Rejected AbortError)).
Proof.
  intros s1 s2.
  assert (_onMessage data s1 = (fst s1, console_log (snd s1))) as H1
    by (apply dropped_after, abort_clears).
  assert (_onMessage data s2 = (fst s2, console_log (snd s2))) as H2.
  { apply dropped_after. by destruct (release_workers this b) as (_ & ? & _). }
  split_and!; [done|done|]. intros id p ks Hid Hp. rewrite H1, H2. simpl. split.
  - by eapply abort_rejects.
  - subst s2. unfold release.
    pose proof (_abortPending_spec this b) as Hspec. simpl in Hspec.
    destruct (_abortPending (this, b)) as [this1 b1]. simpl in *.
    destruct Hspec as (_ & _ & _ & _ & _ & _ & Hrej & _).
    destruct (_worker this1); simpl; eauto.
Qed.
End Facts.
End SessionFacts.

(** ** ResultsCache: the ring *)
Module RingFacts.
Import ResultsCache ResultsCacheFacts.

(** The slots of a full ring whose cursor is [k], oldest pair of [w] at the
    cursor. *)
Local Abbreviation rot k w := (drop (length w - k) w ++ take (length w - k) w).

Local Abbreviation ring n rw k :=
  ({| _size := n; _fingerprints := Some <$> rw.*1; _items := Some <$> rw.*2; _index := k |}).

Lemma rot_insert {A} (x y : A) (w : list A) k :
  k < S (length w) →
  <[k := y]> (rot k (x :: w)) = rot ((k + 1) mod S (length w)) (w ++ [y]).
Proof.
  intros Hk. rewrite length_app. cbn [length].
  replace (S (length w) - k) with (S (length w - k)) by lia. cbn [drop take].
  assert (length (drop (length w - k) w) = k) as Hlen by (rewrite length_drop; lia).
  rewrite insert_app_r_alt by lia. rewrite Hlen, Nat.sub_diag. cbn [insert list_insert].
  destruct (decide (k = length w)) as [->|Hne].
  - replace (length w + 1) with (S (length w)) by lia. rewrite Nat.Div0.mod_same.
    rewrite Nat.sub_diag, Nat.sub_0_r. cbn [drop take].
    rewrite (drop_ge (w ++ [y])), (take_ge (w ++ [y])) by (rewrite length_app; simpl; lia). done.
  - rewrite Nat.mod_small by lia.
    replace (length w + 1 - (k + 1)) with (length w - k) by lia.
    rewrite drop_app_le, take_app_le by lia. by rewrite <- (assoc_L (++)).
Qed.

Lemma add_full n (x : string * ref) w k fp f h :
  S (length w) = n → k < n →
  add fp f (ring n (rot k (x :: w)) k, h) =
    (ring n (rot ((k + 1) mod n) (w ++ [(fp, f)])) ((k + 1) mod n), release x.2 h).
Proof.
  intros Hn Hk. subst n. unfold add. cbn [_items _index _fingerprints _size].
  assert (length (rot k (x :: w)) = S (length w)) as Hlen.
  { rewrite length_app, length_drop, length_take. simpl. lia. }
  assert (rot k (x :: w) !! k = Some x) as Hat.
  { cbn [length]. replace (S (length w) - k) with (S (length w - k)) by lia. cbn [drop take].
    rewrite lookup_app_r by (rewrite length_drop; lia).
    rewrite length_drop. by replace (k - (length w - (length w - k))) with 0 by lia. }
  rewrite array_get_fmap, list_lookup_fmap, Hat. cbn [fmap option_fmap option_map].
  unfold array_set. rewrite !decide_True by (rewrite !length_fmap, Hlen; lia).
  rewrite <- !list_fmap_insert.
  change fp with (fp, f).1 at 1. change f with (fp, f).2 at 2.
  rewrite <- !list_fmap_insert. by rewrite rot_insert by lia.
Qed.

Lemma add_all_full n l w k h :
  0 < n → length w = n → k < n →
  ∃ h', add_all l (ring n (rot k w) k, h) =
          (ring n (rot ((k + length l) mod n) (drop (length l) (w ++ l)))
                ((k + length l) mod n), h') ∧
        released h' = released h ++ (take (length l) (w ++ l)).*2.
Proof.
  intros Hn. revert w k h. induction l as [|[fp f] l IH]; intros w k h Hw Hk.
  - exists h. cbn [length drop take]. rewrite Nat.add_0_r, Nat.mod_small by done.
    rewrite (app_nil_r w). split; [done|]. cbn [take fmap list_fmap]. by rewrite app_nil_r.
  - destruct w as [|x w]; [simpl in Hw; lia|]. cbn [length] in Hw.
    unfold add_all in *. cbn [foldl fst snd].
    rewrite (add_full n x w k fp f h) by lia.
    assert ((k + 1) mod n < n) as Hk1 by (apply Nat.mod_upper_bound; lia).
    destruct (IH (w ++ [(fp, f)]) ((k + 1) mod n) (release x.2 h)) as (h' & Heq & Hrel);
      [rewrite length_app; simpl; lia|done|].
    exists h'. rewrite Heq. rewrite Nat.Div0.add_mod_idemp_l.
    replace (k + 1 + length l) with (k + S (length l)) by lia.
    rewrite <- (assoc_L (++)). cbn [length drop take app]. split; [reflexivity|].
    rewrite Hrel. cbn [released release]. rewrite <- !(assoc_L (++)).
    rewrite fmap_cons. done.
Qed.

Lemma indexOf_lookup (fps : list string) j fp :
  NoDup fps → fps !! j = Some fp → indexOf fp (Some <$> fps) = Some j.
Proof.
  revert j. induction fps as [|y fps IH]; intros j Hnd Hj; [done|].
  apply NoDup_cons in Hnd as [Hy Hnd]. cbn [fmap list_fmap indexOf].
  destruct j as [|j]; simpl in Hj.
  - simplify_eq. by rewrite decide_True.
  - rewrite decide_False.
    + by rewrite (IH j).
    + intros [= ->]. apply Hy. by eapply list_elem_of_lookup_2.
Qed.

Lemma match_in n (rw : list (string * ref)) k fp f :
  NoDup rw.*1 → (fp, f) ∈ rw → match_ fp (ring n rw k) = Some f.
Proof.
  intros Hnd [j Hj]%list_elem_of_lookup_1. unfold match_. cbn [_fingerprints _items].
  rewrite (indexOf_lookup _ j) by (done || by rewrite list_lookup_fmap, Hj).
  by rewrite array_get_fmap, list_lookup_fmap, Hj.
Qed.

Lemma match_out n (rw : list (string * ref)) k fp :
  fp ∉ rw.*1 → match_ fp (ring n rw k) = None.
Proof.
  intros Hout. unfold match_. cbn [_fingerprints]. rewrite indexOf_None; [done|].
  intros (y & [= <-] & Hin)%list_elem_of_fmap. done.
Qed.

Lemma rot_elem {A} (w : list A) k x : x ∈ rot k w ↔ x ∈ w.
Proof.
  rewrite elem_of_app. rewrite <- (take_drop (length w - k) w) at 5.
  rewrite elem_of_app. tauto.
Qed.

Lemma rot_NoDup {A} (w : list A) k : NoDup w → NoDup (rot k w).
Proof.
  intros Hnd. rewrite <- (take_drop (length w - k) w) in Hnd at 1.
  apply NoDup_app in Hnd as (H1 & H2 & H3). apply NoDup_app. split_and!; [done| |done].
  intros x Hx Hx'. by apply (H2 x).
Qed.

Lemma rot_fmap {A B} (g : A → B) (w : list A) k : g <$> rot k w = rot k (g <$> w).
Proof. by rewrite fmap_app, fmap_drop, fmap_take, length_fmap. Qed.

(** The cache after [l] was added to an empty one: the pairs it holds are
    the last [n] of [l]. *)
Lemma add_all_shape n l h :
  0 < n →
  ∃ k h', add_all l (constructor n, h) = (ring n (rot k (drop (length l - n) l)) k, h') ∧
          released h' = released h ++ take (length l - n) l.*2.
Proof.
  intros Hn. destruct (decide (length l ≤ n)) as [Hle|Hgt].
  - exists (length l mod n), h. rewrite add_all_fresh by done.
    replace (length l - n) with 0 by lia. cbn [drop take]. rewrite app_nil_r. split; [|done].
    destruct (decide (length l = n)) as [Heq|Hne].
    + rewrite Heq, Nat.Div0.mod_same, Nat.sub_0_r. rewrite drop_ge, take_ge by lia. done.
    + rewrite Nat.mod_small by lia. rewrite Nat.sub_diag. cbn [drop take].
      by rewrite app_nil_r.
  - assert (length (take n l) = n) as Hlen by (rewrite length_take; lia).
    destruct (add_all_full n (drop n l) (take n l) 0 h Hn Hlen Hn) as (h' & Heq & Hrel).
    rewrite Hlen, Nat.sub_0_r in Heq.
    rewrite (drop_ge (take n l) n), (take_ge (take n l) n) in Heq by lia.
    assert (length (drop n l) = length l - n) as Hd by apply length_drop.
    cbn [app] in Heq. rewrite take_drop, !Hd in Heq. cbn [Nat.add] in Heq.
    exists ((length l - n) mod n), h'. split.
    + rewrite <- (take_drop n l) at 1. rewrite add_all_app.
      rewrite add_all_fresh by lia. rewrite Hlen, Nat.Div0.mod_same. exact Heq.
    + rewrite Hrel, take_drop, Hd. by rewrite fmap_take.
Qed.

(** X10. The cache is a first-in, first-out ring.  After any number of
    [add]s to an empty cache of capacity [n], [release()] has been called on
    the artifacts added before the last [n], once each and in the order in
    which they were added; with pairwise distinct fingerprints, [match] finds
    the artifact of each of the last [n] additions and nothing for the
    others. *)
Theorem first_in_first_out (n : nat) (l : list (string * ref)) (h : Heap) :
  0 < n →
  let s' := add_all l (constructor n, h) in
  released (snd s') = released h ++ take (length l - n) l.*2 ∧
  (NoDup l.*1 → ∀ i fp f, l !! i = Some (fp, f) →
     match_ fp (fst s') = if decide (length l - n ≤ i) then Some f else None).
Proof.
  intros Hn s'. subst s'. destruct (add_all_shape n l h Hn) as (k & h' & -> & Hrel).
  split; [done|]. intros Hnd i fp f Hi. cbn [fst].
  rewrite <- (take_drop (length l - n) l) in Hnd. rewrite fmap_app in Hnd.
  apply NoDup_app in Hnd as (_ & Hsep & Hnd).
  case_decide as Hle.
  - apply match_in.
    + rewrite rot_fmap. by apply rot_NoDup.
    + apply rot_elem. apply list_elem_of_lookup_2 with (i - (length l - n)).
      rewrite lookup_drop. rewrite <- Hi. f_equal. lia.
  - apply match_out. rewrite rot_fmap, rot_elem. apply Hsep.
    apply list_elem_of_lookup_2 with i. rewrite list_lookup_fmap, lookup_take_lt by lia.
    by rewrite Hi.
Qed.

Lemma first_in_first_out_witness :
  released (snd (add_all [("a"%string, 0); ("b"%string, 1); ("c"%string, 2);
                          ("d"%string, 3); ("e"%string, 4)]
                         (constructor 2, {| files := []; blobs := 0; revoked := [];
                                            released := [] |}))) = [0; 1; 2].
Proof.
  apply (first_in_first_out 2 [("a"%string, 0); ("b"%string, 1); ("c"%string, 2);
                               ("d"%string, 3); ("e"%string, 4)]
           {| files := []; blobs := 0; revoked := []; released := [] |}).
  lia.
Defined.
End RingFacts.

(** ** Settings.setSettings *)
Module RestoreFacts.
Import Settings SettingsFacts Restore.
Section Facts.
Variable sanitize : InputEl.t → string → string.
Variable prototype : string → option string.

Local Abbreviation set_global := (set_global sanitize prototype).
Local Abbreviation set_plugin := (set_plugin prototype).
Local Abbreviation setSettings := (setSettings sanitize prototype).
Local Abbreviation _loadSettings := (_loadSettings sanitize prototype).
Local Abbreviation restorable := (restorable sanitize).

(** The option that [getSettings] reads from an input. *)
Local Abbreviation global_option := (λ el : InputEl.t,
  if is_checkbox el then OBool (InputEl.checked el) else OString (InputEl.value el)).

(** Two inputs that [getSettings] cannot tell apart, those named [skip]
    aside. *)
Local Abbreviation alike := (λ (skip : string → Prop) (a b : InputEl.t),
  InputEl.name a = InputEl.name b ∧ InputEl.type a = InputEl.type b ∧
  (¬ skip (InputEl.name a) → global_option a = global_option b)).

Lemma global_step_alike acc a b :
  alike (λ _, False) a b → global_step acc a = global_step acc b.
Proof.
  intros (Hn & Ht & Hv). unfold global_step, in_fingerprint, is_checkbox in *.
  rewrite Hn, Ht in *. specialize (Hv (λ H, H)).
  destruct (InputEl.type b =? "checkbox")%string; injection Hv as Hv; by rewrite Hv.
Qed.

Lemma foldl_global_alike acc l1 l2 :
  Forall2 (alike (λ _, False)) l1 l2 → foldl global_step acc l1 = foldl global_step acc l2.
Proof.
  intros H. revert acc. induction H as [|a b l1 l2 Hab _ IH]; intros acc; [done|].
  simpl. by rewrite (global_step_alike acc a b), IH.
Qed.

Lemma foldl_plugin_alike acc l1 l2 :
  Forall2 (λ a b, InputEl.name a = InputEl.name b ∧ InputEl.checked a = InputEl.checked b)
          l1 l2 →
  foldl plugin_step acc l1 = foldl plugin_step acc l2.
Proof.
  intros H. revert acc. induction H as [|a b l1 l2 [Hn Hc] _ IH]; intros acc; [done|].
  simpl. unfold plugin_step at 2 4. by rewrite Hn, Hc, IH.
Qed.

(** With distinct names, each input finds its own option in the object. *)
Lemma options_lookup (l : list InputEl.t) (m : gmap string OptionValue) el :
  NoDup (InputEl.name <$> l) → el ∈ l →
  foldl (λ m el, <[InputEl.name el := global_option el]> m) m l !! InputEl.name el
    = Some (global_option el).
Proof.
  revert m. induction l as [|x l IH]; intros m Hnd Hin; [by apply elem_of_nil in Hin|].
  rewrite fmap_cons in Hnd. apply NoDup_cons in Hnd as [Hx Hnd]. simpl.
  apply elem_of_cons in Hin as [->|Hin]; [|by apply IH].
  clear IH. revert m. induction l as [|y l IH]; intros m; simpl.
  - by rewrite lookup_insert_eq.
  - rewrite fmap_cons in Hx, Hnd. apply not_elem_of_cons in Hx as [Hxy Hx].
    apply NoDup_cons in Hnd as [_ Hnd].
    rewrite insert_insert_ne by done. by apply IH.
Qed.

Lemma options_missing (l : list InputEl.t) (m : gmap string OptionValue) n :
  n ∉ InputEl.name <$> l →
  foldl (λ m el, <[InputEl.name el := global_option el]> m) m l !! n = m !! n.
Proof.
  revert m. induction l as [|x l IH]; intros m Hn; [done|].
  rewrite fmap_cons in Hn. apply not_elem_of_cons in Hn as [Hx Hn]. simpl.
  rewrite IH by done. by rewrite lookup_insert_ne.
Qed.

Lemma options_missing_insert (l : list InputEl.t) (m : gmap string OptionValue) n k v :
  k ≠ n →
  foldl (λ m el, <[InputEl.name el := global_option el]> m) (<[k := v]> m) l !! n =
  foldl (λ m el, <[InputEl.name el := global_option el]> m) m l !! n.
Proof.
  intros Hk. revert m. induction l as [|x l IH]; intros m; simpl.
  - by rewrite lookup_insert_ne.
  - destruct (decide (InputEl.name x = k)) as [->|Hne].
    + by rewrite insert_insert_eq.
    + rewrite insert_insert_ne by done. apply IH.
Qed.

Lemma plugins_lookup (l : list InputEl.t) (m : gmap string bool) el :
  NoDup (InputEl.name <$> l) → el ∈ l →
  foldl (λ m el, <[InputEl.name el := InputEl.checked el]> m) m l !! InputEl.name el
    = Some (InputEl.checked el).
Proof.
  revert m. induction l as [|x l IH]; intros m Hnd Hin; [by apply elem_of_nil in Hin|].
  rewrite fmap_cons in Hnd. apply NoDup_cons in Hnd as [Hx Hnd]. simpl.
  apply elem_of_cons in Hin as [->|Hin]; [|by apply IH].
  clear IH. revert m. induction l as [|y l IH]; intros m; simpl.
  - by rewrite lookup_insert_eq.
  - rewrite fmap_cons in Hx, Hnd. apply not_elem_of_cons in Hx as [Hxy Hx].
    apply NoDup_cons in Hnd as [_ Hnd].
    rewrite insert_insert_ne by done. by apply IH.
Qed.

Lemma options_at n (l1 l2 : list InputEl.t) (m : gmap string OptionValue) :
  Forall2 (λ a b, InputEl.name a = InputEl.name b ∧
                  (InputEl.name a = n → global_option a = global_option b)) l1 l2 →
  foldl (λ m el, <[InputEl.name el := global_option el]> m) m l1 !! n =
  foldl (λ m el, <[InputEl.name el := global_option el]> m) m l2 !! n.
Proof.
  intros H. revert m. induction H as [|a b l1 l2 [Hn Hv] _ IH]; intros m; [done|]. simpl.
  destruct (decide (InputEl.name a = n)) as [Ha|Ha].
  - rewrite <- Hn, (Hv Ha). apply IH.
  - rewrite (options_missing_insert l1), (options_missing_insert l2) by congruence. apply IH.
Qed.

(** What [setSettings] makes of an input whose option the object holds. *)
Lemma set_global_restores settings a b :
  InputEl.name a = InputEl.name b → InputEl.type a = InputEl.type b →
  InputEl.name a ≠ "plugins"%string ∧ InputEl.name a ≠ "fingerprint"%string →
  options settings !! InputEl.name a = Some (global_option a) →
  is_checkbox a = true ∨
    (is_range a = true ∧ sanitize b (InputEl.value a) = InputEl.value a) →
  InputEl.name (set_global settings b) = InputEl.name a ∧
  InputEl.type (set_global settings b) = InputEl.type a ∧
  global_option (set_global settings b) = global_option a.
Proof.
  intros Hn Ht [Hp Hf] Hopt Hkind. unfold Restore.set_global, property.
  rewrite <- Hn, !decide_False, Hopt by done.
  unfold is_checkbox, is_range in *. rewrite <- Ht.
  destruct Hkind as [Hc|[Hr Hs]].
  - rewrite !Hc. simpl. by rewrite Hc.
  - destruct (InputEl.type a =? "checkbox")%string eqn:Hc.
    + simpl. by rewrite Hc.
    + rewrite Hr. simpl. rewrite Hc. by rewrite Hs.
Qed.

Lemma set_plugin_restores settings a b :
  InputEl.name a = InputEl.name b →
  plugins settings !! InputEl.name a = Some (InputEl.checked a) →
  InputEl.name (set_plugin settings b) = InputEl.name a ∧
  InputEl.checked (set_plugin settings b) = InputEl.checked a.
Proof.
  intros Hn Hp. unfold Restore.set_plugin, plugin_property. by rewrite <- Hn, Hp.
Qed.

Lemma plugins_restored (s1 s2 : Settings.t) settings :
  NoDup (InputEl.name <$> _pluginInputs s1) →
  same_inputs (_pluginInputs s1) (_pluginInputs s2) →
  plugins settings = plugins (getSettings s1) →
  Forall2 (λ a b, InputEl.name a = InputEl.name b ∧ InputEl.checked a = InputEl.checked b)
          (set_plugin settings <$> _pluginInputs s2) (_pluginInputs s1).
Proof.
  intros Hnd Hsame Hp. destruct (getSettings_unfold s1) as (_ & _ & Hplug).
  rewrite Hplug in Hp. apply Forall2_fmap_l, Forall2_flip.
  apply Forall2_same_length_lookup. split; [by eapply Forall2_length|].
  intros i a b Ha Hb.
  destruct (Forall2_lookup_lr _ _ _ _ _ _ Hsame Ha Hb) as [Hn _].
  apply set_plugin_restores; [done|]. rewrite Hp.
  apply plugins_lookup; [done|]. by eapply list_elem_of_lookup_2.
Qed.

(** X11. Undo of a reset.  On a form whose inputs have distinct names and
    whose global inputs are checkboxes and range inputs, [setSettings] applied
    to the object that [getSettings] returned earlier brings the form back to
    a state in which [getSettings] returns that object again, fingerprint
    included, whatever the inputs were changed to in between. *)
Theorem settings_round_trip (s1 s2 : Settings.t) :
  well_named s1 → same_form s1 s2 → restorable s1 s2 →
  getSettings (setSettings (getSettings s1) s2) = getSettings s1.
Proof.
  intros (Hnd & Hndp & Hnames) [Hg Hp] Hrest.
  destruct (getSettings_unfold s1) as (_ & Hopt & _).
  assert (Forall2 (alike (λ _, False)) (set_global (getSettings s1) <$> _globalInputs s2)
            (_globalInputs s1)) as Hglobal.
  { apply Forall2_fmap_l, Forall2_flip.
    apply Forall2_same_length_lookup. split; [by eapply Forall2_length|].
    intros i a b Ha Hb.
    destruct (Forall2_lookup_lr _ _ _ _ _ _ Hg Ha Hb) as [Hn Ht].
    pose proof (Forall2_lookup_lr _ _ _ _ _ _ Hrest Ha Hb) as Hkind.
    assert (a ∈ _globalInputs s1) as Hin by (by eapply list_elem_of_lookup_2).
    pose proof (proj1 (Forall_forall _ _) Hnames a Hin) as Hfp.
    destruct (set_global_restores (getSettings s1) a b Hn Ht Hfp) as (? & ? & ?);
      [|done|done].
    rewrite Hopt. by apply options_lookup. }
  pose proof (plugins_restored s1 s2 (getSettings s1) Hndp Hp eq_refl) as Hplugin.
  unfold getSettings at 1 3. cbn [_globalInputs _pluginInputs Restore.setSettings].
  rewrite (foldl_global_alike _ _ _ Hglobal).
  by rewrite (foldl_plugin_alike _ _ _ Hplugin).
Qed.

Lemma pieces_alike (l1 l2 : list InputEl.t) :
  Forall2 (λ a b, InputEl.name a = InputEl.name b ∧ InputEl.type a = InputEl.type b ∧
                  (InputEl.name a ≠ "original"%string → global_option a = global_option b))
          l1 l2 →
  l1 ≫= (λ el, if in_fingerprint el then
                  [if is_checkbox el then Number (InputEl.checked el)
                   else ("|" ++ InputEl.value el ++ "|")%string]
                else []) =
  l2 ≫= (λ el, if in_fingerprint el then
                  [if is_checkbox el then Number (InputEl.checked el)
                   else ("|" ++ InputEl.value el ++ "|")%string]
                else []).
Proof.
  induction 1 as [|a b l1 l2 (Hn & Ht & Hv) _ IH]; [done|].
  rewrite !bind_cons, IH. f_equal. unfold in_fingerprint, is_checkbox in *.
  rewrite <- Hn, <- Ht in *.
  destruct (InputEl.name a =? "original")%string eqn:Ho.
  - by rewrite andb_false_r.
  - apply String.eqb_neq in Ho. specialize (Hv Ho).
    destruct (InputEl.type a =? "checkbox")%string; injection Hv as Hv; by rewrite Hv.
Qed.

Lemma plugins_alike (l1 l2 : list InputEl.t) (m : gmap string bool) :
  Forall2 (λ a b, InputEl.name a = InputEl.name b ∧ InputEl.checked a = InputEl.checked b)
          l1 l2 →
  foldl (λ m el, <[InputEl.name el := InputEl.checked el]> m) m l1 =
  foldl (λ m el, <[InputEl.name el := InputEl.checked el]> m) m l2 ∧
  (λ el, Number (InputEl.checked el)) <$> l1 = (λ el, Number (InputEl.checked el)) <$> l2.
Proof.
  intros H. revert m. induction H as [|a b l1 l2 [Hn Hc] _ IH]; intros m; [done|].
  cbn [foldl]. rewrite !fmap_cons, Hn, Hc.
  destruct (IH (<[InputEl.name b := InputEl.checked b]> m)) as [H1 H2]. by rewrite H1, H2.
Qed.

(** X12. Settings saved by [_saveSettings] and put back by [_loadSettings]
    on the same form: [getSettings] then returns the fingerprint, the plugins
    and every option of the saved settings except [original], which is not
    stored and keeps the value the form has. *)
Theorem settings_saved_and_loaded (s1 s2 : Settings.t) :
  well_named s1 → same_form s1 s2 → restorable s1 s2 →
  prototype "original"%string = None →
  let restored := getSettings (_loadSettings (Some (_saveSettings (getSettings s1))) s2) in
  fingerprint restored = fingerprint (getSettings s1) ∧
  plugins restored = plugins (getSettings s1) ∧
  (∀ n, n ≠ "original"%string → options restored !! n = options (getSettings s1) !! n) ∧
  options restored !! "original"%string = options (getSettings s2) !! "original"%string.
Proof.
  intros (Hnd & Hndp & Hnames) [Hg Hp] Hrest Hproto restored. subst restored.
  set (saved := _saveSettings (getSettings s1)).
  destruct (getSettings_unfold s1) as (Hfp1 & Hopt1 & Hplug1).
  assert (∀ i a b, _globalInputs s1 !! i = Some a → _globalInputs s2 !! i = Some b →
            InputEl.name (set_global saved b) = InputEl.name a ∧
            InputEl.type (set_global saved b) = InputEl.type a ∧
            (InputEl.name a ≠ "original"%string →
               global_option (set_global saved b) = global_option a) ∧
            (InputEl.name a = "original"%string → set_global saved b = b) ∧
            InputEl.name a = InputEl.name b) as Hat.
  { intros i a b Ha Hb.
    destruct (Forall2_lookup_lr _ _ _ _ _ _ Hg Ha Hb) as [Hn Ht].
    pose proof (Forall2_lookup_lr _ _ _ _ _ _ Hrest Ha Hb) as Hkind.
    assert (a ∈ _globalInputs s1) as Hin by (by eapply list_elem_of_lookup_2).
    pose proof (proj1 (Forall_forall _ _) Hnames a Hin) as Hfp.
    destruct (decide (InputEl.name a = "original"%string)) as [Ho|Ho].
    - assert (set_global saved b = b) as ->.
      { unfold Restore.set_global, property. rewrite <- Hn, Ho.
        rewrite !decide_False by done. cbn [options saved _saveSettings].
        by rewrite lookup_delete_eq, Hproto. }
      done.
    - destruct (set_global_restores saved a b Hn Ht Hfp) as (? & ? & ?); [|done|done].
      cbn [options saved _saveSettings]. rewrite lookup_delete_ne by done.
      rewrite Hopt1. by apply options_lookup. }
  pose proof (Forall2_length _ _ _ Hg) as Hlen.
  pose proof (plugins_restored s1 s2 saved Hndp Hp eq_refl) as Hplugin.
  destruct (getSettings_unfold (_loadSettings (Some saved) s2)) as (-> & -> & ->).
  cbn [_loadSettings Restore._loadSettings Restore.setSettings _globalInputs _pluginInputs].
  rewrite Hfp1, Hopt1, Hplug1.
  destruct (plugins_alike _ _ ∅ Hplugin) as [-> ->].
  split_and!.
  - f_equal. f_equal. apply pieces_alike.
    apply Forall2_fmap_l, Forall2_flip, Forall2_same_length_lookup. split; [done|].
    intros i a b Ha Hb. destruct (Hat i a b Ha Hb) as (Hn1 & Ht1 & Hv & _).
    split_and!; [done|done|]. intros Hne. apply Hv. congruence.
  - done.
  - intros n Hn. apply options_at.
    apply Forall2_fmap_l, Forall2_flip, Forall2_same_length_lookup. split; [done|].
    intros i a b Ha Hb. destruct (Hat i a b Ha Hb) as (Hn1 & _ & Hv & _).
    split; [done|]. intros Heq. apply Hv. congruence.
  - destruct (getSettings_unfold s2) as (_ & -> & _). apply options_at.
    apply Forall2_fmap_l, Forall2_same_length_lookup. split; [done|].
    intros i b b' Hb Hb'. assert (b' = b) as -> by congruence.
    destruct (lookup_lt_is_Some_2 (_globalInputs s1) i) as [a Ha].
    { rewrite Hlen. by eapply lookup_lt_Some. }
    destruct (Hat i a b Ha Hb) as (Hn1 & _ & _ & Hskip & Hn2).
    split; [congruence|]. intros Heq. rewrite Hskip; [done|]. congruence.
Qed.
End Facts.

Lemma example_form_named o p v d : well_named (example_form o p v d).
Proof.
  split_and!.
  - cbn. repeat (apply NoDup_cons; split; [set_solver|]). apply NoDup_nil_2.
  - cbn. repeat (apply NoDup_cons; split; [set_solver|]). apply NoDup_nil_2.
  - repeat constructor; done.
Qed.

Lemma example_form_same o p v d o' p' v' d' :
  same_form (example_form o p v d) (example_form o' p' v' d').
Proof. split; repeat constructor. Qed.

Lemma example_form_restorable o p v d o' p' v' d' :
  restorable (λ _ value, value) (example_form o p v d) (example_form o' p' v' d').
Proof. repeat constructor; (by left) || (by right). Qed.

Lemma settings_round_trip_witness :
  getSettings (setSettings (λ _ value, value) (λ _, None)
                 (getSettings (example_form true true "3" false))
                 (example_form false false "5" true))
  = getSettings (example_form true true "3" false).
Proof.
  apply settings_round_trip.
  - apply example_form_named.
  - apply example_form_same.
  - apply example_form_restorable.
Defined.

Lemma settings_saved_and_loaded_witness :
  fingerprint (getSettings (_loadSettings (λ _ value, value) (λ _, None)
                              (Some (_saveSettings (getSettings (example_form true true "3" false))))
                              (example_form false false "5" true)))
  = fingerprint (getSettings (example_form true true "3" false)) ∧
  options (getSettings (_loadSettings (λ _ value, value) (λ _, None)
                          (Some (_saveSettings (getSettings (example_form true true "3" false))))
                          (example_form false false "5" true))) !! "original"%string
  = options (getSettings (example_form false false "5" true)) !! "original"%string.
Proof.
  destruct (settings_saved_and_loaded (λ _ value, value) (λ _, None)
              (example_form true true "3" false) (example_form false false "5" true)
              (example_form_named _ _ _ _) (example_form_same _ _ _ _ _ _ _ _)
              (example_form_restorable _ _ _ _ _ _ _ _) eq_refl) as (Hf & _ & _ & Ho).
  split; [exact Hf|exact Ho].
Defined.
End RestoreFacts.

(** ** The cycle: what is shown without a request *)
Module ShownFacts.
Import WorkerMessenger WorkerMessengerFacts MainController PageFacts CycleFacts.

#[local] Arguments drain {_} _ _ : simpl never.
#[local] Arguments load _ : simpl never.
#[local] Arguments WorkerMessenger.abort {_} _ : simpl never.
#[local] Arguments WorkerMessenger._onMessage {_} _ _ : simpl never.

Section Facts.
Context `{!Cleanup}.

(** What a call of [_updateForFile] leaves in the logs and in the
    controller. *)
Lemma _updateForFile_logs c f g z pg :
  let pg' := _updateForFile c f g z pg in
  updates pg' = updates pg ++ [{| upd_cycle := c; upd_latest := cycles pg; upd_svgFile := f;
                                  upd_compareToFile := g; upd_compress := z |}] ∧
  cached pg' = cached pg ∧ toasts pg' = toasts pg ∧ _cache pg' = _cache pg ∧
  _inputItem pg' = _inputItem pg ∧ cycles pg' = cycles pg.
Proof.
  unfold _updateForFile. cbv zeta.
  match goal with
  | |- context [match g with Some _ => _ | None => update_size _ _ ?x end] =>
      set (shown := x)
  end.
  assert (steady shown match g with
                       | Some g =>
                           let '(p, pg) := size g z shown in
                           with_browser (subscribe p (KUpdateSize f z)) pg
                       | None => update_size f z shown
                       end) as Hs.
  { destruct g as [g|].
    - rewrite (surjective_pairing (size g z shown)). apply steady_subscribed, steady_size.
    - by destruct (update_size_tail f z shown) as (Hs & _). }
  destruct Hs as (_ & _ & Hin & Hca & _ & Hu & Hc & Ht & Hy & _).
  by rewrite Hu, Hc, Ht, Hca, Hin, Hy.
Qed.

Lemma resumed_ready r pg : idle pg → ready (resumed r pg).
Proof. intros (Hq & Hpend & Hjob). split_and!; [done|done|constructor]. Qed.

(** A call of [_compressSvg] on an idle page that ends in [_updateForFile]. *)
Lemma shown_from_idle f g z r pg fuel :
  idle pg → 15 ≤ fuel →
  let pg' := drain fuel (_updateForFile (S (cycles pg)) f g z (resumed r pg)) in
  idle pg' ∧
  process_requests pg' = process_requests pg ∧
  updates pg' = updates pg ++ [{| upd_cycle := S (cycles pg); upd_latest := S (cycles pg);
                                  upd_svgFile := f; upd_compareToFile := g;
                                  upd_compress := z |}] ∧
  cached pg' = cached pg ∧ toasts pg' = toasts pg ∧ _cache pg' = _cache pg.
Proof.
  intros Hidle Hfuel pg'. subst pg'.
  pose proof (resumed_ready r pg Hidle) as Hready.
  destruct (_updateForFile_ends (S (cycles pg)) f g z _ Hready) as (Hrest & Hlen & Hreq & _).
  destruct (_updateForFile_logs (S (cycles pg)) f g z (resumed r pg))
    as (Hu & Hc & Ht & Hca & _).
  set (pg1 := _updateForFile (S (cycles pg)) f g z (resumed r pg)) in *.
  destruct (resting_drain pg1 fuel Hrest) as [Hidle' Hs]; [simpl in Hlen; lia|].
  destruct Hs as (_ & _ & _ & Hca' & _ & Hu' & Hc' & Ht' & _ & Hreq' & _).
  rewrite Hu', Hc', Ht', Hca', Hreq', Hu, Hc, Ht, Hca, Hreq. done.
Qed.

(** X13. Show original.  When [_compressSvg] is called on an idle page with
    the [original] setting on, nothing is posted to the svgo worker and
    nothing is cached: the input item itself is handed to [_updateForFile],
    without a file to compare with, and the page is idle again at the end of
    the task. *)
Theorem original_shown_without_request settings r pg :
  idle pg → original settings = true →
  let pg' := task (CompressSvg settings r) pg in
  idle pg' ∧
  process_requests pg' = process_requests pg ∧
  updates pg' = updates pg ++ [{| upd_cycle := S (cycles pg); upd_latest := S (cycles pg);
                                  upd_svgFile := _inputItem pg; upd_compareToFile := None;
                                  upd_compress := compress_option settings |}] ∧
  cached pg' = cached pg ∧ toasts pg' = toasts pg ∧ _cache pg' = _cache pg.
Proof.
  intros Hidle Horig pg'. subst pg'.
  destruct (compress_from_idle settings r pg Hidle) as (fuel & Hfuel & ->).
  fold (resumed r pg). unfold compress_resume.
  rewrite decide_False by (intros Hne; by apply Hne). rewrite Horig.
  by apply shown_from_idle.
Qed.

(** X14. Cache hit.  When [_compressSvg] is called on an idle page with
    settings whose fingerprint the cache holds, nothing is posted to the svgo
    worker and nothing is added to the cache: the cached artifact is handed to
    [_updateForFile], to be compared with the input item, and the page is idle
    again at the end of the task. *)
Theorem cache_hit_without_request settings r pg cacheMatch :
  idle pg → original settings = false →
  ResultsCache.match_ (fingerprint settings) (_cache pg) = Some cacheMatch →
  let pg' := task (CompressSvg settings r) pg in
  idle pg' ∧
  process_requests pg' = process_requests pg ∧
  updates pg' = updates pg ++ [{| upd_cycle := S (cycles pg); upd_latest := S (cycles pg);
                                  upd_svgFile := Some cacheMatch;
                                  upd_compareToFile := _inputItem pg;
                                  upd_compress := compress_option settings |}] ∧
  cached pg' = cached pg ∧ toasts pg' = toasts pg ∧ _cache pg' = _cache pg.
Proof.
  intros Hidle Horig Hmatch pg'. subst pg'.
  destruct (compress_from_idle settings r pg Hidle) as (fuel & Hfuel & ->).
  fold (resumed r pg). unfold compress_resume.
  rewrite decide_False by (intros Hne; by apply Hne). rewrite Horig.
  change (_cache (resumed r pg)) with (_cache pg). rewrite Hmatch.
  by apply shown_from_idle.
Qed.

(** X15. A failed pass.  When the reply to the request in flight for a pass
    of the latest cycle carries an error message, the message is shown in a
    toast with the prefix [Minifying error: ]; nothing is displayed or cached,
    no further request is posted and the page is idle at the end of the
    task. *)
Theorem failed_pass_reported k id w reply msg pg :
  (∃ c t settings, k = KCompressPass1 c t settings ∨ k = KCompressPass2 c t settings) →
  in_flight k id w pg →
  msg_id reply = Some id → id ≠ 0%N →
  msg_error reply = Some msg → msg ≠ EmptyString →
  let pg' := task (SvgoMessage reply) pg in
  idle pg' ∧
  toasts pg' = toasts pg ++ [("Minifying error: " ++ msg)%string] ∧
  updates pg' = updates pg ∧ cached pg' = cached pg ∧ _cache pg' = _cache pg ∧
  process_requests pg' = process_requests pg.
Proof.
  intros (c & t & settings & Hk) [Hbusy _] Hid Hnz Herr Hmsg pg'. subst pg'.
  assert (error_of reply = Some (Error msg)) as He.
  { unfold error_of. rewrite Herr. by rewrite decide_False. }
  destruct (message_from_flight reply k id pg Hbusy) as (fuel & ps & Hfuel & Hjob & ->);
    [by destruct Hk as [-> | ->]|done|done|].
  rewrite He. cbn [Svgo.process_outcome fst snd] in *.
  assert (∀ X, run_reaction k (Rejected (Error msg)) X = compress_catch (Error msg) X) as ->
    by (by destruct Hk as [-> | ->]).
  unfold compress_catch. rewrite decide_False by done.
  rewrite drain_done by done. unfold _handleError, process_requests. pnorm.
  split_and!; try done. unfold idle, quiescent. pnorm. split_and!; [done|done|eauto].
Qed.

(** X16. No input.  When [_compressSvg] is called on an idle page that has
    no input item, with settings that neither show the original nor hit the
    cache, reading the text of the input throws: the error is shown in a toast
    with the prefix [Minifying error: ], and nothing is posted, displayed or
    cached. *)
Theorem missing_input_reported settings r pg :
  idle pg → original settings = false →
  ResultsCache.match_ (fingerprint settings) (_cache pg) = None →
  _inputItem pg = None →
  let pg' := task (CompressSvg settings r) pg in
  idle pg' ∧
  (∃ msg, toasts pg' = toasts pg ++ [("Minifying error: " ++ msg)%string]) ∧
  posted (browser pg') = posted (browser pg) ∧
  updates pg' = updates pg ∧ cached pg' = cached pg.
Proof.
  intros Hidle Horig Hmiss Hin pg'. subst pg'.
  destruct (compress_from_idle settings r pg Hidle) as (fuel & Hfuel & ->).
  fold (resumed r pg). unfold compress_resume.
  rewrite decide_False by (intros Hne; by apply Hne). rewrite Horig.
  change (_cache (resumed r pg)) with (_cache pg). rewrite Hmiss.
  change (_inputItem (resumed r pg)) with (_inputItem pg). rewrite Hin.
  cbn [text_of start_pass]. unfold compress_catch. rewrite decide_False by done.
  rewrite drain_done by done. unfold _handleError, resumed. pnorm.
  destruct Hidle as (Hq & Hpend & Hjob).
  split_and!; try done. by eexists.
Qed.

(** X17. Every checkpoint ends.  From any state of the page, running the
    queued reactions empties the microtask queue after at most [load]
    reactions, whatever reactions are registered on the pending promises; more
    fuel changes nothing.  So every task of the page is followed by a
    checkpoint that terminates. *)
Theorem checkpoint_terminates pg :
  quiescent (drain (load (browser pg)) pg) ∧
  (∀ fuel, load (browser pg) ≤ fuel → drain fuel pg = drain (load (browser pg)) pg) ∧
  ∀ ev, quiescent (task ev pg).
Proof.
  split_and!.
  - by apply drain_quiescent.
  - intros fuel Hfuel. apply drain_more; [by apply drain_quiescent|done].
  - intros ev. apply task_quiescent.
Qed.

Lemma initial_settled svgText width height :
  settled_page initial_page ∧ settled_page (page_with_input svgText width height).
Proof.
  split; (split; [split; constructor|left; split_and!; [done|done|by eexists]]).
Qed.

(** X18. One request at a time.  After any run of [_compressSvg] calls and
    messages of the svgo worker, starting from a page between two tasks, at
    most one request of [svgo] is pending, and its promise is the one the
    current job waits for. *)
Theorem one_request_in_flight evs pg :
  settled_page pg → Forall cycle_event evs →
  let pg' := run evs pg in
  _pending (svgo pg') = ∅ ∨
  ∃ id q, _pending (svgo pg') = {[ id := q ]} ∧
          promises (browser pg') !! q = Some (Pending [KProcessed (_currentJob pg')]).
Proof.
  intros Hs Hevs pg'. subst pg'.
  destruct (run_settled evs pg Hevs Hs) as [_ [(_ & Hidle & _)|(id & t & s & Hbusy)]];
    [by left|right].
  destruct Hbusy as [(_ & q & Hp & Hq & _)|(_ & q & Hp & Hq & _)]; by exists id, q.
Qed.

(** *** The result of a cycle is found by the next one *)
Lemma indexOf_insert x (l : list (option string)) i :
  Some x ∉ l → i < length l → indexOf x (<[i := Some x]> l) = Some i.
Proof.
  revert i. induction l as [|y l IH]; intros i Hnin Hi; [simpl in Hi; lia|].
  apply not_elem_of_cons in Hnin as [Hy Hnin]. destruct i as [|i]; simpl.
  - by rewrite decide_True.
  - rewrite decide_False by congruence. rewrite IH by (done || simpl in Hi; lia). done.
Qed.

Lemma indexOf_app x (l1 l2 : list (option string)) :
  Some x ∉ l1 → indexOf x (l1 ++ l2) = (λ i, length l1 + i) <$> indexOf x l2.
Proof.
  induction l1 as [|y l1 IH]; intros Hnin; simpl.
  - by destruct (indexOf x l2).
  - apply not_elem_of_cons in Hnin as [Hy Hnin].
    rewrite decide_False by congruence. rewrite IH by done.
    by destruct (indexOf x l2).
Qed.

Lemma indexOf_array_set x (l : list (option string)) i :
  Some x ∉ l → indexOf x (array_set i x l) = Some i.
Proof.
  intros Hnin. unfold array_set. case_decide as Hi; [by apply indexOf_insert|].
  rewrite !indexOf_app; [|by intros [? _]%elem_of_replicate|done].
  simpl. rewrite decide_True by done. simpl. rewrite length_replicate. f_equal. lia.
Qed.

Lemma array_get_set {A} (l : list (option A)) i x : array_get (array_set i x l) i = Some x.
Proof.
  unfold array_get, array_set. case_decide as Hi.
  - by rewrite list_lookup_insert_eq.
  - rewrite lookup_app_r by lia. rewrite lookup_app_r by (rewrite length_replicate; lia).
    rewrite length_replicate, Nat.sub_diag. done.
Qed.

(** [match] finds what [add] has just stored under a fingerprint that was
    not in the cache. *)
Lemma match_added fp g c h :
  Some fp ∉ ResultsCache._fingerprints c →
  ResultsCache.match_ fp (ResultsCache.add fp g (c, h)).1 = Some g.
Proof.
  intros Hnin. unfold ResultsCache.match_, ResultsCache.add.
  cbn [fst ResultsCache._fingerprints ResultsCache._items].
  rewrite indexOf_array_set by done. apply array_get_set.
Qed.

Lemma match_absent fp c :
  Some fp ∉ ResultsCache._fingerprints c → ResultsCache.match_ fp c = None.
Proof.
  intros Hnin. unfold ResultsCache.match_. by rewrite ResultsCacheFacts.indexOf_None.
Qed.

(** The end of the [try] block, run to the end of the checkpoint. *)
Lemma finished_page c settings g pgJ fuel :
  ready pgJ → microtasks (browser pgJ) = [] → 5 ≤ fuel →
  let pgE := drain fuel (compress_finish c settings g pgJ) in
  idle pgE ∧ process_requests pgE = process_requests pgJ ∧
  (∃ h, _cache pgE = (ResultsCache.add (fingerprint settings) g (_cache pgJ, h)).1) ∧
  updates pgE = updates pgJ ++ [{| upd_cycle := c; upd_latest := cycles pgJ;
                                   upd_svgFile := Some g; upd_compareToFile := _inputItem pgJ;
                                   upd_compress := compress_option settings |}] ∧
  _inputItem pgE = _inputItem pgJ ∧ cycles pgE = cycles pgJ.
Proof.
  intros Hready HQ Hfuel pgE. subst pgE.
  destruct (compress_finish_ends c settings g pgJ Hready) as (Hrest & Hlen & Hreq & _).
  destruct (resting_drain _ fuel Hrest) as [Hidle Hs]; [rewrite HQ in Hlen; cbn [length] in Hlen; lia|].
  destruct Hs as (_ & _ & Hin & Hca & _ & Hu & _ & _ & Hy & Hreq' & _).
  split; [exact Hidle|]. rewrite Hu, Hca, Hin, Hy, Hreq', Hreq.
  destruct (_updateForFile_logs c (Some g) (_inputItem pgJ) (compress_option settings) pgJ)
    as (Hu1 & _ & _ & Hca1 & Hin1 & Hy1).
  unfold compress_finish, cache_add.
  rewrite (surjective_pairing (ResultsCache.add _ _ _)).
  cbn [_cache updates _inputItem cycles]. rewrite Hu1, Hca1, Hin1, Hy1.
  split_and!; try done. by eexists.
Qed.

(** The page after the first pass of a cycle was started. *)
Lemma first_pass_fields settings r pg f file :
  idle pg → original settings = false →
  ResultsCache.match_ (fingerprint settings) (_cache pg) = None →
  _inputItem pg = Some f → files (heap pg) !! f = Some file →
  remUnusedTextCode settings || remUnusualAttributes settings = false →
  let pg1 := task (CompressSvg settings r) pg in
  in_flight (KCompressPass1 (S (cycles pg)) r settings) (_requestId (svgo pg) + 1)
            (default (spawned (browser pg)) (_worker (svgo pg))) pg1 ∧
  heap pg1 = heap pg ∧ _cache pg1 = _cache pg ∧ _inputItem pg1 = _inputItem pg ∧
  cycles pg1 = S (cycles pg) ∧ updates pg1 = updates pg.
Proof.
  intros Hidle Horig Hmiss Hin Hfile Hclean pg1. subst pg1.
  destruct (first_pass settings r pg f file (SvgFile.text file) Hidle Horig Hmiss Hin Hfile)
    as [Hflight _]; [by apply cleanup_off|].
  split; [exact Hflight|]. clear Hflight.
  destruct (compress_from_idle settings r pg Hidle) as (fuel & Hfuel & ->).
  destruct Hidle as (Hq & Hpend & o & Hjob).
  unfold compress_resume, text_of. pnorm.
  rewrite decide_False by (intros Hne; by apply Hne).
  rewrite Horig, Hmiss, Hin, Hfile, cleanup_off by done.
  rewrite (pass_run _ _ _ _ o) by (pnorm; done || constructor || (simpl; lia)).
  by pnorm.
Qed.

(** X19. A result is computed once per fingerprint.  After a cycle without
    clean-up whose request was answered with a processed result, a call of
    [_compressSvg] with settings of the same fingerprint posts nothing to the
    svgo worker: the artifact that the first cycle displayed and cached is
    displayed again. *)
Theorem result_reused settings r reply data wd ht settings' r' pg f file :
  idle pg → original settings = false →
  Some (fingerprint settings) ∉ ResultsCache._fingerprints (_cache pg) →
  _inputItem pg = Some f → files (heap pg) !! f = Some file →
  remUnusedTextCode settings || remUnusualAttributes settings = false →
  msg_id reply = Some (_requestId (svgo pg) + 1)%N →
  error_of reply = None → msg_result reply = VProcessed data wd ht →
  fingerprint settings' = fingerprint settings → original settings' = false →
  let pg1 := task (CompressSvg settings r) pg in
  let pg2 := task (SvgoMessage reply) pg1 in
  let pg3 := task (CompressSvg settings' r') pg2 in
  let g := length (files (heap pg)) in
  updates pg2 = updates pg ++ [{| upd_cycle := S (cycles pg); upd_latest := S (cycles pg);
                                  upd_svgFile := Some g; upd_compareToFile := Some f;
                                  upd_compress := compress_option settings |}] ∧
  ResultsCache.match_ (fingerprint settings) (_cache pg2) = Some g ∧
  idle pg3 ∧
  process_requests pg3 = process_requests pg2 ∧
  updates pg3 = updates pg2 ++ [{| upd_cycle := S (S (cycles pg));
                                   upd_latest := S (S (cycles pg));
                                   upd_svgFile := Some g; upd_compareToFile := Some f;
                                   upd_compress := compress_option settings' |}] ∧
  cached pg3 = cached pg2.
Proof.
  intros Hidle Horig Hnew Hin Hfile Hclean Hid Herr Hres Hfp Horig' pg1 pg2 pg3 g.
  subst g. set (g := length (files (heap pg))) in *.
  destruct (first_pass_fields settings r pg f file Hidle Horig (match_absent _ _ Hnew)
              Hin Hfile Hclean) as ([Hbusy _] & Hheap & Hcache & Hin1 & Hcyc & Hupd).
  fold pg1 in Hbusy, Hheap, Hcache, Hin1, Hcyc, Hupd.
  assert (idle pg2 ∧ updates pg2 = updates pg ++
            [{| upd_cycle := S (cycles pg); upd_latest := S (cycles pg);
                upd_svgFile := Some g; upd_compareToFile := Some f;
                upd_compress := compress_option settings |}] ∧
          ResultsCache.match_ (fingerprint settings) (_cache pg2) = Some g ∧
          _inputItem pg2 = Some f ∧ cycles pg2 = S (cycles pg)) as (Hidle2 & Hupd2 & Hhit & Hin2 & Hcyc2).
  { subst pg2.
    destruct (message_from_flight reply _ _ pg1 Hbusy) as (fuel & ps & Hfuel & Hjob & ->);
      [done|done|lia|].
    rewrite Herr, Hres in *. unfold Svgo.process_outcome, new_SvgFile in *.
    cbn [fst snd] in *. cbn [run_reaction compress_pass1]. rewrite Hclean.
    match goal with |- context [drain fuel (compress_finish ?c ?s ?f ?pgJ)] =>
      destruct (finished_page c s f pgJ fuel) as (Hi & _ & [h Hca] & Hu & Hi2 & Hy)
    end.
    - split_and!; pnorm; eauto.
    - done.
    - lia.
    - rewrite Hheap in *. split; [exact Hi|]. rewrite Hu, Hca, Hi2, Hy.
      cbn [updates _cache _inputItem cycles]. rewrite Hupd, Hcache, Hin1, Hcyc, Hin.
      split_and!; try done. by apply match_added. }
  split; [exact Hupd2|]. split; [exact Hhit|].
  subst pg3.
  destruct (compress_from_idle settings' r' pg2 Hidle2) as (fuel & Hfuel & ->).
  fold (resumed r' pg2). unfold compress_resume.
  rewrite decide_False by (intros Hne; by apply Hne). rewrite Horig'.
  change (_cache (resumed r' pg2)) with (_cache pg2). rewrite Hfp, Hhit.
  change (_inputItem (resumed r' pg2)) with (_inputItem pg2).
  destruct (shown_from_idle (Some g) (_inputItem pg2) (compress_option settings') r' pg2 fuel
              Hidle2 Hfuel) as (Hi3 & Hreq3 & Hu3 & Hc3 & _).
  rewrite Hin2, Hcyc2 in *. done.
Qed.
End Facts.

Lemma page_with_input_idle svgText width height : idle (page_with_input svgText width height).
Proof. split_and!; [done|done|by eexists]. Qed.

Lemma initial_page_idle : idle initial_page.
Proof. split_and!; [done|done|by eexists]. Qed.

Lemma page_with_result_idle : idle page_with_result.
Proof. split_and!; [done|done|by eexists]. Qed.

Lemma original_shown_without_request_witness :
  updates (task (H := loading_cleanup)
             (CompressSvg (example_settings ["original"%string] "a") 7)
             (page_with_input "<svg> </svg>" 1 1))
  = updates (page_with_input "<svg> </svg>" 1 1) ++
    [{| upd_cycle := 1; upd_latest := 1; upd_svgFile := Some 0; upd_compareToFile := None;
        upd_compress := false |}].
Proof.
  destruct (original_shown_without_request (H := loading_cleanup)
              (example_settings ["original"%string] "a") 7
              (page_with_input "<svg> </svg>" 1 1) (page_with_input_idle _ _ _) eq_refl)
    as (_ & _ & Hu & _).
  exact Hu.
Defined.

Lemma cache_hit_without_request_witness :
  updates (task (H := loading_cleanup) (CompressSvg (example_settings [] "a") 7)
             page_with_result)
  = updates page_with_result ++
    [{| upd_cycle := 1; upd_latest := 1; upd_svgFile := Some 1; upd_compareToFile := Some 0;
        upd_compress := false |}] ∧
  process_requests (task (H := loading_cleanup) (CompressSvg (example_settings [] "a") 7)
                      page_with_result)
  = process_requests page_with_result.
Proof.
  destruct (cache_hit_without_request (H := loading_cleanup) (example_settings [] "a") 7
              page_with_result 1 page_with_result_idle eq_refl eq_refl)
    as (_ & Hr & Hu & _).
  split; [exact Hu|exact Hr].
Defined.

Lemma example_in_flight :
  in_flight (KCompressPass1 1 7 (example_settings [] "a")) 1 0
    (task (H := loading_cleanup) (CompressSvg (example_settings [] "a") 7)
       (page_with_input "<svg> </svg>" 1 1)).
Proof.
  by destruct (first_pass (H := loading_cleanup) (example_settings [] "a") 7
                 (page_with_input "<svg> </svg>" 1 1) 0 _ "<svg> </svg>"
                 (page_with_input_idle _ _ _) eq_refl eq_refl eq_refl eq_refl eq_refl).
Qed.

Lemma failed_pass_reported_witness :
  toasts (task (H := loading_cleanup)
            (SvgoMessage {| msg_id := Some 1%N; msg_result := VUndefined;
                            msg_error := Some "bad input"%string |})
            (task (H := loading_cleanup) (CompressSvg (example_settings [] "a") 7)
               (page_with_input "<svg> </svg>" 1 1)))
  = toasts (task (H := loading_cleanup) (CompressSvg (example_settings [] "a") 7)
              (page_with_input "<svg> </svg>" 1 1))
    ++ ["Minifying error: bad input"%string].
Proof.
  destruct (failed_pass_reported (H := loading_cleanup)
              (KCompressPass1 1 7 (example_settings [] "a")) 1 0
              {| msg_id := Some 1%N; msg_result := VUndefined;
                 msg_error := Some "bad input"%string |} "bad input"
              (task (H := loading_cleanup) (CompressSvg (example_settings [] "a") 7)
                 (page_with_input "<svg> </svg>" 1 1)))
    as (_ & Ht & _).
  - eexists _, _, _. by left.
  - exact example_in_flight.
  - reflexivity.
  - done.
  - reflexivity.
  - done.
  - exact Ht.
Defined.

Lemma missing_input_reported_witness :
  posted (browser (task (H := loading_cleanup) (CompressSvg (example_settings [] "a") 7)
                     initial_page))
  = posted (browser initial_page) ∧
  ∃ msg, toasts (task (H := loading_cleanup) (CompressSvg (example_settings [] "a") 7)
                   initial_page)
         = toasts initial_page ++ [("Minifying error: " ++ msg)%string].
Proof.
  destruct (missing_input_reported (H := loading_cleanup) (example_settings [] "a") 7
              initial_page initial_page_idle eq_refl eq_refl eq_refl)
    as (_ & Ht & Hp & _).
  split; [exact Hp|exact Ht].
Defined.

Lemma one_request_in_flight_witness :
  _pending (svgo (run (H := loading_cleanup)
                    [CompressSvg (example_settings [] "a") 1;
                     CompressSvg (example_settings [] "b") 2]
                    (page_with_input "<svg> </svg>" 1 1))) = ∅ ∨
  ∃ id q,
    _pending (svgo (run (H := loading_cleanup)
                      [CompressSvg (example_settings [] "a") 1;
                       CompressSvg (example_settings [] "b") 2]
                      (page_with_input "<svg> </svg>" 1 1))) = {[ id := q ]} ∧
    promises (browser (run (H := loading_cleanup)
                         [CompressSvg (example_settings [] "a") 1;
                          CompressSvg (example_settings [] "b") 2]
                         (page_with_input "<svg> </svg>" 1 1))) !! q
    = Some (Pending [KProcessed
                       (_currentJob (run (H := loading_cleanup)
                                       [CompressSvg (example_settings [] "a") 1;
                                        CompressSvg (example_settings [] "b") 2]
                                       (page_with_input "<svg> </svg>" 1 1)))]).
Proof.
  apply (one_request_in_flight (H := loading_cleanup)).
  - apply (proj2 (initial_settled _ _ _)).
  - by repeat constructor.
Defined.

Lemma result_reused_witness :
  process_requests
    (task (H := loading_cleanup) (CompressSvg (example_settings ["gzip"%string] "a") 8)
       (task (H := loading_cleanup)
          (SvgoMessage {| msg_id := Some 1%N; msg_result := VProcessed "<svg/>" 1 1;
                          msg_error := None |})
          (task (H := loading_cleanup) (CompressSvg (example_settings [] "a") 7)
             (page_with_input "<svg> </svg>" 1 1))))
  = process_requests
      (task (H := loading_cleanup)
         (SvgoMessage {| msg_id := Some 1%N; msg_result := VProcessed "<svg/>" 1 1;
                         msg_error := None |})
         (task (H := loading_cleanup) (CompressSvg (example_settings [] "a") 7)
            (page_with_input "<svg> </svg>" 1 1))).
Proof.
  destruct (result_reused (H := loading_cleanup) (example_settings [] "a") 7
              {| msg_id := Some 1%N; msg_result := VProcessed "<svg/>" 1 1;
                 msg_error := None |} "<svg/>" 1 1
              (example_settings ["gzip"%string] "a") 8
              (page_with_input "<svg> </svg>" 1 1) 0 (SvgFile.constructor "<svg> </svg>" 1 1))
    as (_ & _ & _ & Hr & _).
  - apply page_with_input_idle.
  - reflexivity.
  - cbn. apply not_elem_of_nil.
  - reflexivity.
  - reflexivity.
  - reflexivity.
  - reflexivity.
  - reflexivity.
  - reflexivity.
  - reflexivity.
  - reflexivity.
  - exact Hr.
Defined.
End ShownFacts.

(** ** SvgFile.size: the measured size *)
Module MeasuredFacts.
Import WorkerMessengerFacts MainController PageFacts SizeFacts.

#[local] Arguments drain {_} _ _ : simpl never.
#[local] Arguments load _ : simpl never.

Section Facts.
Context `{!Cleanup}.

(** The reply to the request of a first call carries no error: the memoized
    promise and the promise of the call settle with the byte length of the
    result. *)
Lemma gzip_reply n id v pg :
  promises (browser pg) !! S n = Some (Pending [KByteLength (S (S n))]) →
  promises (browser pg) !! S (S n) = Some (Pending [KReturn n]) →
  promises (browser pg) !! n = Some (Pending []) →
  quiescent pg → WorkerMessenger._pending (gzip pg) !! id = Some (S n) → id ≠ 0%N →
  let reply := {| msg_id := Some id; msg_result := v; msg_error := None |} in
  let replied := task (GzipMessage reply) pg in
  heap replied = heap pg ∧ gzipped replied = gzipped pg ∧
  posted (browser replied) = posted (browser pg) ∧
  promises (browser replied) !! S (S n) = Some (Settled (byteLength v)) ∧
  promises (browser replied) !! n = Some (Settled (byteLength v)) ∧
  quiescent replied.
Proof.
  intros Hq Hm Hr Hmt Hpend Hid. cbv zeta. unfold quiescent in *.
  match goal with |- context [task ?ev ?p] =>
    rewrite (task_drain ev p (16 + load (browser (handle ev p)))) by lia
  end.
  match goal with |- context [drain (16 + ?l)] => generalize l end. intros fuel.
  pose proof (lookup_lt_Some _ _ _ Hm) as Hlt.
  cbn [handle].
  rewrite (_onMessage_hit _ _ _ id (S n) [KByteLength (S (S n))]) by done.
  assert (WorkerMessenger.error_of
            {| msg_id := Some id; msg_result := v; msg_error := None |} = None)
    as -> by done.
  erewrite drain_pop; [|pnorm; rewrite Hmt; reflexivity|lia].
  cbn [run_reaction]. pnorm. rewrite Hmt. cbn [map app tail].
  erewrite settle_pending_eq by (pnorm; look; exact Hm). pnorm.
  erewrite drain_pop; [|pnorm; reflexivity|lia].
  cbn [run_reaction map app tail]. pnorm.
  erewrite settle_pending_eq by (pnorm; do 2 look; exact Hr). pnorm.
  rewrite drain_done by done. pnorm.
  split_and!; [done|done|done| |by look|done].
  look. by look.
Qed.

(** X20. The compressed size.  The first call of [size({ compress: true })]
    on a file posts the text of the file to the gzip worker; when the reply
    carries a byte buffer, the promise of the call is fulfilled with its
    [byteLength], and after any further run of page tasks a new call posts
    nothing and is fulfilled with the same number. *)
Theorem size_measured_once (f : ref) (file : SvgFile.t) (n : N) (evs : list Event) (pg : Page) :
  files (heap pg) !! f = Some file → SvgFile._compressedSize file = None → quiescent pg →
  let id := (WorkerMessenger._requestId (gzip pg) + 1)%N in
  let w := default (spawned (browser pg)) (WorkerMessenger._worker (gzip pg)) in
  let reply := {| msg_id := Some id; msg_result := VBytes n; msg_error := None |} in
  let measured := run [Size f true; GzipMessage reply] pg in
  let later := run evs measured in
  posted (browser measured) =
    posted (browser pg) ++ [(w, {| req_id := id; req_action := None; req_settings := None;
                                   req_data := SvgFile.text file |})] ∧
  promises (browser measured) !! (size f true pg).1 = Some (Settled (Fulfilled (VNumber n))) ∧
  posted (browser (task (Size f true) later)) = posted (browser later) ∧
  promises (browser (task (Size f true) later)) !! (size f true later).1 =
    Some (Settled (Fulfilled (VNumber n))).
Proof.
  intros Hf Hm Hq id w reply measured later.
  assert (posted (browser measured) =
            posted (browser pg) ++ [(w, {| req_id := id; req_action := None;
                                           req_settings := None;
                                           req_data := SvgFile.text file |})] ∧
          promises (browser measured) !! (size f true pg).1 =
            Some (Settled (Fulfilled (VNumber n))) ∧
          (∃ m, memo f (heap measured) = Some m ∧
                promises (browser measured) !! m = Some (Settled (Fulfilled (VNumber n)))) ∧
          quiescent measured) as (Hposted & Hcall & (m & Hmemo & Hsettled) & Hquiet).
  { subst measured later reply id w. unfold run. cbn [foldl].
    assert (task (Size f true) pg = (size f true pg).2) as ->.
    { unfold task. cbn [handle]. apply drain_done. unfold quiescent in *.
      rewrite (size_fresh _ _ _ Hf Hm). by pnorm. }
    rewrite (size_fresh _ _ _ Hf Hm). cbn [fst snd].
    set (k := length (promises (browser pg))).
    match goal with |- context [task _ ?x] => set (pg1 := x) end.
    destruct (gzip_reply k (WorkerMessenger._requestId (gzip pg) + 1)%N (VBytes n) pg1)
      as (Hheap & Hlog & Hpost & Hm' & Hr' & Hq'); try done.
    - subst pg1 k. pnorm. by rewrite lookup_app_r, Nat.sub_succ_l, Nat.sub_diag by lia.
    - subst pg1 k. pnorm.
      by rewrite lookup_app_r, !Nat.sub_succ_l, Nat.sub_diag by lia.
    - subst pg1 k. pnorm. by rewrite lookup_app_r, Nat.sub_diag by lia.
    - subst pg1. pnorm. apply lookup_insert_eq.
    - lia.
    - rewrite Hpost, Hheap. split_and!; try done.
      exists (S (S k)). split; [|done]. subst pg1. pnorm. by apply memo_set. }
  split_and!; [exact Hposted|exact Hcall| |].
  - destruct (grows_run evs measured) as (Hps & Hms & _).
    by destruct (size_settled f m _ later (Hms _ _ Hmemo) (Hps _ _ Hsettled)
                   (run_quiescent evs measured Hquiet)) as (? & _ & _).
  - destruct (grows_run evs measured) as (Hps & Hms & _).
    by destruct (size_settled f m _ later (Hms _ _ Hmemo) (Hps _ _ Hsettled)
                   (run_quiescent evs measured Hquiet)) as (_ & _ & ?).
Qed.
End Facts.

Lemma size_measured_once_witness :
  promises (browser (run (H := loading_cleanup)
                       [Size 0 true;
                        GzipMessage {| msg_id := Some 1%N; msg_result := VBytes 20;
                                       msg_error := None |}]
                       (page_with_input "<svg/>" 1 1)))
    !! (size 0 true (page_with_input "<svg/>" 1 1)).1
  = Some (Settled (Fulfilled (VNumber 20))).
Proof.
  destruct (size_measured_once (H := loading_cleanup) 0 (SvgFile.constructor "<svg/>" 1 1) 20 []
              (page_with_input "<svg/>" 1 1) eq_refl eq_refl eq_refl) as (_ & Hp & _).
  exact Hp.
Defined.
End MeasuredFacts.

(** ** The cycle: a newer call *)
Module SupersededFacts.
Import WorkerMessenger WorkerMessengerFacts MainController PageFacts CycleFacts ShownFacts.

#[local] Arguments drain {_} _ _ : simpl never.
#[local] Arguments load _ : simpl never.
#[local] Arguments WorkerMessenger.abort {_} _ : simpl never.
#[local] Arguments WorkerMessenger._onMessage {_} _ _ : simpl never.

Section Facts.
Context `{!Cleanup}.

(** X21. A newer call while a request is in flight.  When [_compressSvg] is
    called while the request of a pass is in flight, that request is rejected
    with [AbortError] and its worker is terminated; the cycle that waited for
    it ends without a toast, a display or a cache entry; and the request of
    the new cycle is posted to a newly constructed worker and is in flight at
    the end of the task. *)
Theorem newer_call_restarts k id w settings r pg f file text1 :
  (∃ c t s, k = KCompressPass1 c t s ∨ k = KCompressPass2 c t s) →
  in_flight k id w pg →
  original settings = false →
  ResultsCache.match_ (fingerprint settings) (_cache pg) = None →
  _inputItem pg = Some f → files (heap pg) !! f = Some file →
  cleanup settings (SvgFile.text file) = inl text1 →
  let pg' := task (CompressSvg settings r) pg in
  let w' := spawned (browser pg) in
  in_flight (KCompressPass1 (S (cycles pg)) r settings) (id + 1) w' pg' ∧
  terminated (browser pg') = w :: terminated (browser pg) ∧
  posted (browser pg') = posted (browser pg) ++ [(w', process_message (id + 1) settings text1)] ∧
  (∀ q, _pending (svgo pg) !! id = Some q →
     promises (browser pg') !! q = Some (Settled (Rejected AbortError))) ∧
  toasts pg' = toasts pg ∧ updates pg' = updates pg ∧ cached pg' = cached pg.
Proof.
  intros (c & t & s & Hk) ((Hq & q & Hpend & Hpq & Hpj) & Hrid & Hw) Horig Hmiss Hin Hfile
    Hclean pg' w'. subst pg' w'.
  assert (noop (k, Rejected AbortError)) as Hnoop
    by (destruct Hk as [-> | ->]; [apply noop_aborted1|apply noop_aborted2]).
  assert (q ≠ _currentJob pg) as Hne.
  { intros ->. rewrite Hpj in Hpq. injection Hpq as ->. by destruct Hk. }
  destruct (task_fuel (CompressSvg settings r) pg) as (fuel & Hfuel & ->).
  unfold handle, _compressSvg, Svgo.abort. pnorm.
  assert (q < length (promises (browser pg))) by (by eapply lookup_lt_Some).
  assert (_currentJob pg < length (promises (browser pg))) by (by eapply lookup_lt_Some).
  erewrite abort_singleton by done. pnorm.
  unfold quiescent in Hq. rewrite Hq, Hw. simpl app.
  erewrite drain_pop; [|pnorm; reflexivity|lia]. unfold run_reaction. pnorm. simpl tail.
  erewrite process_result_spec by (pnorm; look; done). pnorm. simpl app.
  erewrite drain_pop; [|pnorm; reflexivity|lia]. unfold run_reaction. pnorm. simpl tail.
  unfold compress_resume, text_of. cbn [Svgo.process_outcome]. pnorm.
  rewrite decide_False by (intros Hn; by apply Hn).
  rewrite Horig, Hmiss, Hin, Hfile, Hclean.
  rewrite (pass_run _ _ _ _ (Rejected AbortError));
    [|done|pnorm; look; done|pnorm; by repeat constructor|pnorm; simpl; lia].
  unfold in_flight, busy. pnorm. rewrite Hrid.
  split_and!; try done.
  - eexists. split; [reflexivity|]. split; repeat look; done.
  - intros q' Hq'. rewrite Hpend, lookup_singleton_eq in Hq'. injection Hq' as <-.
    repeat look. done.
Qed.
End Facts.

Lemma newer_call_restarts_witness :
  terminated (browser (task (H := loading_cleanup) (CompressSvg (example_settings [] "b") 8)
                         (task (H := loading_cleanup) (CompressSvg (example_settings [] "a") 7)
                            (page_with_input "<svg> </svg>" 1 1))))
  = 0 :: terminated (browser (task (H := loading_cleanup)
                                (CompressSvg (example_settings [] "a") 7)
                                (page_with_input "<svg> </svg>" 1 1))) ∧
  toasts (task (H := loading_cleanup) (CompressSvg (example_settings [] "b") 8)
            (task (H := loading_cleanup) (CompressSvg (example_settings [] "a") 7)
               (page_with_input "<svg> </svg>" 1 1)))
  = toasts (task (H := loading_cleanup) (CompressSvg (example_settings [] "a") 7)
              (page_with_input "<svg> </svg>" 1 1)).
Proof.
  destruct (newer_call_restarts (H := loading_cleanup)
              (KCompressPass1 1 7 (example_settings [] "a")) 1 0
              (example_settings [] "b") 8
              (task (H := loading_cleanup) (CompressSvg (example_settings [] "a") 7)
                 (page_with_input "<svg> </svg>" 1 1))
              0 (SvgFile.constructor "<svg> </svg>" 1 1) "<svg> </svg>")
    as (_ & Hterm & _ & _ & Ht & _).
  - eexists _, _, _. by left.
  - exact example_in_flight.
  - reflexivity.
  - vm_compute. reflexivity.
  - vm_compute. reflexivity.
  - vm_compute. reflexivity.
  - reflexivity.
  - split; [exact Hterm|exact Ht].
Defined.
End SupersededFacts.

(** ** createNanoEvents *)
Module NanoEventsFacts.
Import NanoEvents.

Lemma extended_refl this : extended this this.
Proof. intros r l Hr. exists []. by rewrite app_nil_r. Qed.

Lemma extended_trans a b c : extended a b → extended b c → extended a c.
Proof.
  intros Hab Hbc r l Hr. destruct (Hab r l Hr) as [l1 H1].
  destruct (Hbc r _ H1) as [l2 H2]. exists (l1 ++ l2). by rewrite H2, (assoc_L (++)).
Qed.

Lemma on_extended event cb this : extended this (on event cb this).
Proof.
  intros r l Hr. unfold on. destruct (events this !! event) as [r'|]; simpl.
  - destruct (decide (r' = r)) as [->|Hne].
    + exists [cb]. rewrite list_lookup_alter_eq, Hr. done.
    + exists []. rewrite list_lookup_alter_ne by done. by rewrite app_nil_r.
  - exists []. rewrite app_nil_r. by apply lookup_app_l_Some.
Qed.

Lemma unbind_extended event cb this : extended this (unbind event cb this).
Proof.
  intros r l Hr. unfold unbind. destruct (events this !! event) as [r'|]; simpl.
  - exists []. rewrite app_nil_r. by apply lookup_app_l_Some.
  - exists []. by rewrite app_nil_r.
Qed.

Section Facts.
Context {State Args : Type}.
Variable call : nat → Args → t * State → Completion (State := State).

Lemma emit_loop_snapshot r (done_ rest : list nat) args st :
  polite call →
  (∃ more, arrays (fst st) !! r = Some (done_ ++ rest ++ more)) →
  emit_loop call r (length done_) (length rest) args st = call_each call rest args st.
Proof.
  intros Hpolite. revert done_ st. induction rest as [|cb rest IH]; intros done_ st [more Hr].
  - done.
  - cbn [length emit_loop call_each]. rewrite Hr. cbn [mbind option_bind].
    rewrite lookup_app_r by lia. rewrite Nat.sub_diag. cbn [lookup list_lookup app].
    pose proof (Hpolite cb args st _ _ Hr) as [l' Hr'].
    destruct (call cb args st) as [st'|st']; [|done]. cbn [state] in Hr'.
    replace (S (length done_)) with (length (done_ ++ [cb]))
      by (rewrite length_app; simpl; lia).
    apply IH. exists (more ++ l'). rewrite Hr'.
    by rewrite <- !(assoc_L (++)).
Qed.

(** X22. [emit] calls the callbacks that were registered for the event when
    it started, in the order of their registration, up to the first that
    throws: a callback that registers a callback, or removes itself or
    another one, through [on] and the functions it returns, does not change
    which callbacks this [emit] calls. *)
Theorem emit_calls_snapshot (event : string) (args : Args) (st : t * State) :
  polite call → wf (fst st) →
  emit call event args st = call_each call (listeners event (fst st)) args st.
Proof.
  intros Hpolite [Hlt _]. unfold emit, listeners.
  destruct (events (fst st) !! event) as [r|] eqn:Hev; [|done].
  destruct (lookup_lt_is_Some_2 _ _ (Hlt _ _ Hev)) as [l Hl]. rewrite Hl. cbn [default].
  apply (emit_loop_snapshot r [] l); [done|]. exists []. by rewrite app_nil_r.
Qed.
End Facts.

Lemma create_wf : wf create.
Proof. split; [intros e r|intros e1 e2 r]; simpl; by rewrite lookup_empty. Qed.

Lemma on_wf event cb this : wf this → wf (on event cb this).
Proof.
  intros [Hlt Hinj]. unfold on. destruct (events this !! event) as [r|] eqn:Hev.
  - split; cbn [events arrays].
    + intros e r' He. rewrite length_alter. by eapply Hlt.
    + done.
  - split; cbn [events arrays].
    + intros e r'. rewrite length_app. cbn [length]. destruct (decide (e = event)) as [->|Hne].
      * rewrite lookup_insert_eq. intros [= <-]. lia.
      * rewrite lookup_insert_ne by done. intros He. apply Hlt in He. lia.
    + intros e1 e2 r'. destruct (decide (e1 = event)) as [->|H1], (decide (e2 = event)) as [->|H2];
        rewrite ?lookup_insert_eq, ?lookup_insert_ne by done; try done.
      * intros [= <-] He. apply Hlt in He. lia.
      * intros He [= <-]. apply Hlt in He. lia.
      * apply Hinj.
Qed.

Lemma unbind_wf event cb this : wf this → wf (unbind event cb this).
Proof.
  intros [Hlt Hinj]. unfold unbind. destruct (events this !! event) as [r|] eqn:Hev; [|done].
  split; cbn [events arrays].
  - intros e r'. rewrite length_app. cbn [length]. destruct (decide (e = event)) as [->|Hne].
    + rewrite lookup_insert_eq. intros [= <-]. lia.
    + rewrite lookup_insert_ne by done. intros He. apply Hlt in He. lia.
  - intros e1 e2 r'. destruct (decide (e1 = event)) as [->|H1], (decide (e2 = event)) as [->|H2];
      rewrite ?lookup_insert_eq, ?lookup_insert_ne by done; try done.
    + intros [= <-] He. apply Hlt in He. lia.
    + intros He [= <-]. apply Hlt in He. lia.
    + apply Hinj.
Qed.

Lemma listeners_on event cb this :
  wf this → listeners event (on event cb this) = listeners event this ++ [cb].
Proof.
  intros [Hlt _]. unfold listeners, on. destruct (events this !! event) as [r|] eqn:Hev.
  - cbn [events arrays]. rewrite Hev, list_lookup_alter_eq.
    destruct (lookup_lt_is_Some_2 _ _ (Hlt _ _ Hev)) as [l Hl]. by rewrite Hl.
  - cbn [events arrays]. rewrite lookup_insert_eq.
    by rewrite lookup_app_r, Nat.sub_diag by lia.
Qed.

Lemma listeners_unbind event cb this :
  listeners event (unbind event cb this) = filter (λ i, cb ≠ i) (listeners event this).
Proof.
  unfold listeners, unbind. destruct (events this !! event) as [r|] eqn:Hev.
  - cbn [events arrays]. rewrite lookup_insert_eq.
    by rewrite lookup_app_r, Nat.sub_diag by lia.
  - by rewrite Hev.
Qed.

Lemma listeners_on_other event other cb this :
  wf this → other ≠ event → listeners other (on event cb this) = listeners other this.
Proof.
  intros [Hlt Hinj] Hne. unfold listeners, on.
  destruct (events this !! event) as [r|] eqn:Hev; cbn [events arrays].
  - destruct (events this !! other) as [r'|] eqn:Ho; [|done].
    rewrite list_lookup_alter_ne; [done|]. intros <-. by apply Hne, (Hinj _ _ r).
  - rewrite lookup_insert_ne by done.
    destruct (events this !! other) as [r'|] eqn:Ho; [|done].
    by rewrite lookup_app_l by (by eapply Hlt).
Qed.

Lemma listeners_unbind_other event other cb this :
  wf this → other ≠ event → listeners other (unbind event cb this) = listeners other this.
Proof.
  intros [Hlt Hinj] Hne. unfold listeners, unbind.
  destruct (events this !! event) as [r|] eqn:Hev; cbn [events arrays]; [|done].
  rewrite lookup_insert_ne by done.
  destruct (events this !! other) as [r'|] eqn:Ho; [|done].
  by rewrite lookup_app_l by (by eapply Hlt).
Qed.

Lemma filter_same {B} (P : B → Prop) `{!∀ x, Decision (P x)} (l : list B) :
  filter P l = l ↔ Forall P l.
Proof.
  induction l as [|x l IH]; [by split|]. split.
  - intros Heq. destruct (decide (P x)) as [Hx|Hx].
    + rewrite filter_cons_True in Heq by done. injection Heq as Heq.
      constructor; [done|]. by apply IH.
    + rewrite filter_cons_False in Heq by done.
      pose proof (length_filter P l) as Hlen. rewrite Heq in Hlen. simpl in Hlen. lia.
  - intros [Hx Hl]%Forall_cons. rewrite filter_cons_True by done. f_equal. by apply IH.
Qed.

(** X23. [on] adds the callback after those registered for the event, and
    the function it returns removes every registration of that callback for
    the event, also those made by other calls of [on]: registering a callback
    and removing it brings the listeners of the event back exactly when the
    callback was not registered before.  The callbacks of other events stay
    as they are. *)
Theorem on_and_unbind (event other : string) (cb : nat) (this : t) :
  wf this →
  let bound := on event cb this in
  let unbound := unbind event cb bound in
  listeners event bound = listeners event this ++ [cb] ∧
  listeners event unbound = filter (λ i, cb ≠ i) (listeners event this) ∧
  (listeners event unbound = listeners event this ↔ cb ∉ listeners event this) ∧
  (other ≠ event →
     listeners other bound = listeners other this ∧
     listeners other unbound = listeners other this) ∧
  wf unbound.
Proof.
  intros Hwf bound unbound.
  assert (listeners event unbound = filter (λ i, cb ≠ i) (listeners event this)) as Hun.
  { subst unbound bound. rewrite listeners_unbind, listeners_on by done.
    rewrite filter_app, filter_cons_False, filter_nil by (intros Hne; by apply Hne).
    by rewrite app_nil_r. }
  split_and!.
  - by apply listeners_on.
  - exact Hun.
  - rewrite Hun, filter_same, Forall_forall. split.
    + intros Hall Hin. by apply (Hall cb Hin).
    + intros Hnin x Hx ->. by apply Hnin.
  - intros Hne. subst unbound bound.
    rewrite listeners_unbind_other by (by apply on_wf || done).
    by rewrite listeners_on_other.
  - by apply unbind_wf, on_wf.
Qed.

Lemma on_and_unbind_witness :
  listeners "change" (unbind "change" 7 (on "change" 7 (on "change" 7 (on "reset" 3 create))))
  = [].
Proof.
  apply (on_and_unbind "change" "reset" 7 (on "change" 7 (on "reset" 3 create))).
  by apply on_wf, on_wf, create_wf.
Defined.

Lemma once_polite : polite once.
Proof. intros cb args st. apply unbind_extended. Qed.

Lemma emit_calls_snapshot_witness :
  emit once "change" () (on "change" 2 (on "change" 1 create), [])
  = call_each once [1; 2] () (on "change" 2 (on "change" 1 create), []).
Proof.
  apply (emit_calls_snapshot once "change" () (on "change" 2 (on "change" 1 create), [])).
  - exact once_polite.
  - by apply on_wf, on_wf, create_wf.
Defined.
End NanoEventsFacts.
